(** * Commentary dashboard BFF: tournament fetch-and-cache subsystem

    A shallow embedding of the backend's cache stack
    (InMemoryCacheService, RedisCacheService, FallbackCacheService and the
    factory), the dynamic TTL calculator, the start.gg client (retry loop,
    set pagination, participant assembly) and the tournament router,
    followed by the properties established about them.

    Conventions.  Every asynchronous method of the source becomes a
    function from the state it touches to an [outcome] (the promise resolved
    or rejected) and the state afterwards.  [Date.now()] is an explicit
    argument [now], in milliseconds.  JavaScript numbers that hold integers
    are [Z]; JavaScript strings are [string]. *)

From Stdlib Require Import ZArith List Lia Ascii String Bool.
From stdpp Require Import base option list strings pretty gmap.
From Equations Require Import Equations.

Local Open Scope string_scope.
Local Open Scope Z_scope.

(** ** Promises *)

(** The settled state of a promise: resolved with a value, or rejected with
    an [Error] whose [message] is kept. *)
Inductive outcome (A : Type) : Type :=
| Resolved (a : A)
| Rejected (message : string).
Arguments Resolved {A} a.
Arguments Rejected {A} message.

Definition is_resolved {A} (o : outcome A) : bool :=
  match o with Resolved _ => true | Rejected _ => false end.

Definition is_rejected {A} (o : outcome A) : bool :=
  negb (is_resolved o).

(** ** Console *)

(** A line is the text the call prints.  [console_error text error] is
    [console.error(text, error)] with the caught [Error] itself as second
    argument, given here by its message: the console prints [text], then
    the error with its name and its stack. *)
Inductive console_line : Type :=
| console_log (text : string)
| console_warn (text : string)
| console_error (text : string) (error : string).

Definition is_warn (l : console_line) : bool :=
  match l with console_warn _ => true | _ => false end.

(** [Array.prototype.join]. *)
Definition join (sep : string) (parts : list string) : string :=
  String.concat sep parts.

(** ** Cache metadata and the cache interface (ICacheService.ts) *)

Module CacheMetadata.
Record t : Type := mk { key : string; ttl : Z; createdAt : Z; expiresAt : Z }.
End CacheMetadata.

(** The interface [ICacheService], over the type [V] of cached values and
    the type [S] of the implementation's own state.  Each method takes the
    clock reading at the time of the call. *)
Module ICacheService.
Class ICacheService (V S : Type) : Type := {
  get : Z -> string -> S -> outcome (option V) * S;
  set : Z -> string -> V -> Z -> S -> outcome unit * S;
  del : Z -> string -> S -> outcome unit * S;
  exists_ : Z -> string -> S -> outcome bool * S;
  getMetadata : Z -> string -> S -> outcome (option CacheMetadata.t) * S;
  clear : Z -> S -> outcome unit * S;
  close : Z -> S -> outcome unit * S;
  getName : S -> string
}.
End ICacheService.
Export (hints) ICacheService.
Abbreviation ICacheService := ICacheService.ICacheService.

(** ** InMemoryCacheService.ts *)

Module CacheEntry.
Record t (V : Type) : Type := mk { data : V; expiresAt : Z; createdAt : Z }.
Arguments mk {V} data expiresAt createdAt.
Arguments data {V} _.
Arguments expiresAt {V} _.
Arguments createdAt {V} _.
End CacheEntry.

Module InMemoryCacheService.
Section WithValue.
Context {V : Type}.

(** [private cache: Map<string, CacheEntry>]. *)
Abbreviation t := (gmap string (CacheEntry.t V)).

Definition new : t := ∅.

Definition get (now : Z) (key : string) (cache : t) : option V * t :=
  match cache !! key with
  | None => (None, cache)
  | Some entry =>
      if CacheEntry.expiresAt entry <=? now
      then (None, delete key cache)
      else (Some (CacheEntry.data entry), cache)
  end.

Definition set (now : Z) (key : string) (value : V) (ttlSeconds : Z)
    (cache : t) : t :=
  let entry :=
    {| CacheEntry.data := value;
       CacheEntry.createdAt := now;
       CacheEntry.expiresAt := now + ttlSeconds * 1000 |} in
  <[key := entry]> cache.

Definition del (key : string) (cache : t) : t := delete key cache.

Definition exists_ (now : Z) (key : string) (cache : t) : bool * t :=
  match cache !! key with
  | None => (false, cache)
  | Some entry =>
      if CacheEntry.expiresAt entry <=? now
      then (false, delete key cache)
      else (true, cache)
  end.

(** The source reads the clock twice in one synchronous block; both
    readings are [now]. *)
Definition getMetadata (now : Z) (key : string) (cache : t)
    : option CacheMetadata.t * t :=
  match cache !! key with
  | None => (None, cache)
  | Some entry =>
      if CacheEntry.expiresAt entry <=? now
      then (None, delete key cache)
      else
        let ttlMs := CacheEntry.expiresAt entry - now in
        (Some {| CacheMetadata.key := key;
                 CacheMetadata.ttl := ttlMs / 1000;
                 CacheMetadata.createdAt := CacheEntry.createdAt entry;
                 CacheMetadata.expiresAt := CacheEntry.expiresAt entry |},
         cache)
  end.

Definition clear (cache : t) : t := ∅.

Definition close (cache : t) : t := ∅.

Definition getName : string := "InMemoryCache".

(** The periodic sweep. *)
Definition cleanExpired (now : Z) (cache : t) : t :=
  filter (fun kv => negb (CacheEntry.expiresAt kv.2 <=? now) = true) cache.

(** None of the methods throws: as promises they all resolve. *)
#[global] Instance service : ICacheService V t := {|
  ICacheService.get := fun now key c => let (r, c') := get now key c in (Resolved r, c');
  ICacheService.set := fun now key value ttlSeconds c =>
    (Resolved tt, set now key value ttlSeconds c);
  ICacheService.del := fun _ key c => (Resolved tt, del key c);
  ICacheService.exists_ := fun now key c =>
    let (r, c') := exists_ now key c in (Resolved r, c');
  ICacheService.getMetadata := fun now key c =>
    let (r, c') := getMetadata now key c in (Resolved r, c');
  ICacheService.clear := fun _ c => (Resolved tt, clear c);
  ICacheService.close := fun _ c => (Resolved tt, close c);
  ICacheService.getName := fun _ => getName
|}.
End WithValue.
End InMemoryCacheService.

(** ** RedisCacheService.ts *)

(** The ioredis handle is an external collaborator: its commands are taken
    as an interface.  Each command is a promise over the state of the
    connection and of the remote server. *)
Module Redis.
Class Redis (C : Type) : Type := {
  connect : string -> outcome C;
  get : Z -> string -> C -> outcome (option string) * C;
  setex : Z -> string -> Z -> string -> C -> outcome unit * C;
  del : Z -> string -> C -> outcome Z * C;
  exists_ : Z -> string -> C -> outcome Z * C;
  ttl : Z -> string -> C -> outcome Z * C;
  flushdb : Z -> C -> outcome unit * C;
  quit : Z -> C -> outcome unit * C
}.
End Redis.
Export (hints) Redis.
Abbreviation Redis := Redis.Redis.

(** [JSON.stringify] and [JSON.parse] on cached values. *)
Module JSON.
Class JSON (V : Type) : Type := {
  stringify : V -> string;
  parse : string -> outcome V
}.
End JSON.
Export (hints) JSON.
Abbreviation JSON := JSON.JSON.

Module RedisCacheService.
Section WithClient.
Context {V C : Type} `{!JSON V} `{!Redis C}.

Record t : Type := mk { redis : C; connected : bool }.

(** [lazyConnect]: the service starts disconnected; the [connect],
    [error] and [close] events flip the flag later. *)
Definition new (redisUrl : string) : outcome t :=
  match Redis.connect redisUrl with
  | Resolved c => Resolved {| redis := c; connected := false |}
  | Rejected e => Rejected e
  end.

Definition on_connect (s : t) : t := {| redis := redis s; connected := true |}.
Definition on_error (s : t) : t := {| redis := redis s; connected := false |}.
Definition on_close (s : t) : t := {| redis := redis s; connected := false |}.

Definition with_redis (s : t) (c : C) : t :=
  {| redis := c; connected := connected s |}.

Definition get (now : Z) (key : string) (s : t) : outcome (option V) * t :=
  if negb (connected s) then (Rejected "Redis not connected", s)
  else
    let (r, c) := Redis.get now key (redis s) in
    match r with
    | Resolved None => (Resolved None, with_redis s c)
    | Resolved (Some data) =>
        if String.eqb data "" then (Resolved None, with_redis s c)
        else
          match JSON.parse data with
          | Resolved v => (Resolved (Some v), with_redis s c)
          | Rejected e => (Rejected e, with_redis s c)
          end
    | Rejected e => (Rejected e, with_redis s c)
    end.

Definition set (now : Z) (key : string) (value : V) (ttlSeconds : Z) (s : t)
    : outcome unit * t :=
  if negb (connected s) then (Rejected "Redis not connected", s)
  else
    let (r, c) := Redis.setex now key ttlSeconds (JSON.stringify value) (redis s) in
    (r, with_redis s c).

Definition del (now : Z) (key : string) (s : t) : outcome unit * t :=
  if negb (connected s) then (Rejected "Redis not connected", s)
  else
    let (r, c) := Redis.del now key (redis s) in
    match r with
    | Resolved _ => (Resolved tt, with_redis s c)
    | Rejected e => (Rejected e, with_redis s c)
    end.

Definition exists_ (now : Z) (key : string) (s : t) : outcome bool * t :=
  if negb (connected s) then (Rejected "Redis not connected", s)
  else
    let (r, c) := Redis.exists_ now key (redis s) in
    match r with
    | Resolved result => (Resolved (result =? 1), with_redis s c)
    | Rejected e => (Rejected e, with_redis s c)
    end.

Definition getMetadata (now : Z) (key : string) (s : t)
    : outcome (option CacheMetadata.t) * t :=
  if negb (connected s) then (Rejected "Redis not connected", s)
  else
    let (r, c) := Redis.ttl now key (redis s) in
    match r with
    | Resolved ttl =>
        if ttl <=? 0 then (Resolved None, with_redis s c)
        else
          let ttlMs := ttl * 1000 in
          (Resolved (Some {| CacheMetadata.key := key;
                             CacheMetadata.ttl := ttl;
                             CacheMetadata.createdAt := now - ttlMs;
                             CacheMetadata.expiresAt := now + ttlMs |}),
           with_redis s c)
    | Rejected e => (Rejected e, with_redis s c)
    end.

Definition clear (now : Z) (s : t) : outcome unit * t :=
  if negb (connected s) then (Rejected "Redis not connected", s)
  else
    let (r, c) := Redis.flushdb now (redis s) in
    (r, with_redis s c).

(** [close] swallows a failing [quit]. *)
Definition close (now : Z) (s : t) : outcome unit * t :=
  let (r, c) := Redis.quit now (redis s) in
  match r with
  | Resolved _ => (Resolved tt, {| redis := c; connected := false |})
  | Rejected _ => (Resolved tt, with_redis s c)
  end.

Definition getName : string := "RedisCache".

Definition isConnected (s : t) : bool := connected s.

(** The [retryStrategy] handed to ioredis: the delay before reconnection
    attempt [times], or [None] to stop retrying. *)
Definition retryStrategy (times : Z) : option Z :=
  if 3 <? times then None else Some (Z.min (times * 100) 2000).

#[global] Instance service : ICacheService V t := {|
  ICacheService.get := get;
  ICacheService.set := set;
  ICacheService.del := del;
  ICacheService.exists_ := exists_;
  ICacheService.getMetadata := getMetadata;
  ICacheService.clear := clear;
  ICacheService.close := close;
  ICacheService.getName := fun _ => getName
|}.
End WithClient.
Arguments t : clear implicits.
End RedisCacheService.

(** ** FallbackCacheService.ts *)

Module FallbackCacheService.
Section WithBackends.
Context {V B : Type} `{!ICacheService V B}.

(** [private caches: ICacheService[]], most preferred first. *)
Record t : Type := mk { caches : list B }.

Definition names (cs : list B) : list string := map ICacheService.getName cs.

Definition new (cs : list B) : outcome t :=
  if Nat.eqb (length cs) 0
  then Rejected "FallbackCacheService requires at least one cache implementation"
  else Resolved {| caches := cs |}.

(** What a read of the chain reports besides the backends' new states: the
    value, the index of the backend that supplied it, and the console. *)
Record read (A : Type) : Type := mk_read {
  found : option A;
  level : option nat;
  read_caches : list B;
  read_console : list console_line
}.
Arguments mk_read {A} found level read_caches read_console.
Arguments found {A} _.
Arguments level {A} _.
Arguments read_caches {A} _.
Arguments read_console {A} _.

Definition keep {A} (cache' : B) (line : list console_line) (r : read A) : read A :=
  {| found := found r; level := level r;
     read_caches := cache' :: read_caches r;
     read_console := (line ++ read_console r)%list |}.

(** What one backend's [get] settles to, and the backend afterwards. *)
Definition get_outcome (now : Z) (key : string) (cache : B) : outcome (option V) :=
  fst (ICacheService.get now key cache).

Definition after_get (now : Z) (key : string) (cache : B) : B :=
  snd (ICacheService.get now key cache).

(** A backend supplies no value: its [get] returned null or faulted. *)
Definition silent (now : Z) (key : string) (cache : B) : Prop :=
  forall value, get_outcome now key cache <> Resolved (Some value).

(** The loop [for (let i = 0; i < this.caches.length; i++)] of [get], from
    index [i] on. *)
Fixpoint get_from (now : Z) (key : string) (i : nat) (cs : list B) : read V :=
  match cs with
  | [] => mk_read None None [] []
  | cache :: rest =>
      let (r, cache') := ICacheService.get now key cache in
      match r with
      | Resolved (Some value) =>
          mk_read (Some value) (Some i) (cache' :: rest)
            (if Nat.ltb 0 i
             then [console_log ("[FallbackCache] Cache hit in "
                     +:+ ICacheService.getName cache +:+ " (fallback level "
                     +:+ pretty i +:+ ")")]
             else [])
      | Resolved None => keep cache' [] (get_from now key (S i) rest)
      | Rejected e =>
          keep cache'
            [console_warn ("[FallbackCache] " +:+ ICacheService.getName cache
               +:+ " GET failed, trying fallback: " +:+ e)]
            (get_from now key (S i) rest)
      end
  end.

Definition get_read (now : Z) (key : string) (s : t) : read V :=
  get_from now key 0%nat (caches s).

Definition get (now : Z) (key : string) (s : t) : outcome (option V) * t :=
  let r := get_read now key s in
  (Resolved (found r), {| caches := read_caches r |}).

(** What one backend's [set] settles to, and the backend afterwards. *)
Definition set_outcome (now : Z) (key : string) (value : V) (ttlSeconds : Z)
    (cache : B) : outcome unit :=
  fst (ICacheService.set now key value ttlSeconds cache).

Definition after_set (now : Z) (key : string) (value : V) (ttlSeconds : Z)
    (cache : B) : B :=
  snd (ICacheService.set now key value ttlSeconds cache).

(** What a write to the chain reports: every backend's new state, the
    [errors] array and the console. *)
Record written : Type := mk_written {
  written_caches : list B;
  errors : list (string * string);
  written_console : list console_line
}.

(** [Promise.all(this.caches.map(async cache => ...))] of [set]: one
    callback per backend, each touching its own backend only.  [errors]
    and the console are filled as the callbacks fail; they are listed here
    in the order of the backends, which is the order of failure when at
    most one backend fails or the backends settle in turn. *)
Fixpoint set_all (now : Z) (key : string) (value : V) (ttlSeconds : Z)
    (cs : list B) : written :=
  match cs with
  | [] => mk_written [] [] []
  | cache :: rest =>
      let (r, cache') := ICacheService.set now key value ttlSeconds cache in
      let w := set_all now key value ttlSeconds rest in
      match r with
      | Resolved _ =>
          mk_written (cache' :: written_caches w) (errors w) (written_console w)
      | Rejected e =>
          mk_written (cache' :: written_caches w)
            ((ICacheService.getName cache, e) :: errors w)
            (console_error ("[FallbackCache] " +:+ ICacheService.getName cache
               +:+ " SET failed:") e :: written_console w)
      end
  end.

Definition set_run (now : Z) (key : string) (value : V) (ttlSeconds : Z) (s : t)
    : outcome unit * t * list console_line :=
  let w := set_all now key value ttlSeconds (caches s) in
  let s' := {| caches := written_caches w |} in
  if Nat.eqb (length (errors w)) (length (caches s))
  then (Rejected ("All caches failed to SET key " +:+ key +:+ ": "
                  +:+ join ", " (map fst (errors w))),
        s', written_console w)
  else if Nat.ltb 0 (length (errors w))
  then (Resolved tt, s',
        (written_console w ++
         [console_warn ("[FallbackCache] Some caches failed to SET key " +:+ key
            +:+ ": " +:+ join ", " (map fst (errors w)))])%list)
  else (Resolved tt, s', written_console w).

Definition set (now : Z) (key : string) (value : V) (ttlSeconds : Z) (s : t)
    : outcome unit * t :=
  fst (set_run now key value ttlSeconds s).

(** [del], [clear] and [close] log and swallow every failure. *)
Definition each (op : B -> outcome unit * B) (s : t) : outcome unit * t :=
  (Resolved tt, {| caches := map (fun cache => snd (op cache)) (caches s) |}).

Definition del (now : Z) (key : string) (s : t) : outcome unit * t :=
  each (ICacheService.del now key) s.

Definition clear (now : Z) (s : t) : outcome unit * t :=
  each (ICacheService.clear now) s.

Definition close (now : Z) (s : t) : outcome unit * t :=
  each (ICacheService.close now) s.

Fixpoint exists_from (now : Z) (key : string) (cs : list B) : bool * list B :=
  match cs with
  | [] => (false, [])
  | cache :: rest =>
      let (r, cache') := ICacheService.exists_ now key cache in
      match r with
      | Resolved true => (true, cache' :: rest)
      | _ => let (b, rest') := exists_from now key rest in (b, cache' :: rest')
      end
  end.

Definition exists_ (now : Z) (key : string) (s : t) : outcome bool * t :=
  let (b, cs) := exists_from now key (caches s) in
  (Resolved b, {| caches := cs |}).

Fixpoint getMetadata_from (now : Z) (key : string) (cs : list B)
    : option CacheMetadata.t * list B :=
  match cs with
  | [] => (None, [])
  | cache :: rest =>
      let (r, cache') := ICacheService.getMetadata now key cache in
      match r with
      | Resolved (Some metadata) => (Some metadata, cache' :: rest)
      | _ =>
          let (m, rest') := getMetadata_from now key rest in (m, cache' :: rest')
      end
  end.

Definition getMetadata (now : Z) (key : string) (s : t)
    : outcome (option CacheMetadata.t) * t :=
  let (m, cs) := getMetadata_from now key (caches s) in
  (Resolved m, {| caches := cs |}).

Definition getName (s : t) : string :=
  "FallbackCache(" +:+ join " → " (names (caches s)) +:+ ")".

Definition getCacheNames (s : t) : list string := names (caches s).

#[global] Instance service : ICacheService V t := {|
  ICacheService.get := get;
  ICacheService.set := set;
  ICacheService.del := del;
  ICacheService.exists_ := exists_;
  ICacheService.getMetadata := getMetadata;
  ICacheService.clear := clear;
  ICacheService.close := close;
  ICacheService.getName := getName
|}.
End WithBackends.
Arguments t : clear implicits.
Arguments read : clear implicits.
Arguments mk_read {B A} found level read_caches read_console.
Arguments found {B A} _.
Arguments level {B A} _.
Arguments read_caches {B A} _.
Arguments read_console {B A} _.
Arguments written : clear implicits.
End FallbackCacheService.

(** A chain that mixes implementations holds values of a sum type, each
    dispatching to its own implementation. *)
Definition on_left {R A B} (r : R * A) : R * (A + B) := (fst r, inl (snd r)).
Definition on_right {R A B} (r : R * B) : R * (A + B) := (fst r, inr (snd r)).

#[global] Instance sum_service {V A B} `{!ICacheService V A} `{!ICacheService V B}
  : ICacheService V (A + B) := {|
  ICacheService.get := fun now key s =>
    match s with
    | inl a => on_left (ICacheService.get now key a)
    | inr b => on_right (ICacheService.get now key b)
    end;
  ICacheService.set := fun now key value ttlSeconds s =>
    match s with
    | inl a => on_left (ICacheService.set now key value ttlSeconds a)
    | inr b => on_right (ICacheService.set now key value ttlSeconds b)
    end;
  ICacheService.del := fun now key s =>
    match s with
    | inl a => on_left (ICacheService.del now key a)
    | inr b => on_right (ICacheService.del now key b)
    end;
  ICacheService.exists_ := fun now key s =>
    match s with
    | inl a => on_left (ICacheService.exists_ now key a)
    | inr b => on_right (ICacheService.exists_ now key b)
    end;
  ICacheService.getMetadata := fun now key s =>
    match s with
    | inl a => on_left (ICacheService.getMetadata now key a)
    | inr b => on_right (ICacheService.getMetadata now key b)
    end;
  ICacheService.clear := fun now s =>
    match s with
    | inl a => on_left (ICacheService.clear now a)
    | inr b => on_right (ICacheService.clear now b)
    end;
  ICacheService.close := fun now s =>
    match s with
    | inl a => on_left (ICacheService.close now a)
    | inr b => on_right (ICacheService.close now b)
    end;
  ICacheService.getName := fun s =>
    match s with
    | inl a => ICacheService.getName a
    | inr b => ICacheService.getName b
    end
|}.

(** ** factory.ts *)

Module factory.
Section WithClient.
Context {V C : Type} `{!JSON V} `{!Redis C}.

Abbreviation memory := (gmap string (CacheEntry.t V)).
Abbreviation chain := (FallbackCacheService.t (RedisCacheService.t C + memory)).

(** [process.env.REDIS_URL] is [redisUrl]; an unset or empty variable is
    falsy.  Whatever the constructors throw is caught. *)
Definition createCacheService (redisUrl : option string) : memory + chain :=
  match redisUrl with
  | None => inl InMemoryCacheService.new
  | Some url =>
      if String.eqb url "" then inl InMemoryCacheService.new
      else
        match RedisCacheService.new url with
        | Rejected _ => inl InMemoryCacheService.new
        | Resolved redisCache =>
            let memoryCache : memory := InMemoryCacheService.new in
            match FallbackCacheService.new [inl redisCache; inr memoryCache] with
            | Resolved fallback => inr fallback
            | Rejected _ => inl InMemoryCacheService.new
            end
        end
  end.

Definition createInMemoryCache : memory := InMemoryCacheService.new.

(** The shapes the module-level [cacheService] can have: the in-memory
    cache alone, or the chain of the Redis cache and the in-memory cache. *)
Definition wired (s : memory + chain) : Prop :=
  match s with
  | inl _ => True
  | inr fallback =>
      exists redisCache memoryCache,
        FallbackCacheService.caches fallback = [inl redisCache; inr memoryCache]
  end.

Definition createFallbackCache {B} (caches : list B) : outcome (FallbackCacheService.t B) :=
  FallbackCacheService.new caches.
End WithClient.
End factory.

(** ** Shared domain types (packages/shared) *)

Module Player.
Record t : Type := mk {
  id : string;
  tag : string;
  name : option string;
  startggId : option string
}.
End Player.

Inductive MatchStatus : Type := pending | in_progress | completed.

Definition MatchStatus_eqb (a b : MatchStatus) : bool :=
  match a, b with
  | pending, pending | in_progress, in_progress | completed, completed => true
  | _, _ => false
  end.

(** A match.  Its timestamps are Unix timestamps as start.gg reports them,
    in seconds (the frontend's [formatMatchTime] compares them with
    [Date.now() / 1000]).  The [score] field, which nothing below reads,
    is left out. *)
Module Match.
Record t : Type := mk {
  id : string;
  round : string;
  player1 : option Player.t;
  player2 : option Player.t;
  winner : option Player.t;
  status : MatchStatus;
  bracketName : string;
  startedAt : option Z;
  completedAt : option Z;
  updatedAt : option Z
}.
End Match.

(** At run time a bracket's [id] is the phase group's id as the upstream
    sent it. *)
Module Bracket.
Record t : Type := mk { id : Z; name : string; matches : list Match.t }.
End Bracket.

Module TournamentEvent.
Record t : Type := mk {
  id : string;
  name : string;
  slug : string;
  brackets : list Bracket.t;
  participants : list Player.t;
  currentMatches : list Match.t
}.
End TournamentEvent.

Module Tournament.
Record t : Type := mk {
  id : string;
  name : string;
  slug : string;
  url : string;
  events : list TournamentEvent.t
}.
End Tournament.

(** ** JavaScript truthiness *)

Definition truthy_number (x : option Z) : bool :=
  match x with Some n => negb (n =? 0) | None => false end.

Definition truthy_string (x : option string) : bool :=
  match x with Some s => negb (String.eqb s "") | None => false end.

(** [x || undefined] on an optional number. *)
Definition number_or_undefined (x : option Z) : option Z :=
  if truthy_number x then x else None.

(** [x || d] on an optional string. *)
Definition string_or (x : option string) (d : string) : string :=
  match x with
  | Some s => if String.eqb s "" then d else s
  | None => d
  end.

(** ** utils/ttl-calculator.ts *)

Module ttl_calculator.

Record flags : Type := mk_flags {
  hasOngoingMatches : bool;
  hasRecentlyCompletedMatches : bool;
  hasAnyPendingMatches : bool
}.

(** The body of the inner loop, on one match. *)
Definition inspect_match (now : Z) (f : flags) (m : Match.t) : flags :=
  let f :=
    if MatchStatus_eqb (Match.status m) in_progress
    then mk_flags true (hasRecentlyCompletedMatches f) (hasAnyPendingMatches f)
    else f in
  let f :=
    if MatchStatus_eqb (Match.status m) completed && truthy_number (Match.completedAt m)
    then
      let timeSinceCompletion := now - default 0 (Match.completedAt m) in
      if timeSinceCompletion <? 5 * 60 * 1000
      then mk_flags (hasOngoingMatches f) true (hasAnyPendingMatches f)
      else f
    else f in
  if MatchStatus_eqb (Match.status m) pending
  then mk_flags (hasOngoingMatches f) (hasRecentlyCompletedMatches f) true
  else f.

Definition inspect_event (now : Z) (f : flags) (event : TournamentEvent.t) : flags :=
  fold_left (inspect_match now) (TournamentEvent.currentMatches event) f.

(** [now] is [Date.now()], in milliseconds. *)
Definition calculateDynamicTTL (now : Z) (tournament : Tournament.t) : Z :=
  let f := fold_left (inspect_event now) (Tournament.events tournament)
             (mk_flags false false false) in
  if hasOngoingMatches f then 15
  else if hasRecentlyCompletedMatches f then 120
  else if hasAnyPendingMatches f then 600
  else 1800.

Record counts : Type := mk_counts {
  ongoing : Z;
  recentlyCompleted : Z;
  pendingCount : Z;
  oldCompleted : Z
}.

Definition count_match (now : Z) (c : counts) (m : Match.t) : counts :=
  if MatchStatus_eqb (Match.status m) in_progress
  then mk_counts (ongoing c + 1) (recentlyCompleted c) (pendingCount c) (oldCompleted c)
  else if MatchStatus_eqb (Match.status m) completed && truthy_number (Match.completedAt m)
  then
    let timeSinceCompletion := now - default 0 (Match.completedAt m) in
    if timeSinceCompletion <? 5 * 60 * 1000
    then mk_counts (ongoing c) (recentlyCompleted c + 1) (pendingCount c) (oldCompleted c)
    else mk_counts (ongoing c) (recentlyCompleted c) (pendingCount c) (oldCompleted c + 1)
  else if MatchStatus_eqb (Match.status m) pending
  then mk_counts (ongoing c) (recentlyCompleted c) (pendingCount c + 1) (oldCompleted c)
  else c.

Record MatchStateMetadata : Type := mk_metadata {
  metadata_hasOngoingMatches : bool;
  hasRecentMatches : bool;
  metadata_counts : counts
}.

Definition getMatchStateMetadata (now : Z) (tournament : Tournament.t)
    : MatchStateMetadata :=
  let c := fold_left
             (fun c event =>
                fold_left (count_match now) (TournamentEvent.currentMatches event) c)
             (Tournament.events tournament) (mk_counts 0 0 0 0) in
  mk_metadata (0 <? ongoing c) (0 <? recentlyCompleted c) c.

(** The three tests of the loop body, each on one match. *)
Definition is_ongoing (m : Match.t) : bool :=
  MatchStatus_eqb (Match.status m) in_progress.

Definition is_recently_completed (now : Z) (m : Match.t) : bool :=
  MatchStatus_eqb (Match.status m) completed
  && truthy_number (Match.completedAt m)
  && (now - default 0 (Match.completedAt m) <? 5 * 60 * 1000).

Definition is_pending (m : Match.t) : bool :=
  MatchStatus_eqb (Match.status m) pending.

(** The policy table as the specification words it, for comparison with
    [calculateDynamicTTL]: the first row that applies wins, and a completed
    match is recent when fewer than 300 seconds separate the clock from its
    [completedAt], a timestamp in seconds. *)
Definition all_current_matches (tournament : Tournament.t) : list Match.t :=
  flat_map TournamentEvent.currentMatches (Tournament.events tournament).

Definition completed_within_300s (now : Z) (m : Match.t) : bool :=
  match Match.completedAt m with
  | Some completedAt =>
      MatchStatus_eqb (Match.status m) completed
      && (now - completedAt * 1000 <? 300 * 1000)
  | None => false
  end.

Definition ttl_policy_table (now : Z) (tournament : Tournament.t) : Z :=
  let ms := all_current_matches tournament in
  if existsb (fun m => MatchStatus_eqb (Match.status m) in_progress) ms then 15
  else if existsb (completed_within_300s now) ms then 120
  else if existsb (fun m => MatchStatus_eqb (Match.status m) pending) ms then 600
  else 1800.

(** The fourth counter's test, and the number of matches passing a test. *)
Definition is_old_completed (now : Z) (m : Match.t) : bool :=
  MatchStatus_eqb (Match.status m) completed
  && truthy_number (Match.completedAt m)
  && negb (now - default 0 (Match.completedAt m) <? 5 * 60 * 1000).

Definition tally (p : Match.t -> bool) (ms : list Match.t) : Z :=
  Z.of_nat (length (List.filter p ms)).

End ttl_calculator.

(** ** startgg.ts: the rate-limited GraphQL client *)

Module StartGgApi.

(** The three [private readonly] constants of the class. *)
Record config : Type := mk_config {
  RATE_LIMIT_DELAY : Z;
  MAX_RETRIES : nat;
  RETRY_DELAY : Z
}.

Definition constants : config :=
  {| RATE_LIMIT_DELAY := 800; MAX_RETRIES := 3; RETRY_DELAY := 2000 |}.

(** How one [axiosInstance.post] settles: a body without [errors], a body
    with GraphQL [errors], an axios error (with the status of the response,
    if there was one), or some other exception. *)
Inductive posted (D : Type) : Type :=
| post_data (data : D)
| post_graphql_errors (messages : list string)
| post_axios_error (status : option Z) (message : string)
| post_thrown (message : string).
Arguments post_data {D} data.
Arguments post_graphql_errors {D} messages.
Arguments post_axios_error {D} status message.
Arguments post_thrown {D} message.

(** The two call sites of [this.sleep]. *)
Inductive sleep_site : Type := rate_limit_wait | backoff.

Inductive event : Type :=
| ev_sleep (site : sleep_site) (ms : Z)
| ev_post.

(** The client together with the clock it reads: [posts] counts the POSTs
    sent so far and [trace] lists sleeps and POSTs, oldest first. *)
Record client : Type := mk_client {
  clock : Z;
  lastRequestTime : Z;
  posts : nat;
  trace : list event
}.

Section Client.
Context {D : Type}.
(** The upstream: how the n-th POST of this client settles and how long it
    takes. *)
Context (upstream : nat -> posted D) (latency : nat -> Z).
Context (cfg : config).

(** [setTimeout] fires after [ms] milliseconds (at once when [ms <= 0]). *)
Definition sleep (site : sleep_site) (ms : Z) (c : client) : client :=
  {| clock := clock c + Z.max 0 ms;
     lastRequestTime := lastRequestTime c;
     posts := posts c;
     trace := (trace c ++ [ev_sleep site ms])%list |}.

Definition respect_rate_limit (c : client) : client :=
  let timeSinceLastRequest := clock c - lastRequestTime c in
  let c :=
    if timeSinceLastRequest <? RATE_LIMIT_DELAY cfg
    then sleep rate_limit_wait (RATE_LIMIT_DELAY cfg - timeSinceLastRequest) c
    else c in
  {| clock := clock c; lastRequestTime := clock c; posts := posts c; trace := trace c |}.

Definition post (c : client) : posted D * client :=
  (upstream (posts c),
   {| clock := clock c + Z.max 0 (latency (posts c));
      lastRequestTime := lastRequestTime c;
      posts := S (posts c);
      trace := (trace c ++ [ev_post])%list |}).

Definition status_text (status : option Z) : string :=
  match status with
  | Some s => if s =? 0 then "Unknown" else pretty s
  | None => "Unknown"
  end.

Definition backoffDelay (retryCount : nat) : Z :=
  RETRY_DELAY cfg * 2 ^ Z.of_nat retryCount.

Equations? executeQueryWithRetry (retryCount : nat) (c : client)
    : outcome D * client by wf (MAX_RETRIES cfg - retryCount)%nat lt :=
  executeQueryWithRetry retryCount c
    with post (respect_rate_limit c) := {
    | (post_data data, c1) := (Resolved data, c1);
    | (post_graphql_errors messages, c1) :=
        (Rejected ("GraphQL Error: " +:+ join ", " messages), c1);
    | (post_thrown message, c1) := (Rejected message, c1);
    | (post_axios_error status message, c1)
        with decide (status = Some 429 /\ (retryCount < MAX_RETRIES cfg)%nat) := {
      | left _ :=
          executeQueryWithRetry (S retryCount)
            (sleep backoff (backoffDelay retryCount) c1);
      | right _ :=
          if decide (status = Some 401)
          then (Rejected "Authentication Error: Invalid or expired start.gg API token", c1)
          else if 500 <=? default 0 status
          then (Rejected ("Server Error: start.gg API is temporarily unavailable ("
                          +:+ status_text status +:+ ")"), c1)
          else (Rejected ("API Error: " +:+ message +:+ " (Status: "
                          +:+ status_text status +:+ ")"), c1) } }.
Proof. lia. Qed.

(** [query] queues the request; [processQueue] runs the queued requests one
    after the other, so a request runs [executeQueryWithRetry] from
    [retryCount = 0] on the state the previous one left. *)
Definition query (c : client) : outcome D * client :=
  executeQueryWithRetry 0 c.

End Client.
(** Reading a trace. *)
Definition is_post (e : event) : bool :=
  match e with ev_post => true | _ => false end.

Definition is_rate_limit_wait (e : event) : bool :=
  match e with ev_sleep rate_limit_wait _ => true | _ => false end.

Definition backoffs (tr : list event) : list Z :=
  flat_map (fun e => match e with ev_sleep backoff ms => [ms] | _ => [] end) tr.

Definition without_rate_limit_waits (tr : list event) : list event :=
  List.filter (fun e => negb (is_rate_limit_wait e)) tr.

(** A POST followed by the back-off before the next one, [remaining] times
    over from [retryCount] on, and a last POST. *)
Fixpoint posts_and_backoffs (cfg : config) (remaining retryCount : nat) : list event :=
  match remaining with
  | O => [ev_post]
  | S remaining =>
      ev_post :: ev_sleep backoff (backoffDelay cfg retryCount)
      :: posts_and_backoffs cfg remaining (S retryCount)
  end.

(** *** Upstream JSON *)

Record rawParticipant : Type := mk_rawParticipant {
  participant_id : option Z;
  gamerTag : option string;
  user_name : option string
}.

Record rawEntrant : Type := mk_rawEntrant {
  entrant_id : option Z;
  entrant_name : option string;
  entrant_participants : option (list rawParticipant)
}.

Record rawSlot : Type := mk_rawSlot { entrant : option rawEntrant }.

(** A set node; [games] and the slots' [standing] only feed the score. *)
Record rawSet : Type := mk_rawSet {
  set_id : option Z;
  fullRoundText : option string;
  set_round : option Z;
  state : option Z;
  set_startedAt : option Z;
  set_completedAt : option Z;
  set_updatedAt : option Z;
  slots : option (list rawSlot);
  winnerId : option Z
}.

Record rawPhaseGroup : Type := mk_rawPhaseGroup {
  phaseGroup_id : Z;
  displayIdentifier : option string;
  phase_name : option string
}.

(** An entry of a JSON array may be [null]. *)
Record rawEventDetails : Type := mk_rawEventDetails {
  phaseGroups : option (list (option rawPhaseGroup))
}.

(** What the phase group query resolves with, [response.data.data]:
    [data_events] is its [tournament?.events]. *)
Record phaseGroupData : Type := mk_phaseGroupData {
  data_events : option (list (option rawEventDetails))
}.

Record rawEvent : Type := mk_rawEvent {
  event_id : option Z;
  event_name : option string;
  event_slug : option string;
  entrants_nodes : option (list (option rawEntrant))
}.

Record rawTournament : Type := mk_rawTournament {
  tournament_id : option Z;
  tournament_name : option string;
  tournament_slug : option string;
  tournament_url : option string;
  tournament_events : option (list (option rawEvent))
}.

(** *** Transformations *)

Section Transform.
(** [Math.random().toString(36).substr(2, 9)], the suffix of synthesized
    ids.  Every draw is taken to give this one string.  The code draws
    afresh for each player without an entrant id and each set without an
    id, so that two such placeholders differ (but for a collision of the
    draws) where the model gives them one id, and [remove_duplicates] keeps
    in the code the id-less sets that it merges here.  No statement below
    is about how many placeholders there are, or about their ids being
    equal. *)
Context (random_suffix : string).

Definition transformPlayerData (entrant : option rawEntrant) : Player.t :=
  match entrant with
  | Some e =>
      if truthy_number (entrant_id e)
      then
        let participant := head (default [] (entrant_participants e)) in
        {| Player.id := pretty (default 0 (entrant_id e));
           Player.tag :=
             string_or (participant ≫= gamerTag)
               (string_or (entrant_name e) "Unknown Player");
           Player.name := participant ≫= user_name;
           Player.startggId := pretty <$> (participant ≫= participant_id) |}
      else
        {| Player.id := "unknown-" +:+ random_suffix;
           Player.tag := "Unknown Player";
           Player.name := None;
           Player.startggId := None |}
  | None =>
      {| Player.id := "unknown-" +:+ random_suffix;
         Player.tag := "Unknown Player";
         Player.name := None;
         Player.startggId := None |}
  end.

Definition getMatchStatus (state : option Z) : MatchStatus :=
  match state with
  | Some 1 => pending
  | Some 2 => in_progress
  | Some 3 => completed
  | _ => pending
  end.

Definition getBracketName (phaseGroup : rawPhaseGroup) : string :=
  let phaseName := string_or (phase_name phaseGroup) "" in
  let identifier :=
    string_or (displayIdentifier phaseGroup)
      ("Pool " +:+ pretty (phaseGroup_id phaseGroup)) in
  if String.eqb phaseName "" then identifier
  else phaseName +:+ " - " +:+ identifier.

(** [playerData?.id === set.winnerId], for a truthy [winnerId]. *)
Definition is_winner (playerData : option rawEntrant) (winnerId : option Z) : bool :=
  match playerData ≫= entrant_id, winnerId with
  | Some a, Some b => a =? b
  | _, _ => false
  end.

Definition transformMatchData (set : rawSet) (bracketName : string) : Match.t :=
  if negb (truthy_number (set_id set))
  then
    {| Match.id := "invalid-" +:+ random_suffix;
       Match.round := "Unknown Round";
       Match.player1 := None;
       Match.player2 := None;
       Match.winner := None;
       Match.status := pending;
       Match.bracketName := string_or (Some bracketName) "Unknown Bracket";
       Match.startedAt := None;
       Match.completedAt := None;
       Match.updatedAt := None |}
  else
    let slots := default [] (slots set) in
    let player1Data := (slots !! 0%nat) ≫= entrant in
    let player2Data := (slots !! 1%nat) ≫= entrant in
    let winner :=
      if truthy_number (winnerId set)
      then
        if is_winner player1Data (winnerId set)
        then Some (transformPlayerData player1Data)
        else if is_winner player2Data (winnerId set)
        then Some (transformPlayerData player2Data)
        else None
      else None in
    {| Match.id := pretty (default 0 (set_id set));
       Match.round :=
         string_or (fullRoundText set)
           ("Round " +:+
            (if truthy_number (set_round set)
             then pretty (default 0 (set_round set)) else "Unknown"));
       Match.player1 :=
         match player1Data with
         | Some _ => Some (transformPlayerData player1Data)
         | None => None
         end;
       Match.player2 :=
         match player2Data with
         | Some _ => Some (transformPlayerData player2Data)
         | None => None
         end;
       Match.winner := winner;
       Match.status := getMatchStatus (state set);
       Match.bracketName := string_or (Some bracketName) "Unknown Bracket";
       Match.startedAt := number_or_undefined (set_startedAt set);
       Match.completedAt := number_or_undefined (set_completedAt set);
       Match.updatedAt := number_or_undefined (set_updatedAt set) |}.

Definition has_id (entrant : option rawEntrant) : bool :=
  match entrant with
  | Some e => truthy_number (entrant_id e)
  | None => false
  end.

Definition transformBasicEventData (rawEvent : option rawEvent) : TournamentEvent.t :=
  match rawEvent with
  | Some ev =>
      if truthy_number (event_id ev)
      then
        {| TournamentEvent.id := pretty (default 0 (event_id ev));
           TournamentEvent.name := string_or (event_name ev) "Unknown Event";
           TournamentEvent.slug := string_or (event_slug ev) "unknown-event";
           TournamentEvent.brackets := [];
           TournamentEvent.participants :=
             match entrants_nodes ev with
             | Some nodes => map transformPlayerData (List.filter has_id nodes)
             | None => []
             end;
           TournamentEvent.currentMatches := [] |}
      else
        {| TournamentEvent.id := "unknown-event-" +:+ random_suffix;
           TournamentEvent.name := "Unknown Event";
           TournamentEvent.slug := "unknown-event";
           TournamentEvent.brackets := [];
           TournamentEvent.participants := [];
           TournamentEvent.currentMatches := [] |}
  | None =>
      {| TournamentEvent.id := "unknown-event-" +:+ random_suffix;
         TournamentEvent.name := "Unknown Event";
         TournamentEvent.slug := "unknown-event";
         TournamentEvent.brackets := [];
         TournamentEvent.participants := [];
         TournamentEvent.currentMatches := [] |}
  end.

Definition event_has_id (event : option rawEvent) : bool :=
  match event with
  | Some ev => truthy_number (event_id ev)
  | None => false
  end.

Definition transformBasicTournamentData (rawTournament : rawTournament) : Tournament.t :=
  {| Tournament.id :=
       string_or (pretty <$> tournament_id rawTournament) "unknown";
     Tournament.name := string_or (tournament_name rawTournament) "Unknown Tournament";
     Tournament.slug := string_or (tournament_slug rawTournament) "unknown-tournament";
     Tournament.url := string_or (tournament_url rawTournament) "";
     Tournament.events :=
       match tournament_events rawTournament with
       | Some events => map transformBasicEventData (List.filter event_has_id events)
       | None => []
       end |}.

End Transform.
(** *** Loading a tournament *)

(** A JavaScript [Map] keeps insertion order, and [set] on a present key
    replaces the value where it stands. *)
Fixpoint map_set {A} (k : string) (v : A) (m : list (string * A)) : list (string * A) :=
  match m with
  | [] => [(k, v)]
  | (k', v') :: rest =>
      if String.eqb k' k then (k, v) :: rest else (k', v') :: map_set k v rest
  end.

Definition map_values {A} (m : list (string * A)) : list A := map snd m.

(** [Array.prototype.findIndex]; [None] stands for -1. *)
Fixpoint findIndex {A} (p : A -> bool) (l : list A) : option nat :=
  match l with
  | [] => None
  | x :: rest => if p x then Some 0%nat else S <$> findIndex p rest
  end.

(** The double quote character. *)
Definition dquote : string :=
  String (Ascii.Ascii false true false false false true false false) EmptyString.

Record page_state : Type := mk_page_state {
  page : Z;
  hasMorePages : bool;
  bracketMatches : list Match.t;
  allMatches : list Match.t;
  bracketPlayers : list (string * Player.t);
  allPlayers : list (string * Player.t);
  requested : list Z
}.

(** The loop variables on entering the page loop of a phase group. *)
Definition first_page (allMatches0 : list Match.t)
    (allPlayers0 : list (string * Player.t)) : page_state :=
  {| page := 1; hasMorePages := true;
     bracketMatches := []; allMatches := allMatches0;
     bracketPlayers := []; allPlayers := allPlayers0;
     requested := [] |}.

(** The upstream's pagination of a phase group holding [sets], thirty to a
    page ([perPage: 30]), pages counted from 1. *)
Definition serve_page (sets : list rawSet) (page : Z) : list rawSet :=
  take 30 (drop (Z.to_nat (30 * (page - 1))) sets).

(** The page numbers 1 to [count]. *)
Definition pages (count : nat) : list Z := map Z.of_nat (seq 1 count).

Definition is_current (m : Match.t) : bool :=
  MatchStatus_eqb (Match.status m) pending
  || MatchStatus_eqb (Match.status m) in_progress.

(** A participants list free of placeholder players, and one with at most
    one entry per player id. *)
Definition placeholder_free (players : list Player.t) : Prop :=
  Forall (fun p => Player.tag p <> "Unknown Player") players.

Definition distinct_ids (players : list Player.t) : Prop :=
  NoDup (map Player.id players).

(** The players a page loop has collected: keyed by their own ids, each key
    once, none of them a placeholder. *)
Definition collected (players : list (string * Player.t)) : Prop :=
  NoDup (map fst players)
  /\ Forall (fun kv : string * Player.t =>
               kv.1 = Player.id kv.2 /\ Player.tag kv.2 <> "Unknown Player")
       players.

(** *** Slugs from URLs *)

(** [[^\/]+] is greedy: the longest prefix without a slash. *)
Fixpoint until_slash (s : string) : string :=
  match s with
  | EmptyString => EmptyString
  | String c rest =>
      if Ascii.eqb c "/"%char then EmptyString else String c (until_slash rest)
  end.

(** What follows [prefix] in [s], when [s] starts with it. *)
Fixpoint strip_prefix (prefix s : string) : option string :=
  match prefix, s with
  | EmptyString, _ => Some s
  | String a prefix, String b s => if Ascii.eqb a b then strip_prefix prefix s else None
  | String _ _, EmptyString => None
  end.

(** The first capture group of [/\/tournament\/([^\/]+)/] at the start of
    [s], and at the leftmost position of [url] where the expression
    matches. *)
Definition match_here (s : string) : option string :=
  match strip_prefix "/tournament/" s with
  | Some rest =>
      match until_slash rest with
      | EmptyString => None
      | slug => Some slug
      end
  | None => None
  end.

Fixpoint match_tournament (url : string) : option string :=
  match match_here url with
  | Some slug => Some slug
  | None =>
      match url with
      | EmptyString => None
      | String _ rest => match_tournament rest
      end
  end.

Definition extractSlugFromUrl (url : string) : outcome string :=
  match match_tournament url with
  | Some slug => Resolved slug
  | None => Rejected "Invalid start.gg URL format"
  end.

Definition slash_free (s : string) : Prop :=
  Forall (fun c => c <> "/"%char) (list_ascii_of_string s).

(** [events[0]] of the phase group query's answer, when the query resolved
    with data that lists an event. *)
Definition first_event (answer : outcome (option phaseGroupData))
    : option (option rawEventDetails) :=
  match answer with
  | Resolved (Some phaseGroupData) => data_events phaseGroupData ≫= head
  | _ => None
  end.

(** What loading the phase groups keeps of an event: its identity, and
    the participants it had, in their places. *)
Definition same_event (event event' : TournamentEvent.t) : Prop :=
  TournamentEvent.id event' = TournamentEvent.id event
  /\ TournamentEvent.name event' = TournamentEvent.name event
  /\ TournamentEvent.slug event' = TournamentEvent.slug event
  /\ exists more,
       TournamentEvent.participants event'
       = (TournamentEvent.participants event ++ more)%list.

(** The current matches of an event are pending or in progress, each id
    once. *)
Definition current_only (event : TournamentEvent.t) : Prop :=
  Forall (fun m => is_current m = true) (TournamentEvent.currentMatches event)
  /\ NoDup (map Match.id (TournamentEvent.currentMatches event)).

(** The matches a page loop has gathered after the first [n] of a phase
    group's [sets]: their transformations, as the bracket's matches and
    behind what [allMatches] held on entry. *)
Definition gathered (random_suffix : string) (phaseGroup : rawPhaseGroup)
    (sets : list rawSet) (n : nat) (allMatches0 : list Match.t) (st : page_state)
    : Prop :=
  let loaded :=
    map (fun set => transformMatchData random_suffix set (getBracketName phaseGroup))
      (take n sets) in
  bracketMatches st = loaded /\ allMatches st = (allMatches0 ++ loaded)%list.

(** The id and the name of each bracket, in order. *)
Definition bracket_labels (brackets : list Bracket.t) : list (Z * string) :=
  map (fun b => (Bracket.id b, Bracket.name b)) brackets.

Section Loading.
Context (random_suffix : string).
(** What [this.query] settles to for each of the three queries: the
    [tournament] of the tournament query; the data of the phase group
    query, [None] when the response body carries none
    ([response.data.data] is undefined); [phaseGroup?.sets?.nodes] of the
    set query for a phase group and a page. *)
Context (tournamentQuery : string -> outcome (option rawTournament)).
Context (phaseGroupsQuery : string -> string -> outcome (option phaseGroupData)).
Context (phaseGroupSetsQuery : Z -> Z -> outcome (option (list rawSet))).

(** Never throws: a failed query is logged and yields no sets. *)
Definition loadPhaseGroupSets (tournamentSlug : string) (phaseGroupId : Z) (page : Z)
    : list rawSet :=
  match phaseGroupSetsQuery phaseGroupId page with
  | Resolved (Some nodes) => nodes
  | Resolved None => []
  | Rejected _ => []
  end.

Definition collect_player (players : list (string * Player.t)) (slot : rawSlot)
    : list (string * Player.t) :=
  match entrant slot with
  | Some e =>
      if truthy_number (entrant_id e)
      then
        let player := transformPlayerData random_suffix (Some e) in
        if negb (String.eqb (Player.id player) "")
           && negb (String.eqb (Player.tag player) "Unknown Player")
        then map_set (Player.id player) player players
        else players
      else players
  | None => players
  end.

Definition collect_players (setsData : list rawSet) (players : list (string * Player.t))
    : list (string * Player.t) :=
  fold_left
    (fun players set => fold_left collect_player (default [] (slots set)) players)
    setsData players.

(** One turn of the loop [while (hasMorePages && page <= 10)].  The [try]
    body throws nothing, [loadPhaseGroupSets] having caught the failures.
    [requested] records the pages asked for. *)
Definition page_turn (tournamentSlug : string) (phaseGroup : rawPhaseGroup)
    (st : page_state) : page_state :=
  let setsData := loadPhaseGroupSets tournamentSlug (phaseGroup_id phaseGroup) (page st) in
  let requested := (requested st ++ [page st])%list in
  if Nat.ltb 0 (length setsData)
  then
    let bracketName := getBracketName phaseGroup in
    let matches := map (fun set => transformMatchData random_suffix set bracketName) setsData in
    let lastPage := Nat.ltb (length setsData) 30 in
    {| page := if lastPage then page st else page st + 1;
       hasMorePages := if lastPage then false else hasMorePages st;
       bracketMatches := (bracketMatches st ++ matches)%list;
       allMatches := (allMatches st ++ matches)%list;
       bracketPlayers := collect_players setsData (bracketPlayers st);
       allPlayers := collect_players setsData (allPlayers st);
       requested := requested |}
  else
    {| page := page st;
       hasMorePages := false;
       bracketMatches := bracketMatches st;
       allMatches := allMatches st;
       bracketPlayers := bracketPlayers st;
       allPlayers := allPlayers st;
       requested := requested |}.

Definition turns_left (st : page_state) : nat :=
  if hasMorePages st then Z.to_nat (11 - page st) else 0%nat.

Equations? page_loop (tournamentSlug : string) (phaseGroup : rawPhaseGroup)
    (st : page_state) : page_state by wf (turns_left st) lt :=
  page_loop tournamentSlug phaseGroup st
    with decide (hasMorePages st = true /\ page st <= 10) := {
    | left _ := page_loop tournamentSlug phaseGroup (page_turn tournamentSlug phaseGroup st);
    | right _ := st }.
Proof.
  match goal with Hmore : hasMorePages _ = true |- _ =>
    unfold turns_left, page_turn; rewrite Hmore;
    destruct (Nat.ltb 0 _); simpl;
      [destruct (Nat.ltb _ 30); simpl; rewrite ?Hmore|]; lia
  end.
Qed.

Definition set_bracket_matches (brackets : list Bracket.t) (phaseGroupId : Z)
    (matches : list Match.t) : list Bracket.t :=
  match findIndex (fun b => Bracket.id b =? phaseGroupId) brackets with
  | Some bracketIndex =>
      alter (fun b => {| Bracket.id := Bracket.id b;
                         Bracket.name := Bracket.name b;
                         Bracket.matches := matches |}) bracketIndex brackets
  | None => brackets
  end.

Definition has_player_id (ids : list string) (p : Player.t) : bool :=
  existsb (String.eqb (Player.id p)) ids.

(** The body of the loop over the phase groups: the event and the two
    accumulators [allMatches] and [allPlayers]. *)
Definition load_phase_group (tournamentSlug : string)
    (acc : TournamentEvent.t * list Match.t * list (string * Player.t))
    (phaseGroup : rawPhaseGroup)
    : TournamentEvent.t * list Match.t * list (string * Player.t) :=
  let '(event, allMatches0, allPlayers0) := acc in
  let st := page_loop tournamentSlug phaseGroup (first_page allMatches0 allPlayers0) in
  let existingPlayerIds := map Player.id (TournamentEvent.participants event) in
  let newPlayers :=
    List.filter (fun p => negb (has_player_id existingPlayerIds p))
      (map_values (bracketPlayers st)) in
  let newCurrentMatches := List.filter is_current (bracketMatches st) in
  ({| TournamentEvent.id := TournamentEvent.id event;
      TournamentEvent.name := TournamentEvent.name event;
      TournamentEvent.slug := TournamentEvent.slug event;
      TournamentEvent.brackets :=
        set_bracket_matches (TournamentEvent.brackets event)
          (phaseGroup_id phaseGroup) (bracketMatches st);
      TournamentEvent.participants :=
        (TournamentEvent.participants event ++ newPlayers)%list;
      TournamentEvent.currentMatches :=
        (TournamentEvent.currentMatches event ++ newCurrentMatches)%list |},
   allMatches st, allPlayers st).

(** [self.filter((match, index, self) => index === self.findIndex(m => m.id === match.id))]. *)
Definition remove_duplicates (self : list Match.t) : list Match.t :=
  map snd
    (List.filter
       (fun im : nat * Match.t =>
          bool_decide
            (findIndex (fun m => String.eqb (Match.id m) (Match.id im.2)) self = Some im.1))
       (imap pair self)).

(** The event is updated in place; every exit that throws does so before
    the first update, so a rejection leaves the event as it was.  Besides a
    rejected query, three reads throw a [TypeError]:
    [phaseGroupData.tournament] when the query resolved without data,
    [eventDetails.phaseGroups] when the first event is [null], and
    [phaseGroup.id], inside [map], when a phase group is [null]. *)
Definition loadEventDetails (event : TournamentEvent.t) (tournamentSlug : string)
    : outcome TournamentEvent.t :=
  match phaseGroupsQuery tournamentSlug (TournamentEvent.id event) with
  | Rejected e => Rejected e
  | Resolved None =>
      Rejected "Cannot read properties of undefined (reading 'tournament')"
  | Resolved (Some phaseGroupData) =>
  match data_events phaseGroupData with
  | None => Resolved event
  | Some [] => Resolved event
  | Some (None :: _) =>
      Rejected "Cannot read properties of null (reading 'phaseGroups')"
  | Some (Some eventDetails :: _) =>
      match phaseGroups eventDetails with
      | None => Resolved event
      | Some listed =>
      match mapM id listed with
      | None => Rejected "Cannot read properties of null (reading 'id')"
      | Some groups =>
          let event :=
            {| TournamentEvent.id := TournamentEvent.id event;
               TournamentEvent.name := TournamentEvent.name event;
               TournamentEvent.slug := TournamentEvent.slug event;
               TournamentEvent.brackets :=
                 map (fun phaseGroup =>
                        {| Bracket.id := phaseGroup_id phaseGroup;
                           Bracket.name := getBracketName phaseGroup;
                           Bracket.matches := [] |}) groups;
               TournamentEvent.participants := TournamentEvent.participants event;
               TournamentEvent.currentMatches := [] |} in
          let '(event, _, _) :=
            fold_left (load_phase_group tournamentSlug) groups (event, [], []) in
          Resolved
            {| TournamentEvent.id := TournamentEvent.id event;
               TournamentEvent.name := TournamentEvent.name event;
               TournamentEvent.slug := TournamentEvent.slug event;
               TournamentEvent.brackets := TournamentEvent.brackets event;
               TournamentEvent.participants := TournamentEvent.participants event;
               TournamentEvent.currentMatches :=
                 remove_duplicates (TournamentEvent.currentMatches event) |}
      end
      end
  end
  end.

Definition not_found_message (slug : string) : string :=
  "Tournament with slug " +:+ dquote +:+ slug +:+ dquote
  +:+ " not found or tournament data is invalid".

(** Called by the router without callbacks.  A failure loading one event
    is logged and the loop goes on to the next event. *)
Definition getTournamentBySlug (slug : string) : outcome Tournament.t :=
  match tournamentQuery slug with
  | Rejected e => Rejected e
  | Resolved None => Rejected (not_found_message slug)
  | Resolved (Some rawTournament) =>
      let tournament := transformBasicTournamentData random_suffix rawTournament in
      Resolved
        {| Tournament.id := Tournament.id tournament;
           Tournament.name := Tournament.name tournament;
           Tournament.slug := Tournament.slug tournament;
           Tournament.url := Tournament.url tournament;
           Tournament.events :=
             map (fun event =>
                    match loadEventDetails event slug with
                    | Resolved event' => event'
                    | Rejected _ => event
                    end) (Tournament.events tournament) |}
  end.

(** An [async] function: the [throw] of [extractSlugFromUrl] rejects the
    promise. *)
Definition getTournamentByUrl (url : string) : outcome Tournament.t :=
  match extractSlugFromUrl url with
  | Resolved slug => getTournamentBySlug slug
  | Rejected e => Rejected e
  end.

End Loading.
End StartGgApi.

(** ** routes/tournament.ts *)

Module tournamentRouter.

Record TournamentResponse : Type := mk_response {
  data : Tournament.t;
  cached : bool;
  cachedAt : option Z;
  ttl : option Z;
  matchState : ttl_calculator.MatchStateMetadata
}.

Inductive body : Type :=
| tournament_body (response : TournamentResponse)
| error_body (error : string) (source : string)
| cache_status_body (cached : bool) (metadata : option CacheMetadata.t).

(** What [res] sends: [res.json(b)] is status 200. *)
Record reply : Type := mk_reply { status : Z; sent : body }.

Definition json (b : body) : reply := {| status := 200; sent := b |}.
Definition status_json (code : Z) (b : body) : reply := {| status := code; sent := b |}.

(** *** Handlers as programs

    A handler is a sequence of synchronous segments separated by [await]s.
    [Await a k] awaits the promise of [a]; when it settles, at clock reading
    [now], the handler goes on with [k now] on the settled outcome.  Calling
    [startGgApi.getTournamentBySlug] and awaiting its promise are two
    actions, the fetch being in flight between them. *)
Inductive action : Type -> Type :=
| cache_get (key : string) : action (option Tournament.t)
| cache_getMetadata (key : string) : action (option CacheMetadata.t)
| cache_set (key : string) (value : Tournament.t) (ttlSeconds : Z) : action unit
| cache_del (key : string) : action unit
| cache_exists (key : string) : action bool
| startgg_call (slug : string) : action unit
| startgg_settle (slug : string) : action Tournament.t.

Inductive prog (R : Type) : Type :=
| Ret (r : R)
| Throw (message : string)
| Await {A : Type} (a : action A) (k : Z -> outcome A -> prog R).
Arguments Ret {R} r.
Arguments Throw {R} message.
Arguments Await {R A} a k.

(** [await a], going on with [k] when resolved and throwing when rejected. *)
Definition await {R A} (a : action A) (k : Z -> A -> prog R) : prog R :=
  Await a (fun now r =>
             match r with
             | Resolved x => k now x
             | Rejected e => Throw e
             end).

(** [try { p } catch (error) { h error.message }]. *)
Fixpoint try_catch {R} (p : prog R) (h : string -> prog R) : prog R :=
  match p with
  | Ret r => Ret r
  | Throw e => h e
  | Await a k => Await a (fun now r => try_catch (k now r) h)
  end.

Definition getTournamentBySlug {R} (slug : string) (k : Z -> Tournament.t -> prog R)
    : prog R :=
  Await (startgg_call slug) (fun _ _ => await (startgg_settle slug) k).

Definition cacheKey (slug : string) : string := "tournament:" +:+ slug.

(** The part of [GET /:slug] after the cache was missed or bypassed. *)
Definition fetch_and_cache (slug : string) : prog reply :=
  getTournamentBySlug slug (fun now tournament =>
    let ttl := ttl_calculator.calculateDynamicTTL now tournament in
    let matchMetadata := ttl_calculator.getMatchStateMetadata now tournament in
    await (cache_set (cacheKey slug) tournament ttl) (fun now _ =>
      Ret (json (tournament_body
                   {| data := tournament;
                      cached := false;
                      cachedAt := Some now;
                      ttl := Some ttl;
                      matchState := matchMetadata |})))).

(** [GET /api/tournament/:slug]; [refresh] is [req.query.refresh]. *)
Definition get_tournament (slug : string) (refresh : option string) : prog reply :=
  try_catch
    (let bustCache := bool_decide (refresh = Some "true") in
     if negb bustCache
     then
       await (cache_get (cacheKey slug)) (fun _ cached =>
         match cached with
         | Some cached =>
             await (cache_getMetadata (cacheKey slug)) (fun now metadata =>
               Ret (json (tournament_body
                            {| data := cached;
                               cached := true;
                               cachedAt := CacheMetadata.createdAt <$> metadata;
                               ttl := CacheMetadata.ttl <$> metadata;
                               matchState :=
                                 ttl_calculator.getMatchStateMetadata now cached |})))
         | None => fetch_and_cache slug
         end)
     else fetch_and_cache slug)
    (fun message => Ret (status_json 500 (error_body message "backend"))).

(** [POST /api/tournament/:slug/refresh]. *)
Definition post_refresh (slug : string) : prog reply :=
  try_catch
    (await (cache_del (cacheKey slug)) (fun _ _ => fetch_and_cache slug))
    (fun message => Ret (status_json 500 (error_body message "backend"))).

(** [GET /api/tournament/:slug/cache-status]. *)
Definition get_cache_status (slug : string) : prog reply :=
  try_catch
    (await (cache_exists (cacheKey slug)) (fun _ exists_ =>
       if exists_ : bool
       then await (cache_getMetadata (cacheKey slug)) (fun _ metadata =>
              Ret (json (cache_status_body exists_ metadata)))
       else Ret (json (cache_status_body exists_ None))))
    (fun _ => Ret (status_json 500 (error_body "Failed to check cache status" "backend"))).

(** *** Running handlers *)

(** What the process did, oldest first: each entry names the request that
    acted. *)
Inductive did : Type :=
| did_get (key : string)
| did_getMetadata (key : string)
| did_set (key : string) (value : Tournament.t) (ttlSeconds : Z)
| did_del (key : string)
| did_exists (key : string)
| did_call (slug : string)
| did_settle (slug : string).

Definition is_call (entry : nat * did) : bool :=
  match entry.2 with did_call _ => true | _ => false end.

Definition is_call_of (request : nat) (entry : nat * did) : bool :=
  Nat.eqb entry.1 request && is_call entry.

Definition is_set (entry : nat * did) : bool :=
  match entry.2 with did_set _ _ _ => true | _ => false end.

(** The entry reads the cache: [get], [getMetadata] or [exists]. *)
Definition is_read (entry : nat * did) : bool :=
  match entry.2 with
  | did_get _ | did_getMetadata _ | did_exists _ => true
  | _ => false
  end.

Definition is_del (entry : nat * did) : bool :=
  match entry.2 with did_del _ => true | _ => false end.

Definition describe {A} (a : action A) : did :=
  match a with
  | cache_get key => did_get key
  | cache_getMetadata key => did_getMetadata key
  | cache_set key value ttlSeconds => did_set key value ttlSeconds
  | cache_del key => did_del key
  | cache_exists key => did_exists key
  | startgg_call slug => did_call slug
  | startgg_settle slug => did_settle slug
  end.







Section Process.
Context {C : Type} `{!ICacheService Tournament.t C}.
(** What [startGgApi.getTournamentBySlug] settles to. *)
Context (startgg : string -> outcome Tournament.t).

(** The module-level [cacheService], the upstream fetches in flight, and
    the journal. *)
Record world : Type := mk_world {
  cacheService : C;
  in_flight : list string;
  journal : list (nat * did)
}.

Fixpoint remove_first (slug : string) (l : list string) : list string :=
  match l with
  | [] => []
  | x :: rest => if String.eqb x slug then rest else x :: remove_first slug rest
  end.

Definition on_cache {A} (r : outcome A * C) (w : world) : outcome A * world :=
  (fst r, {| cacheService := snd r; in_flight := in_flight w; journal := journal w |}).

Definition effect {A} (now : Z) (a : action A) (w : world) : outcome A * world :=
  match a in action A return outcome A * world with
  | cache_get key => on_cache (ICacheService.get now key (cacheService w)) w
  | cache_getMetadata key => on_cache (ICacheService.getMetadata now key (cacheService w)) w
  | cache_set key value ttlSeconds =>
      on_cache (ICacheService.set now key value ttlSeconds (cacheService w)) w
  | cache_del key => on_cache (ICacheService.del now key (cacheService w)) w
  | cache_exists key => on_cache (ICacheService.exists_ now key (cacheService w)) w
  | startgg_call slug =>
      (Resolved tt,
       {| cacheService := cacheService w;
          in_flight := (in_flight w ++ [slug])%list;
          journal := journal w |})
  | startgg_settle slug =>
      (startgg slug,
       {| cacheService := cacheService w;
          in_flight := remove_first slug (in_flight w);
          journal := journal w |})
  end.

Definition perform {A} (request : nat) (now : Z) (a : action A) (w : world)
    : outcome A * world :=
  let (r, w) := effect now a w in
  (r, {| cacheService := cacheService w;
         in_flight := in_flight w;
         journal := (journal w ++ [(request, describe a)])%list |}).

(** One request on its own: the n-th await settles at [clock n]. *)
Fixpoint run {R} (clock : nat -> Z) (n : nat) (p : prog R) (w : world)
    : outcome R * world :=
  match p with
  | Ret r => (Resolved r, w)
  | Throw e => (Rejected e, w)
  | Await a k =>
      let (r, w) := perform 0%nat (clock n) a w in
      run clock (S n) (k (clock n) r) w
  end.

(** Several requests at once.  The event loop runs one synchronous segment
    at a time: a tick picks a request and a clock reading, settles the
    promise that request awaits and runs the request up to its next
    [await]. *)
Record process : Type := mk_process {
  state : world;
  requests : list (prog reply)
}.

Definition tick (p : process) (t : nat * Z) : process :=
  match requests p !! t.1 with
  | Some (Await a k) =>
      let (r, w) := perform t.1 t.2 a (state p) in
      {| state := w; requests := <[t.1 := k t.2 r]> (requests p) |}
  | _ => p
  end.

Definition run_all (schedule : list (nat * Z)) (p : process) : process :=
  fold_left tick schedule p.

Definition fetches (w : world) : list (nat * did) := List.filter is_call (journal w).

Definition fetches_of (request : nat) (w : world) : list (nat * did) :=
  List.filter (is_call_of request) (journal w).







(** [n] clients reading the same slug at once, without [refresh]. *)
Definition concurrent_reads (slug : string) (n : nat) (w : world) : process :=
  {| state := w; requests := replicate n (get_tournament slug None) |}.

End Process.
Arguments world : clear implicits.
Arguments process : clear implicits.
End tournamentRouter.

(** ** Fixtures

    Stand-ins used to run the definitions on concrete inputs. *)

Module fixtures.

(** A Redis handle whose server cannot be reached: every command is
    rejected. *)
Definition unreachable : Redis unit := {|
  Redis.connect := fun _ => Resolved tt;
  Redis.get := fun _ _ c => (Rejected "Connection is closed.", c);
  Redis.setex := fun _ _ _ _ c => (Rejected "Connection is closed.", c);
  Redis.del := fun _ _ c => (Rejected "Connection is closed.", c);
  Redis.exists_ := fun _ _ c => (Rejected "Connection is closed.", c);
  Redis.ttl := fun _ _ c => (Rejected "Connection is closed.", c);
  Redis.flushdb := fun _ c => (Rejected "Connection is closed.", c);
  Redis.quit := fun _ c => (Rejected "Connection is closed.", c)
|}.

(** A Redis server held in the handle itself: values with the instant, in
    milliseconds, at which they expire. *)
Definition local_redis : Redis (gmap string (string * Z)) := {|
  Redis.connect := fun _ => Resolved ∅;
  Redis.get := fun now key c =>
    (Resolved (match c !! key with
               | Some (data, expiry) => if expiry <=? now then None else Some data
               | None => None
               end), c);
  Redis.setex := fun now key seconds data c =>
    if seconds <=? 0 then (Rejected "ERR invalid expire time in 'setex' command", c)
    else (Resolved tt, <[key := (data, now + seconds * 1000)]> c);
  Redis.del := fun _ key c =>
    (Resolved (match c !! key with Some _ => 1 | None => 0 end), delete key c);
  Redis.exists_ := fun now key c =>
    (Resolved (match c !! key with
               | Some (_, expiry) => if expiry <=? now then 0 else 1
               | None => 0
               end), c);
  Redis.ttl := fun now key c =>
    (Resolved (match c !! key with
               | Some (_, expiry) => if expiry <=? now then -2 else (expiry - now) / 1000
               | None => -2
               end), c);
  Redis.flushdb := fun _ _ => (Resolved tt, ∅);
  Redis.quit := fun _ c => (Resolved tt, c)
|}.

(** Cached values that are plain strings. *)
Definition json_string : JSON string := {|
  JSON.stringify := fun s => s;
  JSON.parse := fun s => Resolved s
|}.

(** A tournament serialized by its slug alone; enough to exercise the
    write path, which never parses. *)
Definition json_tournament : JSON Tournament.t := {|
  JSON.stringify := Tournament.slug;
  JSON.parse := fun _ => Rejected "Unexpected token"
|}.

Definition redis_down : RedisCacheService.t unit :=
  {| RedisCacheService.redis := tt; RedisCacheService.connected := false |}.

Definition redis_failing : RedisCacheService.t unit :=
  {| RedisCacheService.redis := tt; RedisCacheService.connected := true |}.

Definition string_chain (r : RedisCacheService.t unit)
    (m : gmap string (CacheEntry.t string))
    : FallbackCacheService.t (RedisCacheService.t unit + gmap string (CacheEntry.t string)) :=
  {| FallbackCacheService.caches := [inl r; inr m] |}.

Definition string_service
  := @sum_service string _ _
       (@RedisCacheService.service string unit json_string unreachable)
       (@InMemoryCacheService.service string).

Definition a_match (id : string) (status : MatchStatus) (completedAt : option Z)
    : Match.t :=
  {| Match.id := id; Match.round := "Round 1";
     Match.player1 := None; Match.player2 := None; Match.winner := None;
     Match.status := status; Match.bracketName := "Bracket";
     Match.startedAt := None; Match.completedAt := completedAt;
     Match.updatedAt := None |}.

Definition a_tournament (currentMatches : list Match.t) : Tournament.t :=
  {| Tournament.id := "1"; Tournament.name := "Demo"; Tournament.slug := "demo";
     Tournament.url := "";
     Tournament.events :=
       [{| TournamentEvent.id := "10"; TournamentEvent.name := "Singles";
           TournamentEvent.slug := "singles"; TournamentEvent.brackets := [];
           TournamentEvent.participants := [];
           TournamentEvent.currentMatches := currentMatches |}] |}.

(** A completed set between entrants 101 and 102. *)
Definition a_set : StartGgApi.rawSet :=
  {| StartGgApi.set_id := Some 5; StartGgApi.fullRoundText := None;
     StartGgApi.set_round := Some 1; StartGgApi.state := Some 3;
     StartGgApi.set_startedAt := None; StartGgApi.set_completedAt := None;
     StartGgApi.set_updatedAt := None;
     StartGgApi.slots :=
       Some [ {| StartGgApi.entrant :=
                   Some {| StartGgApi.entrant_id := Some 101;
                           StartGgApi.entrant_name := Some "Alice";
                           StartGgApi.entrant_participants := None |} |};
              {| StartGgApi.entrant :=
                   Some {| StartGgApi.entrant_id := Some 102;
                           StartGgApi.entrant_name := Some "Bob";
                           StartGgApi.entrant_participants := None |} |} ];
     StartGgApi.winnerId := Some 101 |}.

Definition a_phase_group : StartGgApi.rawPhaseGroup :=
  {| StartGgApi.phaseGroup_id := 7;
     StartGgApi.displayIdentifier := Some "A1";
     StartGgApi.phase_name := Some "Pools" |}.

(** An upstream serving one phase group's sets thirty to a page. *)
Definition paged_sets (sets : list StartGgApi.rawSet)
    : Z -> Z -> outcome (option (list StartGgApi.rawSet)) :=
  fun _ page => Resolved (Some (StartGgApi.serve_page sets page)).

(** A tournament with one event whose entrant sample holds an entrant that
    has an id but neither a name nor a gamer tag. *)
Definition nameless_entrant : StartGgApi.rawEntrant :=
  {| StartGgApi.entrant_id := Some 7;
     StartGgApi.entrant_name := None;
     StartGgApi.entrant_participants :=
       Some [{| StartGgApi.participant_id := Some 1;
                StartGgApi.gamerTag := None;
                StartGgApi.user_name := None |}] |}.

Definition tournament_with_nameless_entrant : StartGgApi.rawTournament :=
  {| StartGgApi.tournament_id := Some 1;
     StartGgApi.tournament_name := Some "Demo";
     StartGgApi.tournament_slug := Some "tournament/demo";
     StartGgApi.tournament_url := None;
     StartGgApi.tournament_events :=
       Some [Some {| StartGgApi.event_id := Some 10;
                     StartGgApi.event_name := Some "Singles";
                     StartGgApi.event_slug := Some "singles";
                     StartGgApi.entrants_nodes := Some [Some nameless_entrant] |}] |}.

(** An upstream that knows one tournament with one event and one phase
    group, holding a pending, a running and a completed set. *)
Definition a_set_in_state (id state : Z) : StartGgApi.rawSet :=
  {| StartGgApi.set_id := Some id; StartGgApi.fullRoundText := None;
     StartGgApi.set_round := Some 1; StartGgApi.state := Some state;
     StartGgApi.set_startedAt := None;
     StartGgApi.set_completedAt := if state =? 3 then Some 1700000000 else None;
     StartGgApi.set_updatedAt := None;
     StartGgApi.slots := StartGgApi.slots a_set;
     StartGgApi.winnerId := if state =? 3 then Some 101 else None |}.

Definition three_sets : list StartGgApi.rawSet :=
  [a_set_in_state 1 1; a_set_in_state 2 2; a_set_in_state 3 3].

Definition one_tournament : string -> outcome (option StartGgApi.rawTournament) :=
  fun _ => Resolved (Some tournament_with_nameless_entrant).

Definition one_phase_group
    : string -> string -> outcome (option StartGgApi.phaseGroupData) :=
  fun _ _ =>
    Resolved
      (Some {| StartGgApi.data_events :=
                 Some [Some {| StartGgApi.phaseGroups := Some [Some a_phase_group] |}] |}).

(** A process whose in-memory cache is empty, and an upstream that knows
    one tournament. *)
Definition cold : tournamentRouter.world (gmap string (CacheEntry.t Tournament.t)) :=
  {| tournamentRouter.cacheService := ∅;
     tournamentRouter.in_flight := [];
     tournamentRouter.journal := [] |}.

Definition demo : Tournament.t := a_tournament [a_match "1" pending None].

Definition startgg_demo : string -> outcome Tournament.t := fun _ => Resolved demo.

(** The factory's chain with a Redis cache that is connected but whose
    every command fails, over an empty in-memory cache. *)
Definition degraded
    : tournamentRouter.world
        (gmap string (CacheEntry.t Tournament.t)
         + FallbackCacheService.t
             (RedisCacheService.t unit + gmap string (CacheEntry.t Tournament.t))) :=
  {| tournamentRouter.cacheService :=
       inr {| FallbackCacheService.caches := [inl redis_failing; inr ∅] |};
     tournamentRouter.in_flight := [];
     tournamentRouter.journal := [] |}.

Definition milliseconds : nat -> Z := fun n => 1000 + Z.of_nat n.

Definition tournament_service
  : ICacheService Tournament.t
      (gmap string (CacheEntry.t Tournament.t)
       + FallbackCacheService.t
           (RedisCacheService.t unit + gmap string (CacheEntry.t Tournament.t)))
  := @sum_service _ _ _ _
       (@FallbackCacheService.service _ _
          (@sum_service _ _ _
             (@RedisCacheService.service _ _ json_tournament unreachable) _)).

End fixtures.

(** * Properties *)

(** ** The in-memory backend *)

Section InMemoryFacts.
Context {V : Type}.
Implicit Types (cache : gmap string (CacheEntry.t V)) (key : string) (value : V).

Lemma InMemory_set_lookup cache now key value ttlSeconds :
  InMemoryCacheService.set now key value ttlSeconds cache !! key
  = Some (CacheEntry.mk value (now + ttlSeconds * 1000) now).
Proof. unfold InMemoryCacheService.set. apply lookup_insert_eq. Qed.

Lemma InMemory_set_resolves cache now key value ttlSeconds :
  ICacheService.set now key value ttlSeconds cache
  = (Resolved tt, InMemoryCacheService.set now key value ttlSeconds cache).
Proof. reflexivity. Qed.

Lemma InMemory_get_expired cache now key entry :
  cache !! key = Some entry -> CacheEntry.expiresAt entry <= now ->
  InMemoryCacheService.get now key cache = (None, delete key cache).
Proof.
  intros Hlookup Hexp. unfold InMemoryCacheService.get. rewrite Hlookup.
  destruct (Z.leb_spec (CacheEntry.expiresAt entry) now); [reflexivity | lia].
Qed.

Lemma InMemory_get_live cache now key entry :
  cache !! key = Some entry -> now < CacheEntry.expiresAt entry ->
  InMemoryCacheService.get now key cache = (Some (CacheEntry.data entry), cache).
Proof.
  intros Hlookup Hlive. unfold InMemoryCacheService.get. rewrite Hlookup.
  destruct (Z.leb_spec (CacheEntry.expiresAt entry) now); [lia | reflexivity].
Qed.

Lemma InMemory_exists_expired cache now key entry :
  cache !! key = Some entry -> CacheEntry.expiresAt entry <= now ->
  InMemoryCacheService.exists_ now key cache = (false, delete key cache).
Proof.
  intros Hlookup Hexp. unfold InMemoryCacheService.exists_. rewrite Hlookup.
  destruct (Z.leb_spec (CacheEntry.expiresAt entry) now); [reflexivity | lia].
Qed.

Lemma InMemory_getMetadata_expired cache now key entry :
  cache !! key = Some entry -> CacheEntry.expiresAt entry <= now ->
  InMemoryCacheService.getMetadata now key cache = (None, delete key cache).
Proof.
  intros Hlookup Hexp. unfold InMemoryCacheService.getMetadata. rewrite Hlookup.
  destruct (Z.leb_spec (CacheEntry.expiresAt entry) now); [reflexivity | lia].
Qed.

(** C10.  [InMemoryCacheService.set] resolves for every key, value and
    integer [ttlSeconds].  When [ttlSeconds <= 0] the entry it stores has an
    [expiresAt] that is not in the future, so at any later clock reading
    [get] returns null and removes the entry, [exists] returns false and
    [getMetadata] returns null. *)
Theorem InMemory_set_nonpositive_ttl cache now key value ttlSeconds :
  let cache' := InMemoryCacheService.set now key value ttlSeconds cache in
  ICacheService.set now key value ttlSeconds cache = (Resolved tt, cache')
  /\ (ttlSeconds <= 0 ->
      (exists entry, cache' !! key = Some entry
                     /\ CacheEntry.data entry = value
                     /\ CacheEntry.expiresAt entry <= now)
      /\ forall now', now <= now' ->
           InMemoryCacheService.get now' key cache' = (None, delete key cache')
           /\ delete key cache' !! key = None
           /\ InMemoryCacheService.exists_ now' key cache' = (false, delete key cache')
           /\ InMemoryCacheService.getMetadata now' key cache' = (None, delete key cache')).
Proof.
  intros cache'. split; [reflexivity |]. intros Httl.
  pose proof (InMemory_set_lookup cache now key value ttlSeconds) as Hlookup.
  fold cache' in Hlookup. split.
  - eexists. split; [exact Hlookup |]. simpl. split; [reflexivity | lia].
  - intros now' Hlater.
    assert (CacheEntry.expiresAt (CacheEntry.mk value (now + ttlSeconds * 1000) now) <= now')
      as Hexp by (simpl; lia).
    repeat split.
    + eapply InMemory_get_expired; eassumption.
    + apply lookup_delete_eq.
    + eapply InMemory_exists_expired; eassumption.
    + eapply InMemory_getMetadata_expired; eassumption.
Qed.

End InMemoryFacts.

Lemma InMemory_set_nonpositive_ttl_witness :
  let cache := InMemoryCacheService.set 1000 "tournament:demo" "v" 0 ∅ in
  InMemoryCacheService.get 1000 "tournament:demo" cache
  = (None, delete "tournament:demo" cache).
Proof.
  intros cache.
  destruct (InMemory_set_nonpositive_ttl (V := string) ∅ 1000 "tournament:demo" "v" 0)
    as [_ H].
  destruct (H ltac:(lia)) as [_ H'].
  destruct (H' 1000 ltac:(lia)) as [Hget _].
  exact Hget.
Defined.

(** ** The composite cache *)

Section FallbackFacts.
Context {V B : Type} `{!ICacheService V B}.
Implicit Types (cs : list B) (key : string) (value : V).
Import FallbackCacheService.

Lemma set_all_caches now key value ttlSeconds cs :
  FallbackCacheService.written_caches
    (FallbackCacheService.set_all now key value ttlSeconds cs)
  = map (after_set now key value ttlSeconds) cs.
Proof.
  induction cs as [|cache rest IH]; simpl; [reflexivity |].
  unfold after_set at 1.
  destruct (ICacheService.set now key value ttlSeconds cache) as [[u|e] cache'];
    simpl; f_equal; exact IH.
Qed.

Lemma set_all_errors_le now key value ttlSeconds cs :
  (length (FallbackCacheService.errors
             (FallbackCacheService.set_all now key value ttlSeconds cs))
   <= length cs)%nat.
Proof.
  induction cs as [|cache rest IH]; simpl; [lia |].
  destruct (ICacheService.set now key value ttlSeconds cache) as [[u|e] cache'];
    simpl; lia.
Qed.

Lemma set_all_errors_all now key value ttlSeconds cs :
  length (FallbackCacheService.errors
            (FallbackCacheService.set_all now key value ttlSeconds cs))
  = length cs
  <-> Forall (fun cache => is_rejected (set_outcome now key value ttlSeconds cache) = true) cs.
Proof.
  induction cs as [|cache rest IH]; simpl.
  - split; [constructor | reflexivity].
  - pose proof (set_all_errors_le now key value ttlSeconds rest) as Hle.
    rewrite Forall_cons. unfold set_outcome in *.
    destruct (ICacheService.set now key value ttlSeconds cache) as [[u|e] cache'];
      simpl; split.
    + intros Heq. lia.
    + intros [Hhd _]. discriminate Hhd.
    + intros Heq. split; [reflexivity |]. apply IH. lia.
    + intros [_ Htl]. f_equal. apply IH, Htl.
Qed.

Lemma set_all_errors_none now key value ttlSeconds cs :
  length (FallbackCacheService.errors
            (FallbackCacheService.set_all now key value ttlSeconds cs)) = 0%nat
  <-> Forall (fun cache => is_resolved (set_outcome now key value ttlSeconds cache) = true) cs.
Proof.
  induction cs as [|cache rest IH]; simpl.
  - split; [constructor | reflexivity].
  - rewrite Forall_cons. unfold set_outcome in *.
    destruct (ICacheService.set now key value ttlSeconds cache) as [[u|e] cache'];
      simpl; split.
    + intros Heq. split; [reflexivity | apply IH, Heq].
    + intros [_ Htl]. apply IH, Htl.
    + intros Heq. discriminate Heq.
    + intros [Hhd _]. discriminate Hhd.
Qed.

Lemma not_all_rejected_some_resolved (outcomes : list (outcome unit)) :
  ~ Forall (fun o => is_rejected o = true) outcomes
  <-> Exists (fun o => is_resolved o = true) outcomes.
Proof.
  induction outcomes as [|o rest IH].
  - split; [intros H; destruct H; constructor | intros H; inversion H].
  - split.
    + intros Hnot. destruct o as [u|e].
      * left. reflexivity.
      * right. apply IH. intros Hall. apply Hnot. constructor; [reflexivity | exact Hall].
    + intros Hex Hall. inversion Hall as [|? ? Hhd Htl]. subst.
      inversion Hex as [? ? Hres | ? ? Hrest]; subst.
      * unfold is_rejected in Hhd. rewrite Hres in Hhd. cbn in Hhd; discriminate Hhd.
      * apply IH in Hrest. contradiction.
Qed.

(** C5.  A composite [set] with a positive TTL calls [set] on every backend
    and awaits them all: each backend ends in the state its own [set] left.
    The call resolves exactly when at least one backend's [set] resolved,
    and is rejected exactly when every backend's [set] was rejected; when
    it resolves although some backend failed, a warning is logged. *)
Theorem FallbackCacheService_set_write_through now key value ttlSeconds
    (s : FallbackCacheService.t B) :
  0 < ttlSeconds ->
  let cs := FallbackCacheService.caches s in
  let outcomes := map (set_outcome now key value ttlSeconds) cs in
  exists result s' console,
    FallbackCacheService.set_run now key value ttlSeconds s = (result, s', console)
    /\ ICacheService.set now key value ttlSeconds s = (result, s')
    /\ FallbackCacheService.caches s' = map (after_set now key value ttlSeconds) cs
    /\ (result = Resolved tt <-> Exists (fun o => is_resolved o = true) outcomes)
    /\ (is_rejected result = true <-> Forall (fun o => is_rejected o = true) outcomes)
    /\ (result = Resolved tt ->
        Exists (fun o => is_rejected o = true) outcomes ->
        Exists (fun line => is_warn line = true) console).
Proof.
  intros Httl cs outcomes.
  assert (Hall : length (FallbackCacheService.errors
                           (FallbackCacheService.set_all now key value ttlSeconds cs))
                 = length cs
                 <-> Forall (fun o => is_rejected o = true) outcomes).
  { rewrite set_all_errors_all. unfold outcomes. rewrite Forall_map. reflexivity. }
  assert (Hnone : length (FallbackCacheService.errors
                            (FallbackCacheService.set_all now key value ttlSeconds cs))
                  = 0%nat
                  <-> Forall (fun o => is_resolved o = true) outcomes).
  { rewrite set_all_errors_none. unfold outcomes. rewrite Forall_map. reflexivity. }
  pose proof (set_all_caches now key value ttlSeconds cs) as Hcaches.
  pose proof (not_all_rejected_some_resolved outcomes) as Hsome.
  cbn [ICacheService.set FallbackCacheService.service].
  unfold FallbackCacheService.set, FallbackCacheService.set_run.
  fold cs.
  destruct (Nat.eqb_spec
              (length (FallbackCacheService.errors
                         (FallbackCacheService.set_all now key value ttlSeconds cs)))
              (length cs)) as [Heq | Hne].
  - do 3 eexists. split; [reflexivity |]. split; [reflexivity |].
    split; [exact Hcaches |]. apply Hall in Heq.
    split; [| split].
    + split; [discriminate |]. intros Hex. apply Hsome in Hex. contradiction.
    + split; [intros _; exact Heq | reflexivity].
    + discriminate.
  - assert (Hnotall : ~ Forall (fun o => is_rejected o = true) outcomes)
      by (intros H; apply Hne, Hall, H).
    destruct (Nat.ltb_spec 0
                (length (FallbackCacheService.errors
                           (FallbackCacheService.set_all now key value ttlSeconds cs))))
      as [Hpos | Hzero].
    + do 3 eexists. split; [reflexivity |]. split; [reflexivity |].
      split; [exact Hcaches |]. split; [| split].
      * split; [intros _; apply Hsome, Hnotall | reflexivity].
      * split; [discriminate | intros H; contradiction].
      * intros _ _. apply Exists_app. right. left. reflexivity.
    + do 3 eexists. split; [reflexivity |]. split; [reflexivity |].
      split; [exact Hcaches |]. split; [| split].
      * split; [intros _; apply Hsome, Hnotall | reflexivity].
      * split; [discriminate | intros H; contradiction].
      * intros _ Hex. exfalso.
        assert (Hz : length (FallbackCacheService.errors
                               (FallbackCacheService.set_all now key value ttlSeconds cs))
                     = 0%nat) by lia.
        apply Hnone in Hz. apply Exists_exists in Hex as [o [Hin Hrej]].
        rewrite Forall_forall in Hz.
        unfold is_rejected in Hrej. rewrite (Hz o Hin) in Hrej. discriminate.
Qed.

Lemma get_from_hit now key i cs (r : read B V) :
  get_from now key i cs = r ->
  forall value, found r = Some value ->
  exists n cache,
    level r = Some (i + n)%nat
    /\ cs !! n = Some cache
    /\ get_outcome now key cache = Resolved (Some value)
    /\ Forall (silent now key) (take n cs)
    /\ read_caches r = (map (after_get now key) (take (S n) cs) ++ drop (S n) cs)%list.
Proof.
  revert i r. induction cs as [|cache rest IH]; intros i r Hr value Hfound; subst r.
  - discriminate Hfound.
  - cbn [get_from] in *.
    destruct (ICacheService.get now key cache) as [o cache'] eqn:Hget.
    assert (Ho : get_outcome now key cache = o)
      by (unfold get_outcome; rewrite Hget; reflexivity).
    assert (Hc : after_get now key cache = cache')
      by (unfold after_get; rewrite Hget; reflexivity).
    assert (Hnext : (o = Resolved None \/ exists e, o = Rejected e) ->
              found (get_from now key (S i) rest) = Some value ->
              exists n c,
                level (get_from now key (S i) rest) = Some (i + n)%nat
                /\ (cache :: rest) !! n = Some c
                /\ get_outcome now key c = Resolved (Some value)
                /\ Forall (silent now key) (take n (cache :: rest))
                /\ cache' :: read_caches (get_from now key (S i) rest)
                   = (map (after_get now key) (take (S n) (cache :: rest))
                      ++ drop (S n) (cache :: rest))%list).
    { intros Ho' Hrest.
      destruct (IH (S i) _ eq_refl value Hrest)
        as (n & c & Hlevel & Hlookup & Hhit & Hsilent & Hcaches).
      exists (S n), c. split; [rewrite Hlevel; f_equal; lia |].
      split; [exact Hlookup |]. split; [exact Hhit |]. split.
      - cbn [take]. constructor; [| exact Hsilent].
        intros v. rewrite Ho. destruct Ho' as [-> | [e ->]]; discriminate.
      - cbn [take drop map app]. rewrite Hc. f_equal. exact Hcaches. }
    destruct o as [[v|]|e]; cbn in Hfound |- *.
    + injection Hfound as ->. exists 0%nat, cache. cbn.
      rewrite Nat.add_0_r, Hc, drop_0. repeat split; [exact Ho | constructor].
    + apply Hnext; [left; reflexivity | exact Hfound].
    + apply Hnext; [right; eexists; reflexivity | exact Hfound].
Qed.

Lemma get_from_miss now key i cs :
  found (get_from now key i cs) = None ->
  Forall (silent now key) cs
  /\ read_caches (get_from now key i cs) = map (after_get now key) cs.
Proof.
  revert i. induction cs as [|cache rest IH]; intros i Hfound.
  - split; [constructor | reflexivity].
  - cbn [get_from] in *.
    destruct (ICacheService.get now key cache) as [o cache'] eqn:Hget.
    assert (Ho : get_outcome now key cache = o)
      by (unfold get_outcome; rewrite Hget; reflexivity).
    assert (Hc : after_get now key cache = cache')
      by (unfold after_get; rewrite Hget; reflexivity).
    destruct o as [[v|]|e]; cbn in Hfound |- *; [discriminate Hfound | |];
      destruct (IH _ Hfound) as [Hsilent Hcaches];
      (split;
       [ constructor; [intros v; rewrite Ho; discriminate | exact Hsilent]
       | rewrite Hc; f_equal; exact Hcaches ]).
Qed.

Lemma get_from_first now key i cs n cache value :
  cs !! n = Some cache ->
  get_outcome now key cache = Resolved (Some value) ->
  Forall (silent now key) (take n cs) ->
  found (get_from now key i cs) = Some value.
Proof.
  revert i n. induction cs as [|c rest IH]; intros i n Hlookup Hhit Hsilent.
  - discriminate Hlookup.
  - cbn [get_from].
    destruct (ICacheService.get now key c) as [o c'] eqn:Hget.
    assert (Ho : get_outcome now key c = o)
      by (unfold get_outcome; rewrite Hget; reflexivity).
    destruct n as [|n]; cbn in Hlookup.
    + injection Hlookup as ->. rewrite Hhit in Ho. subst o. reflexivity.
    + cbn [take] in Hsilent. apply Forall_cons in Hsilent as [Hc Hrest].
      destruct o as [[v|]|e]; cbn.
      * exfalso. exact (Hc v Ho).
      * eapply IH; eassumption.
      * eapply IH; eassumption.
Qed.

(** C6.  A composite [get] never rejects.  It consults the backends in
    preference order, going past every backend whose [get] returned null or
    faulted, and returns the value of the first backend that supplied one,
    leaving the backends behind it untouched; it returns null only when
    every backend was consulted and none supplied a value.  In particular,
    with the composite of A and B, if A faults on reads and B holds a value
    for the key, [get] returns that value. *)
Theorem FallbackCacheService_get_first_available now key (s : FallbackCacheService.t B) :
  let cs := FallbackCacheService.caches s in
  let r := FallbackCacheService.get_read now key s in
  ICacheService.get now key s
  = (Resolved (found r), {| FallbackCacheService.caches := read_caches r |})
  /\ (forall value,
        found r = Some value <->
        exists n cache,
          cs !! n = Some cache
          /\ get_outcome now key cache = Resolved (Some value)
          /\ Forall (silent now key) (take n cs))
  /\ (forall value,
        found r = Some value ->
        exists n,
          level r = Some n
          /\ read_caches r
             = (map (after_get now key) (take (S n) cs) ++ drop (S n) cs)%list)
  /\ (found r = None <->
        Forall (silent now key) cs /\ read_caches r = map (after_get now key) cs)
  /\ (forall A B' value,
        cs = [A; B'] ->
        is_rejected (get_outcome now key A) = true ->
        get_outcome now key B' = Resolved (Some value) ->
        found r = Some value).
Proof.
  intros cs r. split; [reflexivity |]. split; [| split; [| split]].
  - intros value. split.
    + intros Hfound.
      destruct (get_from_hit now key 0 cs r eq_refl value Hfound)
        as (n & cache & _ & Hlookup & Hhit & Hsilent & _).
      exists n, cache. auto.
    + intros (n & cache & Hlookup & Hhit & Hsilent).
      eapply get_from_first; eassumption.
  - intros value Hfound.
    destruct (get_from_hit now key 0 cs r eq_refl value Hfound)
      as (n & cache & Hlevel & _ & _ & _ & Hcaches).
    exists n. auto.
  - split.
    + apply get_from_miss.
    + intros [Hsilent _]. destruct (found r) as [value|] eqn:Hfound; [| reflexivity].
      exfalso.
      destruct (get_from_hit now key 0 cs r eq_refl value Hfound)
        as (n & cache & _ & Hlookup & Hhit & _ & _).
      rewrite Forall_forall in Hsilent.
      apply (Hsilent cache (list_elem_of_lookup_2 _ _ _ Hlookup) value). exact Hhit.
  - intros A B' value Hcs Hfault Hhit.
    eapply (get_from_first now key 0 cs 1 B'); [rewrite Hcs; reflexivity | exact Hhit |].
    rewrite Hcs. simpl. constructor; [| constructor].
    intros v Hv. rewrite Hv in Hfault. discriminate Hfault.
Qed.

End FallbackFacts.

Lemma FallbackCacheService_set_write_through_witness :
  exists s',
    ICacheService.set
      (ICacheService := @FallbackCacheService.service _ _ fixtures.string_service)
      0 "k" "v" 60 (fixtures.string_chain fixtures.redis_down ∅)
    = (Resolved tt, s').
Proof.
  destruct (@FallbackCacheService_set_write_through string _ fixtures.string_service
              0 "k" "v" 60 (fixtures.string_chain fixtures.redis_down ∅) ltac:(lia))
    as (result & s' & console & _ & Hset & _ & Hresolved & _).
  exists s'. rewrite Hset. f_equal. apply Hresolved.
  right. left. reflexivity.
Defined.

Lemma FallbackCacheService_get_first_available_witness :
  let memory := InMemoryCacheService.set 0 "k" "v" 60 ∅ in
  FallbackCacheService.found
    (FallbackCacheService.get_read (ICacheService0 := fixtures.string_service)
       1000 "k" (fixtures.string_chain fixtures.redis_down memory))
  = Some "v".
Proof.
  intros memory.
  destruct (@FallbackCacheService_get_first_available string _ fixtures.string_service
              1000 "k" (fixtures.string_chain fixtures.redis_down memory))
    as (_ & _ & _ & _ & Hfallback).
  apply (Hfallback (inl fixtures.redis_down) (inr memory) "v");
    [reflexivity | reflexivity | vm_compute; reflexivity].
Defined.

(** ** The TTL policy *)

Section TtlFacts.
Import ttl_calculator.

Lemma inspect_match_flags now f m :
  inspect_match now f m
  = mk_flags (hasOngoingMatches f || is_ongoing m)
             (hasRecentlyCompletedMatches f || is_recently_completed now m)
             (hasAnyPendingMatches f || is_pending m).
Proof.
  unfold inspect_match, is_ongoing, is_recently_completed, is_pending.
  destruct f as [o r p]; destruct (Match.status m);
    destruct (truthy_number (Match.completedAt m));
    destruct (Z.ltb _ _); cbn [MatchStatus_eqb andb orb hasOngoingMatches
      hasRecentlyCompletedMatches hasAnyPendingMatches];
    rewrite ?orb_true_r, ?orb_false_r; reflexivity.
Qed.

Lemma inspect_matches_flags now ms f :
  fold_left (inspect_match now) ms f
  = mk_flags (hasOngoingMatches f || existsb is_ongoing ms)
             (hasRecentlyCompletedMatches f || existsb (is_recently_completed now) ms)
             (hasAnyPendingMatches f || existsb is_pending ms).
Proof.
  revert f. induction ms as [|m ms IH]; intros f; simpl.
  - destruct f; simpl. rewrite !orb_false_r. reflexivity.
  - rewrite IH, inspect_match_flags. simpl. rewrite !orb_assoc. reflexivity.
Qed.

Lemma inspect_events_flags now events f :
  fold_left (inspect_event now) events f
  = let ms := flat_map TournamentEvent.currentMatches events in
    mk_flags (hasOngoingMatches f || existsb is_ongoing ms)
             (hasRecentlyCompletedMatches f || existsb (is_recently_completed now) ms)
             (hasAnyPendingMatches f || existsb is_pending ms).
Proof.
  revert f. induction events as [|event events IH]; intros f; simpl.
  - destruct f; simpl. rewrite !orb_false_r. reflexivity.
  - rewrite IH. unfold inspect_event. rewrite inspect_matches_flags. simpl.
    rewrite !existsb_app, !orb_assoc. reflexivity.
Qed.

(** What the code computes: the four rows in order, the second row being
    read off the raw difference between the millisecond clock and
    [completedAt]. *)
Lemma calculateDynamicTTL_rows now tournament :
  calculateDynamicTTL now tournament
  = let ms := all_current_matches tournament in
    if existsb is_ongoing ms then 15
    else if existsb (is_recently_completed now) ms then 120
    else if existsb is_pending ms then 600
    else 1800.
Proof.
  unfold calculateDynamicTTL. rewrite inspect_events_flags. reflexivity.
Qed.

Lemma no_completed_no_recent now ms :
  existsb (fun m => MatchStatus_eqb (Match.status m) completed) ms = false ->
  existsb (is_recently_completed now) ms = false
  /\ existsb (completed_within_300s now) ms = false.
Proof.
  induction ms as [|m ms IH]; [split; reflexivity |].
  simpl. intros Hnone. apply orb_false_iff in Hnone as [Hm Hms].
  destruct (IH Hms) as [Hcode Htable]. rewrite Hcode, Htable.
  unfold is_recently_completed, completed_within_300s. rewrite Hm.
  destruct (Match.completedAt m); split; reflexivity.
Qed.

(** The code and the table agree on every tournament none of whose current
    matches is completed. *)
Lemma calculateDynamicTTL_without_completed now tournament :
  existsb (fun m => MatchStatus_eqb (Match.status m) completed)
    (all_current_matches tournament) = false ->
  calculateDynamicTTL now tournament = ttl_policy_table now tournament.
Proof.
  intros Hnone. rewrite calculateDynamicTTL_rows. unfold ttl_policy_table. simpl.
  destruct (no_completed_no_recent now _ Hnone) as [Hcode Htable].
  rewrite Hcode, Htable. reflexivity.
Qed.

(** The rows on synthesized tournaments.  The second row is reached only
    by a [completedAt] within 300000 of the millisecond clock, that is, by
    a timestamp that is itself in milliseconds. *)
Example calculateDynamicTTL_live :
  calculateDynamicTTL 1700000100000
    (fixtures.a_tournament [fixtures.a_match "1" pending None;
                            fixtures.a_match "2" in_progress None]) = 15.
Proof. reflexivity. Qed.

Example calculateDynamicTTL_completedAt_in_ms :
  calculateDynamicTTL 1700000100000
    (fixtures.a_tournament [fixtures.a_match "1" completed (Some 1700000000000);
                            fixtures.a_match "2" pending None]) = 120.
Proof. reflexivity. Qed.

Example calculateDynamicTTL_waiting :
  calculateDynamicTTL 1700000100000
    (fixtures.a_tournament [fixtures.a_match "1" pending None]) = 600.
Proof. reflexivity. Qed.

Example calculateDynamicTTL_idle :
  calculateDynamicTTL 1700000100000 (fixtures.a_tournament []) = 1800.
Proof. reflexivity. Qed.

(** C2, at an input where the code leaves the table.  The clock reads
    1700000100000 ms and the only current match was completed at
    1700000000 s, a hundred seconds earlier: the table gives 120, the code
    returns 1800. *)
Theorem calculateDynamicTTL_recent_completion_missed :
  let tournament :=
    fixtures.a_tournament [fixtures.a_match "1" completed (Some 1700000000)] in
  calculateDynamicTTL 1700000100000 tournament = 1800
  /\ ttl_policy_table 1700000100000 tournament = 120.
Proof. split; reflexivity. Qed.

End TtlFacts.

(** ** Retry and back-off *)

Section RetryFacts.
Import StartGgApi.
Context {D : Type} (upstream : nat -> posted D) (latency : nat -> Z) (cfg : config).

Lemma respect_rate_limit_posts c : posts (respect_rate_limit cfg c) = posts c.
Proof.
  unfold respect_rate_limit. destruct (Z.ltb _ _); reflexivity.
Qed.

(** The rate limit wait adds at most a wait to the trace. *)
Lemma respect_rate_limit_trace c :
  without_rate_limit_waits (trace (respect_rate_limit cfg c))
  = without_rate_limit_waits (trace c)
  /\ exists waits, trace (respect_rate_limit cfg c) = (trace c ++ waits)%list
                   /\ without_rate_limit_waits waits = [].
Proof.
  unfold respect_rate_limit, without_rate_limit_waits.
  destruct (Z.ltb _ _); simpl.
  - rewrite List.filter_app. simpl. rewrite app_nil_r. split; [reflexivity |].
    eexists. split; reflexivity.
  - split; [reflexivity |]. exists []. rewrite app_nil_r. split; reflexivity.
Qed.

Lemma executeQueryWithRetry_retries retryCount c message :
  upstream (posts c) = post_axios_error (Some 429) message ->
  (retryCount < MAX_RETRIES cfg)%nat ->
  executeQueryWithRetry upstream latency cfg retryCount c
  = executeQueryWithRetry upstream latency cfg (S retryCount)
      (sleep backoff (backoffDelay cfg retryCount)
         (snd (post upstream latency (respect_rate_limit cfg c)))).
Proof.
  intros Hup Hlt. rewrite executeQueryWithRetry_equation_1.
  unfold post at 1. rewrite respect_rate_limit_posts, Hup.
  rewrite executeQueryWithRetry_clause_1_equation_3.
  destruct (decide (Some 429 = Some 429 /\ (retryCount < MAX_RETRIES cfg)%nat))
    as [Hyes | Hno].
  - rewrite executeQueryWithRetry_clause_1_clause_4_equation_1.
    unfold post. rewrite respect_rate_limit_posts. reflexivity.
  - exfalso. apply Hno. split; [reflexivity | exact Hlt].
Qed.

Lemma executeQueryWithRetry_gives_up retryCount c message :
  upstream (posts c) = post_axios_error (Some 429) message ->
  ~ (retryCount < MAX_RETRIES cfg)%nat ->
  executeQueryWithRetry upstream latency cfg retryCount c
  = (Rejected ("API Error: " +:+ message +:+ " (Status: 429)"),
     snd (post upstream latency (respect_rate_limit cfg c))).
Proof.
  intros Hup Hge. rewrite executeQueryWithRetry_equation_1.
  unfold post at 1. rewrite respect_rate_limit_posts, Hup.
  rewrite executeQueryWithRetry_clause_1_equation_3.
  destruct (decide (Some 429 = Some 429 /\ (retryCount < MAX_RETRIES cfg)%nat))
    as [Hyes | Hno].
  - exfalso. apply Hge, Hyes.
  - rewrite executeQueryWithRetry_clause_1_clause_4_equation_2.
    unfold post. rewrite respect_rate_limit_posts. reflexivity.
Qed.

Lemma executeQueryWithRetry_rate_limited message :
  (forall n, upstream n = post_axios_error (Some 429) message) ->
  forall remaining retryCount c,
    (retryCount + remaining = MAX_RETRIES cfg)%nat ->
    exists c' new,
      executeQueryWithRetry upstream latency cfg retryCount c
      = (Rejected ("API Error: " +:+ message +:+ " (Status: 429)"), c')
      /\ trace c' = (trace c ++ new)%list
      /\ posts c' = (posts c + remaining + 1)%nat
      /\ without_rate_limit_waits new = posts_and_backoffs cfg remaining retryCount.
Proof.
  intros Hup. induction remaining as [|remaining IH]; intros retryCount c Hsum.
  - rewrite (executeQueryWithRetry_gives_up retryCount c message (Hup _)) by lia.
    destruct (respect_rate_limit_trace c) as [_ (waits & Htrace & Hwaits)].
    eexists. exists (waits ++ [ev_post])%list. split; [reflexivity |].
    split; [| split].
    + unfold post. cbn [snd trace]. rewrite Htrace, <- app_assoc. reflexivity.
    + unfold post. cbn [snd posts]. rewrite respect_rate_limit_posts. lia.
    + unfold without_rate_limit_waits in *. rewrite List.filter_app, Hwaits. reflexivity.
  - rewrite (executeQueryWithRetry_retries retryCount c message (Hup _)) by lia.
    destruct (respect_rate_limit_trace c) as [_ (waits & Htrace & Hwaits)].
    edestruct (IH (S retryCount)) as (c' & new & Hrun & Htr & Hposts & Hnew); [lia |].
    exists c'. eexists. split; [exact Hrun |]. split; [| split].
    + rewrite Htr. unfold sleep, post. cbn [snd trace].
      rewrite Htrace, <- !app_assoc. reflexivity.
    + rewrite Hposts. unfold sleep, post. cbn [snd posts].
      rewrite respect_rate_limit_posts. lia.
    + unfold without_rate_limit_waits in *.
      rewrite !List.filter_app, Hwaits, Hnew. reflexivity.
Qed.

Lemma posts_and_backoffs_posts remaining retryCount :
  length (List.filter is_post (posts_and_backoffs cfg remaining retryCount))
  = S remaining.
Proof.
  revert retryCount. induction remaining as [|remaining IH]; intros retryCount; simpl;
    [reflexivity | rewrite IH; reflexivity].
Qed.

Lemma posts_and_backoffs_backoffs remaining retryCount :
  backoffs (posts_and_backoffs cfg remaining retryCount)
  = map (fun i => RETRY_DELAY cfg * 2 ^ Z.of_nat i) (seq retryCount remaining).
Proof.
  revert retryCount. induction remaining as [|remaining IH]; intros retryCount; simpl;
    [reflexivity | rewrite IH; reflexivity].
Qed.

Lemma filter_without_rate_limit_waits (p : event -> bool) tr :
  (forall e, is_rate_limit_wait e = true -> p e = false) ->
  List.filter p (without_rate_limit_waits tr) = List.filter p tr.
Proof.
  intros Hp. induction tr as [|e tr IH]; [reflexivity |].
  unfold without_rate_limit_waits in *. simpl.
  destruct (is_rate_limit_wait e) eqn:He; simpl.
  - rewrite (Hp e He). exact IH.
  - destruct (p e); rewrite IH; reflexivity.
Qed.

Lemma backoffs_without_rate_limit_waits tr :
  backoffs (without_rate_limit_waits tr) = backoffs tr.
Proof.
  induction tr as [|e tr IH]; [reflexivity |].
  unfold without_rate_limit_waits, backoffs in *. simpl.
  destruct e as [[|] ms|]; simpl; rewrite IH; reflexivity.
Qed.

Local Abbreviation execute := (executeQueryWithRetry upstream latency cfg).
Local Abbreviation sent c := (snd (post upstream latency (respect_rate_limit cfg c))).

(** One pass through the body of [executeQueryWithRetry]. *)
Lemma executeQueryWithRetry_step retryCount c :
  execute retryCount c
  = match upstream (posts c) with
    | post_data data => (Resolved data, sent c)
    | post_graphql_errors messages =>
        (Rejected ("GraphQL Error: " +:+ join ", " messages), sent c)
    | post_thrown message => (Rejected message, sent c)
    | post_axios_error status message =>
        if decide (status = Some 429 /\ (retryCount < MAX_RETRIES cfg)%nat)
        then execute (S retryCount) (sleep backoff (backoffDelay cfg retryCount) (sent c))
        else if decide (status = Some 401)
        then (Rejected "Authentication Error: Invalid or expired start.gg API token", sent c)
        else if 500 <=? default 0 status
        then (Rejected ("Server Error: start.gg API is temporarily unavailable ("
                        +:+ status_text status +:+ ")"), sent c)
        else (Rejected ("API Error: " +:+ message +:+ " (Status: "
                        +:+ status_text status +:+ ")"), sent c)
    end.
Proof.
  rewrite executeQueryWithRetry_equation_1.
  unfold post at 1. rewrite respect_rate_limit_posts.
  unfold post. cbn [snd]. rewrite respect_rate_limit_posts.
  destruct (upstream (posts c)) as [data | messages | status message | message].
  - apply executeQueryWithRetry_clause_1_equation_1.
  - apply executeQueryWithRetry_clause_1_equation_2.
  - rewrite executeQueryWithRetry_clause_1_equation_3.
    destruct (decide (status = Some 429 /\ (retryCount < MAX_RETRIES cfg)%nat)).
    + apply executeQueryWithRetry_clause_1_clause_4_equation_1.
    + apply executeQueryWithRetry_clause_1_clause_4_equation_2.
  - apply executeQueryWithRetry_clause_1_equation_4.
Qed.

Lemma sent_posts c : posts (sent c) = S (posts c).
Proof. unfold post. cbn [snd posts]. rewrite respect_rate_limit_posts. reflexivity. Qed.

Lemma sent_backoffs c : backoffs (trace (sent c)) = backoffs (trace c).
Proof.
  unfold post. cbn [snd trace].
  destruct (respect_rate_limit_trace c) as [_ (waits & Htrace & Hwaits)].
  rewrite Htrace.
  assert (Hnone : backoffs waits = []).
  { rewrite <- backoffs_without_rate_limit_waits, Hwaits. reflexivity. }
  unfold backoffs in *. rewrite !flat_map_app, Hnone. cbn. rewrite !app_nil_r.
  reflexivity.
Qed.

(** The time of the POST: the later of the clock and the end of the rate
    limit window opened by the previous request. *)
Lemma respect_rate_limit_clock c :
  clock (respect_rate_limit cfg c)
  = Z.max (clock c) (lastRequestTime c + RATE_LIMIT_DELAY cfg)
  /\ lastRequestTime (respect_rate_limit cfg c) = clock (respect_rate_limit cfg c).
Proof.
  unfold respect_rate_limit, sleep.
  destruct (Z.ltb_spec (clock c - lastRequestTime c) (RATE_LIMIT_DELAY cfg));
    cbn [clock lastRequestTime]; split; try reflexivity; lia.
Qed.

Lemma sent_times c :
  lastRequestTime c + RATE_LIMIT_DELAY cfg <= lastRequestTime (sent c)
  /\ clock c <= lastRequestTime (sent c)
  /\ lastRequestTime (sent c) <= clock (sent c).
Proof.
  unfold post. cbn [snd lastRequestTime clock].
  destruct (respect_rate_limit_clock c) as [Hclock ->]. lia.
Qed.

Lemma executeQueryWithRetry_spacing retryCount c :
  let c' := snd (execute retryCount c) in
  (posts c < posts c')%nat
  /\ lastRequestTime c
     + RATE_LIMIT_DELAY cfg * (Z.of_nat (posts c') - Z.of_nat (posts c))
     <= lastRequestTime c'
  /\ clock c <= lastRequestTime c'
  /\ lastRequestTime c' <= clock c'.
Proof.
  remember (MAX_RETRIES cfg - retryCount)%nat as n eqn:Hn. revert retryCount c Hn.
  induction n as [n IH] using lt_wf_ind. intros retryCount c Hn. cbn zeta.
  pose proof (sent_times c) as (Hgap & Hnow & Hlast).
  pose proof (sent_posts c) as Hposts.
  assert (Honce : (posts c < posts (sent c))%nat
                  /\ lastRequestTime c
                     + RATE_LIMIT_DELAY cfg
                       * (Z.of_nat (posts (sent c)) - Z.of_nat (posts c))
                     <= lastRequestTime (sent c)
                  /\ clock c <= lastRequestTime (sent c)
                  /\ lastRequestTime (sent c) <= clock (sent c)).
  { rewrite Hposts. split; [lia |]. split; [| split; assumption].
    replace (Z.of_nat (S (posts c)) - Z.of_nat (posts c)) with 1 by lia. lia. }
  rewrite executeQueryWithRetry_step.
  destruct (upstream (posts c)) as [data | messages | status message | message];
    cbn [snd]; try exact Honce.
  destruct (decide (status = Some 429 /\ (retryCount < MAX_RETRIES cfg)%nat))
    as [[_ Hlt] | _].
  - set (c1 := sleep backoff (backoffDelay cfg retryCount) (sent c)).
    destruct (IH (MAX_RETRIES cfg - S retryCount)%nat ltac:(lia) (S retryCount) c1 eq_refl)
      as (Hmore & Hgap' & Hnow' & Hlast').
    assert (Hp1 : posts c1 = S (posts c)) by (unfold c1, sleep; cbn [posts]; exact Hposts).
    assert (Hl1 : lastRequestTime c1 = lastRequestTime (sent c)) by reflexivity.
    assert (Hc1 : clock (sent c) <= clock c1) by (unfold c1, sleep; cbn [clock]; lia).
    rewrite Hp1, Hl1 in *.
    split; [lia |]. split; [| split; [lia | exact Hlast']].
    replace (Z.of_nat (posts (snd (execute (S retryCount) c1))) - Z.of_nat (posts c))
      with (1 + (Z.of_nat (posts (snd (execute (S retryCount) c1)))
                 - Z.of_nat (S (posts c)))) by lia.
    rewrite Z.mul_add_distr_l. lia.
  - destruct (decide (status = Some 401)); [exact Honce |].
    destruct (500 <=? default 0 status); exact Honce.
Qed.

(** While the upstream answers 429 and retries are left, attempt [i] is
    followed by its back-off: [a] is the client when the answer to the
    POST of attempt [i] has come, [b] the client [RETRY_DELAY * 2^i] ms
    later, from which the request goes on as attempt [i + 1]. *)
Lemma executeQueryWithRetry_backs_off k retryCount c message :
  (retryCount + k <= MAX_RETRIES cfg)%nat ->
  (forall j, (j < k)%nat ->
     upstream (posts c + j)%nat = post_axios_error (Some 429) message) ->
  forall i, (i < k)%nat ->
    exists a b new,
      trace a = (trace c ++ new)%list
      /\ without_rate_limit_waits new = posts_and_backoffs cfg i retryCount
      /\ posts a = (posts c + S i)%nat
      /\ clock c <= lastRequestTime a
      /\ clock a = lastRequestTime a + Z.max 0 (latency (posts c + i)%nat)
      /\ clock b = clock a + Z.max 0 (RETRY_DELAY cfg * 2 ^ Z.of_nat (retryCount + i))
      /\ lastRequestTime b = lastRequestTime a
      /\ posts b = posts a
      /\ trace b
         = (trace a ++ [ev_sleep backoff (RETRY_DELAY cfg * 2 ^ Z.of_nat (retryCount + i))])%list
      /\ execute retryCount c = execute (retryCount + S i) b
      /\ clock b <= lastRequestTime (sent b).
Proof.
  revert retryCount c. induction k as [|k IH]; intros retryCount c Hle Hlimited i Hi; [lia |].
  pose proof (Hlimited 0%nat ltac:(lia)) as Hfirst. rewrite Nat.add_0_r in Hfirst.
  assert (Hstep : execute retryCount c
                  = execute (S retryCount)
                      (sleep backoff (backoffDelay cfg retryCount) (sent c))).
  { rewrite executeQueryWithRetry_step, Hfirst.
    destruct (decide (Some 429 = Some 429 /\ (retryCount < MAX_RETRIES cfg)%nat))
      as [_ | Hno]; [reflexivity | exfalso; apply Hno; split; [reflexivity | lia]]. }
  destruct (respect_rate_limit_trace c) as [_ (waits & Htrace & Hwaits)].
  pose proof (sent_times c) as (_ & Hnow & Hlast).
  destruct i as [|i].
  - exists (sent c), (sleep backoff (backoffDelay cfg retryCount) (sent c)),
      (waits ++ [ev_post])%list.
    rewrite !Nat.add_0_r. split.
    { unfold post. cbn [snd trace]. rewrite Htrace, <- app_assoc. reflexivity. }
    split.
    { unfold without_rate_limit_waits in *. rewrite List.filter_app, Hwaits. reflexivity. }
    split; [rewrite sent_posts; lia |]. split; [lia |].
    split.
    { unfold post. cbn [snd clock lastRequestTime]. rewrite respect_rate_limit_posts.
      destruct (respect_rate_limit_clock c) as [_ ->]. reflexivity. }
    split; [reflexivity |]. split; [reflexivity |]. split; [reflexivity |].
    split; [reflexivity |]. split; [rewrite Hstep; f_equal; lia |].
    apply sent_times.
  - set (c1 := sleep backoff (backoffDelay cfg retryCount) (sent c)) in *.
    assert (Hposts : posts c1 = S (posts c)) by (unfold c1, sleep; cbn [posts]; apply sent_posts).
    destruct (IH (S retryCount) c1 ltac:(lia)) with (i := i)
      as (a & b & new & Ha & Hnew & Hpa & Hta & Hca & Hcb & Hlb & Hpb & Htb & Hrun & Hnext).
    + intros j Hj. rewrite Hposts.
      replace (S (posts c) + j)%nat with (posts c + S j)%nat by lia.
      apply Hlimited. lia.
    + lia.
    + exists a, b,
        (waits ++ [ev_post; ev_sleep backoff (backoffDelay cfg retryCount)] ++ new)%list.
      replace (retryCount + S i)%nat with (S retryCount + i)%nat by lia.
      split.
      { rewrite Ha. unfold c1, sleep, post. cbn [snd trace].
        rewrite Htrace, <- !app_assoc. reflexivity. }
      split.
      { unfold without_rate_limit_waits in *.
        rewrite !List.filter_app, Hwaits, Hnew. reflexivity. }
      split; [lia |]. split.
      { assert (clock (sent c) <= clock c1)
          by (unfold c1, sleep; cbn [clock]; lia). lia. }
      split.
      { rewrite Hca, Hposts. do 3 f_equal. lia. }
      split; [exact Hcb |]. split; [exact Hlb |]. split; [exact Hpb |].
      split; [exact Htb |]. split; [| exact Hnext].
      rewrite Hstep, Hrun. f_equal. lia.
Qed.

(** The back-offs add up: the last POST of a request whose first [k]
    attempts are answered 429 is sent no earlier than the sum of the [k]
    back-off delays after the call. *)
Lemma executeQueryWithRetry_waits k retryCount c message :
  (retryCount + k <= MAX_RETRIES cfg)%nat ->
  (forall j, (j < k)%nat ->
     upstream (posts c + j)%nat = post_axios_error (Some 429) message) ->
  0 <= RETRY_DELAY cfg ->
  clock c + RETRY_DELAY cfg * (2 ^ Z.of_nat (retryCount + k) - 2 ^ Z.of_nat retryCount)
  <= lastRequestTime (snd (execute retryCount c)).
Proof.
  revert retryCount c. induction k as [|k IH]; intros retryCount c Hle Hlimited Hdelay.
  - rewrite Nat.add_0_r, Z.sub_diag, Z.mul_0_r, Z.add_0_r.
    apply executeQueryWithRetry_spacing.
  - pose proof (Hlimited 0%nat ltac:(lia)) as Hfirst. rewrite Nat.add_0_r in Hfirst.
    rewrite executeQueryWithRetry_step, Hfirst.
    destruct (decide (Some 429 = Some 429 /\ (retryCount < MAX_RETRIES cfg)%nat))
      as [_ | Hno]; [| exfalso; apply Hno; split; [reflexivity | lia]].
    set (c1 := sleep backoff (backoffDelay cfg retryCount) (sent c)).
    assert (Hposts : posts c1 = S (posts c)) by (unfold c1, sleep; cbn [posts]; apply sent_posts).
    pose proof (sent_times c) as (_ & Hnow & Hlast).
    assert (Hpow : 0 < 2 ^ Z.of_nat retryCount) by (apply Z.pow_pos_nonneg; lia).
    assert (Hc1 : clock c + RETRY_DELAY cfg * 2 ^ Z.of_nat retryCount <= clock c1).
    { unfold c1, sleep, backoffDelay. cbn [clock]. nia. }
    specialize (IH (S retryCount) c1 ltac:(lia)).
    assert (Hrest : forall j, (j < k)%nat ->
              upstream (posts c1 + j)%nat = post_axios_error (Some 429) message).
    { intros j Hj. rewrite Hposts.
      replace (S (posts c) + j)%nat with (posts c + S j)%nat by lia.
      apply Hlimited. lia. }
    specialize (IH Hrest Hdelay).
    replace (S retryCount + k)%nat with (retryCount + S k)%nat in IH by lia.
    replace (Z.of_nat (S retryCount)) with (Z.succ (Z.of_nat retryCount)) in IH by lia.
    rewrite Z.pow_succ_r in IH by lia. nia.
Qed.

(** C7.  Against an upstream that answers every POST with HTTP 429, a
    request is POSTed exactly [MAX_RETRIES + 1] times and is then rejected
    with the 429 status.  Between attempt [i] (counted from 0) and the
    retry after it the client sleeps [RETRY_DELAY * 2^i] ms: the retry
    starts from a clock reading that is [RETRY_DELAY * 2^i] ms later than
    the one at which the answer to attempt [i] came, and its POST is sent
    no earlier than that.  The last POST is therefore sent at least
    [RETRY_DELAY * (2^MAX_RETRIES - 1)] ms, the sum of the delays, after the
    call. *)
Theorem executeQueryWithRetry_persistent_429 message c :
  (forall n, upstream n = post_axios_error (Some 429) message) ->
  exists c' new,
    query upstream latency cfg c
    = (Rejected ("API Error: " +:+ message +:+ " (Status: 429)"), c')
    /\ trace c' = (trace c ++ new)%list
    /\ posts c' = (posts c + (MAX_RETRIES cfg + 1))%nat
    /\ length (List.filter is_post new) = (MAX_RETRIES cfg + 1)%nat
    /\ backoffs new
       = map (fun i => RETRY_DELAY cfg * 2 ^ Z.of_nat i) (seq 0 (MAX_RETRIES cfg))
    /\ without_rate_limit_waits new = posts_and_backoffs cfg (MAX_RETRIES cfg) 0
    /\ (forall i, (i < MAX_RETRIES cfg)%nat ->
          exists a b answered,
            trace a = (trace c ++ answered)%list
            /\ without_rate_limit_waits answered = posts_and_backoffs cfg i 0
            /\ posts a = (posts c + S i)%nat
            /\ clock c <= lastRequestTime a
            /\ clock a = lastRequestTime a + Z.max 0 (latency (posts c + i)%nat)
            /\ clock b = clock a + Z.max 0 (RETRY_DELAY cfg * 2 ^ Z.of_nat i)
            /\ lastRequestTime b = lastRequestTime a
            /\ posts b = posts a
            /\ trace b
               = (trace a ++ [ev_sleep backoff (RETRY_DELAY cfg * 2 ^ Z.of_nat i)])%list
            /\ query upstream latency cfg c
               = executeQueryWithRetry upstream latency cfg (S i) b
            /\ clock b
               <= lastRequestTime (snd (post upstream latency (respect_rate_limit cfg b))))
    /\ (0 <= RETRY_DELAY cfg ->
        clock c + RETRY_DELAY cfg * (2 ^ Z.of_nat (MAX_RETRIES cfg) - 1)
        <= lastRequestTime c'
        /\ lastRequestTime c' <= clock c').
Proof.
  intros Hup.
  destruct (executeQueryWithRetry_rate_limited message Hup (MAX_RETRIES cfg) 0%nat c)
    as (c' & new & Hrun & Htrace & Hposts & Hnew); [lia |].
  exists c', new. split; [exact Hrun |]. split; [exact Htrace |].
  split; [lia |]. split; [| split; [| split; [exact Hnew |]]].
  - rewrite <- (filter_without_rate_limit_waits is_post new), Hnew.
    + rewrite posts_and_backoffs_posts. lia.
    + intros [[|] ms|]; simpl; congruence.
  - rewrite <- backoffs_without_rate_limit_waits, Hnew.
    apply posts_and_backoffs_backoffs.
  - split.
    + intros i Hi.
      destruct (executeQueryWithRetry_backs_off (MAX_RETRIES cfg) 0 c message
                  ltac:(lia) (fun j _ => Hup _) i Hi)
        as (a & b & answered & Hconj).
      exists a, b, answered. exact Hconj.
    + intros Hdelay.
      pose proof (executeQueryWithRetry_waits (MAX_RETRIES cfg) 0 c message
                    ltac:(lia) (fun j _ => Hup _) Hdelay) as Hsum.
      pose proof (executeQueryWithRetry_spacing 0 c) as (_ & _ & _ & Hlast).
      cbn zeta in Hlast. unfold query in Hrun. rewrite Hrun in Hsum, Hlast.
      cbn [snd] in Hsum, Hlast. cbn [Nat.add Z.of_nat Z.pow] in Hsum.
      split; [| exact Hlast].
      replace (2 ^ Z.of_nat (MAX_RETRIES cfg) - 1)
        with (2 ^ Z.of_nat (0 + MAX_RETRIES cfg) - 2 ^ Z.of_nat 0); [exact Hsum |].
      reflexivity.
Qed.

End RetryFacts.

(** With the constants of the class, on a client that has just sent a
    request: the first POST waits out the rate limit, and each retry
    follows its back-off at once. *)
Example executeQueryWithRetry_persistent_429_trace :
  StartGgApi.trace
    (snd (StartGgApi.query
            (fun _ : nat =>
               StartGgApi.post_axios_error (D := unit) (Some 429)
                 "Request failed with status code 429")
            (fun _ => 100) StartGgApi.constants (StartGgApi.mk_client 0 0 0 [])))
  = [StartGgApi.ev_sleep StartGgApi.rate_limit_wait 800; StartGgApi.ev_post;
     StartGgApi.ev_sleep StartGgApi.backoff 2000; StartGgApi.ev_post;
     StartGgApi.ev_sleep StartGgApi.backoff 4000; StartGgApi.ev_post;
     StartGgApi.ev_sleep StartGgApi.backoff 8000; StartGgApi.ev_post].
Proof. vm_compute. reflexivity. Qed.

(** The clock along that run, each POST taking 100 ms: the POSTs are sent
    at 800, 2900, 7000 and 15100 ms, each retry 2000, 4000 and 8000 ms
    after the answer before it. *)
Example executeQueryWithRetry_persistent_429_clock :
  let c' :=
    snd (StartGgApi.query
           (fun _ : nat =>
              StartGgApi.post_axios_error (D := unit) (Some 429)
                "Request failed with status code 429")
           (fun _ => 100) StartGgApi.constants (StartGgApi.mk_client 0 0 0 [])) in
  StartGgApi.lastRequestTime c' = 15100 /\ StartGgApi.clock c' = 15200.
Proof. vm_compute. split; reflexivity. Qed.

Lemma executeQueryWithRetry_persistent_429_witness :
  let upstream := fun _ : nat =>
    StartGgApi.post_axios_error (D := unit) (Some 429) "Request failed with status code 429" in
  exists c',
    StartGgApi.query upstream (fun _ => 100) StartGgApi.constants
      (StartGgApi.mk_client 0 0 0 [])
    = (Rejected "API Error: Request failed with status code 429 (Status: 429)", c')
    /\ StartGgApi.posts c' = 4%nat
    /\ StartGgApi.backoffs (StartGgApi.trace c') = [2000; 4000; 8000]
    /\ 14000 <= StartGgApi.lastRequestTime c'.
Proof.
  intros upstream.
  destruct (executeQueryWithRetry_persistent_429 upstream (fun _ => 100)
              StartGgApi.constants "Request failed with status code 429"
              (StartGgApi.mk_client 0 0 0 []) (fun _ => eq_refl))
    as (c' & new & Hrun & Htrace & Hposts & _ & Hbackoffs & _ & _ & Hclock).
  exists c'. split; [exact Hrun |]. split; [exact Hposts |].
  split; [rewrite Htrace; exact Hbackoffs |].
  exact (proj1 (Hclock ltac:(vm_compute; discriminate))).
Defined.

(** ** Set pagination *)

Section PaginationFacts.
Import StartGgApi.
Context (random_suffix : string).
Context (phaseGroupSetsQuery : Z -> Z -> outcome (option (list rawSet))).
Context (tournamentSlug : string) (phaseGroup : rawPhaseGroup).

Local Abbreviation turn :=
  (page_turn random_suffix phaseGroupSetsQuery tournamentSlug phaseGroup).
Local Abbreviation loop :=
  (page_loop random_suffix phaseGroupSetsQuery tournamentSlug phaseGroup).

Lemma page_loop_step st :
  loop st
  = if decide (hasMorePages st = true /\ page st <= 10) then loop (turn st) else st.
Proof.
  rewrite page_loop_equation_1.
  destruct (decide (hasMorePages st = true /\ page st <= 10)).
  - apply page_loop_clause_1_equation_1.
  - apply page_loop_clause_1_equation_2.
Qed.

Lemma page_turn_requested st : requested (turn st) = (requested st ++ [page st])%list.
Proof. unfold page_turn. destruct (Nat.ltb 0 _); reflexivity. Qed.

Lemma page_turn_next st :
  hasMorePages (turn st) = true ->
  hasMorePages st = true /\ page (turn st) = page st + 1.
Proof.
  unfold page_turn. destruct (Nat.ltb 0 _); simpl; [| discriminate].
  destruct (Nat.ltb _ 30); simpl; [discriminate | auto].
Qed.

Lemma page_turn_turns_left st :
  hasMorePages st = true -> page st <= 10 ->
  (turns_left (turn st) < turns_left st)%nat.
Proof.
  intros Hmore Hpage. unfold turns_left at 2. rewrite Hmore.
  unfold turns_left. destruct (hasMorePages (turn st)) eqn:Hnext; [| lia].
  apply page_turn_next in Hnext as [_ ->]. lia.
Qed.

(** Whatever the upstream answers, at most ten pages are asked for. *)
Lemma page_loop_at_most_10 st :
  (hasMorePages st = true -> Z.of_nat (length (requested st)) <= page st - 1) ->
  (length (requested st) <= 10)%nat ->
  (length (requested (loop st)) <= 10)%nat.
Proof.
  remember (turns_left st) as n eqn:Hn. revert st Hn.
  induction n as [n IH] using lt_wf_ind. intros st Hn Hpage Hlen.
  rewrite page_loop_step.
  destruct (decide (hasMorePages st = true /\ page st <= 10)) as [[Hmore Hle] | _];
    [| exact Hlen].
  specialize (Hpage Hmore).
  apply (IH (turns_left (turn st))); [| reflexivity | |].
  - subst n. apply page_turn_turns_left; assumption.
  - intros Hnext. apply page_turn_next in Hnext as [_ ->].
    rewrite page_turn_requested, length_app. simpl. lia.
  - rewrite page_turn_requested, length_app. simpl. lia.
Qed.

(** The pages asked for when the upstream serves the phase group's [sets]
    thirty to a page. *)
Section Paged.
Context (sets : list rawSet).
Hypothesis paged :
  forall page,
    phaseGroupSetsQuery (phaseGroup_id phaseGroup) page
    = Resolved (Some (serve_page sets page)).

Lemma serve_page_length (i : nat) :
  length (serve_page sets (Z.of_nat i + 1)) = Nat.min 30 (length sets - 30 * i).
Proof.
  unfold serve_page. rewrite length_take, length_drop.
  replace (Z.to_nat (30 * (Z.of_nat i + 1 - 1))) with (30 * i)%nat by lia.
  reflexivity.
Qed.

Lemma page_turn_paged st (i : nat) :
  page st = Z.of_nat i + 1 -> hasMorePages st = true ->
  requested (turn st) = (requested st ++ [page st])%list
  /\ (if Nat.ltb (length sets - 30 * i) 30
      then hasMorePages (turn st) = false
      else hasMorePages (turn st) = true /\ page (turn st) = Z.of_nat (S i) + 1).
Proof.
  intros Hpage Hmore. split; [apply page_turn_requested |].
  unfold page_turn, loadPhaseGroupSets. rewrite paged, Hpage, serve_page_length.
  set (len := Nat.min 30 (length sets - 30 * i)).
  destruct (Nat.ltb_spec (length sets - 30 * i) 30);
    destruct (Nat.ltb_spec 0 len); destruct (Nat.ltb_spec len 30);
    cbn [hasMorePages page]; try reflexivity; try lia.
  split; [exact Hmore | lia].
Qed.

Lemma pages_S count : pages (S count) = (pages count ++ [Z.of_nat count + 1])%list.
Proof.
  unfold pages. rewrite seq_S, map_app. simpl. do 2 f_equal. lia.
Qed.

Lemma page_loop_paged_from (d i : nat) st :
  (i + d = 10)%nat ->
  page st = Z.of_nat i + 1 -> hasMorePages st = true ->
  requested st = pages i ->
  (30 * i <= length sets)%nat ->
  requested (loop st) = pages (Nat.min (length sets / 30 + 1) 10).
Proof.
  revert i st. induction d as [|d IH]; intros i st Hsum Hpage Hmore Hreq Hfull.
  - assert (i = 10)%nat as -> by lia.
    rewrite page_loop_step.
    destruct (decide (hasMorePages st = true /\ page st <= 10)) as [[_ Hle] | _]; [lia |].
    rewrite Hreq. f_equal.
    pose proof (Nat.div_le_lower_bound (length sets) 30 10 ltac:(lia) Hfull). lia.
  - rewrite page_loop_step.
    destruct (decide (hasMorePages st = true /\ page st <= 10)) as [_ | Hno];
      [| exfalso; apply Hno; split; [exact Hmore | lia]].
    destruct (page_turn_paged st i Hpage Hmore) as [Hreq' Hnext].
    destruct (Nat.ltb_spec (length sets - 30 * i) 30) as [Hshort | Hlong].
    + rewrite page_loop_step.
      destruct (decide (hasMorePages (turn st) = true /\ page (turn st) <= 10))
        as [[Hmore' _] | _]; [congruence |].
      rewrite Hreq', Hreq, Hpage, <- pages_S. f_equal.
      assert (length sets / 30 = i)%nat as ->; [| lia].
      symmetry. apply (Nat.div_unique _ _ _ (length sets - 30 * i)); lia.
    + destruct Hnext as [Hmore' Hpage'].
      apply (IH (S i)); try assumption; try lia.
      rewrite Hreq', Hreq, Hpage, <- pages_S. reflexivity.
Qed.

Lemma page_loop_paged allMatches0 allPlayers0 :
  requested (loop (first_page allMatches0 allPlayers0))
  = pages (Nat.min (length sets / 30 + 1) 10).
Proof.
  apply (page_loop_paged_from 10 0); try reflexivity. lia.
Qed.

End Paged.
End PaginationFacts.

(** C8, as the code has it.  The page loop of a phase group ends, having
    asked for at most ten pages whatever the upstream answers.  When the
    upstream serves the phase group's sets thirty to a page, the pages asked
    for are 1 to [min (n / 30 + 1) 10] for n sets: one page when the first
    page is short, and [min (k + 1) 10] pages for [k * 30 + r] sets with
    [0 < r < 30]. *)
Theorem page_loop_page_requests random_suffix phaseGroupSetsQuery tournamentSlug
    phaseGroup allMatches0 allPlayers0 :
  let st :=
    StartGgApi.page_loop random_suffix phaseGroupSetsQuery tournamentSlug phaseGroup
      (StartGgApi.first_page allMatches0 allPlayers0) in
  (length (StartGgApi.requested st) <= 10)%nat
  /\ forall sets,
       (forall page,
          phaseGroupSetsQuery (StartGgApi.phaseGroup_id phaseGroup) page
          = Resolved (Some (StartGgApi.serve_page sets page))) ->
       StartGgApi.requested st
       = StartGgApi.pages (Nat.min (length sets / 30 + 1) 10)
       /\ ((length sets < 30)%nat -> StartGgApi.requested st = [1])
       /\ (forall k r : nat,
             length sets = (k * 30 + r)%nat -> (0 < r < 30)%nat ->
             length (StartGgApi.requested st) = Nat.min (k + 1) 10).
Proof.
  intros st. split.
  - apply page_loop_at_most_10; simpl; lia.
  - intros sets Hpaged.
    pose proof (page_loop_paged random_suffix phaseGroupSetsQuery tournamentSlug
                  phaseGroup sets Hpaged allMatches0 allPlayers0) as Hreq.
    fold st in Hreq. split; [exact Hreq |]. split.
    + intros Hshort. rewrite Hreq, Nat.div_small by exact Hshort. reflexivity.
    + intros k r Hlen Hr. rewrite Hreq. unfold StartGgApi.pages.
      rewrite length_map, length_seq. f_equal.
      assert (length sets / 30 = k)%nat as ->; [| reflexivity].
      symmetry. apply (Nat.div_unique _ _ _ r); lia.
Qed.

Lemma page_loop_page_requests_witness :
  StartGgApi.requested
    (StartGgApi.page_loop "x" (fixtures.paged_sets (repeat fixtures.a_set 61))
       "demo" fixtures.a_phase_group (StartGgApi.first_page [] []))
  = [1; 2; 3].
Proof.
  destruct (page_loop_page_requests "x" (fixtures.paged_sets (repeat fixtures.a_set 61))
              "demo" fixtures.a_phase_group [] []) as [_ Hpaged].
  destruct (Hpaged (repeat fixtures.a_set 61) (fun _ => eq_refl)) as [Hreq _].
  exact Hreq.
Defined.

(** A phase group of 301 = 10 * 30 + 1 sets is fetched in ten page requests,
    not in eleven. *)
Lemma page_loop_301_sets :
  let st :=
    StartGgApi.page_loop "x" (fixtures.paged_sets (repeat fixtures.a_set 301))
      "demo" fixtures.a_phase_group (StartGgApi.first_page [] []) in
  length (repeat fixtures.a_set 301) = (10 * 30 + 1)%nat
  /\ length (StartGgApi.requested st) = 10%nat
  /\ length (StartGgApi.requested st) <> (10 + 1)%nat.
Proof. vm_compute. repeat split; discriminate. Qed.

(** ** Participants *)

Section ParticipantFacts.
Import StartGgApi.
Context (random_suffix : string).
Context (phaseGroupSetsQuery : Z -> Z -> outcome (option (list rawSet))).

Lemma map_set_keys {A} k (v : A) m :
  map fst (map_set k v m)
  = if decide (k ∈ map fst m) then map fst m else (map fst m ++ [k])%list.
Proof.
  induction m as [|[k' v'] m IH]; cbn [map map_set fst app].
  - destruct (decide (k ∈ [])) as [Hin | _]; [inversion Hin | reflexivity].
  - destruct (String.eqb_spec k' k) as [-> | Hne]; cbn [map fst].
    + destruct (decide (k ∈ k :: map fst m)) as [_ | Hnot]; [reflexivity |].
      exfalso. apply Hnot. left.
    + rewrite IH.
      destruct (decide (k ∈ map fst m)) as [Hin | Hnot];
        destruct (decide (k ∈ k' :: map fst m)) as [Hin' | Hnot']; try reflexivity.
      * exfalso. apply Hnot'. right. exact Hin.
      * exfalso. apply elem_of_cons in Hin' as [-> | Hin']; contradiction.
Qed.

Lemma map_set_elements {A} (P : string * A -> Prop) k (v : A) m :
  P (k, v) -> Forall P m -> Forall P (map_set k v m).
Proof.
  intros Hkv. induction m as [|[k' v'] m IH]; simpl; intros Hm.
  - constructor; [exact Hkv | constructor].
  - apply Forall_cons in Hm as [Hhd Htl].
    destruct (String.eqb k' k); constructor; auto.
Qed.

Lemma map_set_collected player players :
  Player.tag player <> "Unknown Player" ->
  collected players -> collected (map_set (Player.id player) player players).
Proof.
  intros Htag [Hkeys Hall]. split.
  - rewrite map_set_keys. case_decide as Hnot; [exact Hkeys |].
    apply NoDup_app. split; [exact Hkeys |]. split.
    + intros k Hk Hk'. apply list_elem_of_singleton in Hk'. subst k. contradiction.
    + apply NoDup_singleton.
  - apply map_set_elements; [split; [reflexivity | exact Htag] | exact Hall].
Qed.

Lemma collect_player_collected players slot :
  collected players -> collected (collect_player random_suffix players slot).
Proof.
  intros Hc. unfold collect_player.
  destruct (entrant slot) as [e |]; [| exact Hc].
  destruct (truthy_number (entrant_id e)); [| exact Hc].
  set (player := transformPlayerData random_suffix (Some e)).
  destruct (negb (String.eqb (Player.id player) "")); cbn [andb]; [| exact Hc].
  destruct (String.eqb_spec (Player.tag player) "Unknown Player") as [_ | Htag];
    cbn [negb]; [exact Hc |].
  apply map_set_collected; assumption.
Qed.

Lemma collect_players_collected setsData players :
  collected players -> collected (collect_players random_suffix setsData players).
Proof.
  unfold collect_players. revert players.
  induction setsData as [|set setsData IH]; intros players Hc; simpl; [exact Hc |].
  apply IH. generalize (default [] (slots set)). intros l. revert players Hc.
  induction l as [|slot l IHl]; intros players Hc; simpl; [exact Hc |].
  apply IHl, collect_player_collected, Hc.
Qed.

Lemma page_turn_collected tournamentSlug phaseGroup st :
  collected (bracketPlayers st) ->
  collected (bracketPlayers
               (page_turn random_suffix phaseGroupSetsQuery tournamentSlug phaseGroup st)).
Proof.
  intros Hc. unfold page_turn. destruct (Nat.ltb 0 _); simpl; [| exact Hc].
  apply collect_players_collected, Hc.
Qed.

Lemma page_loop_collected tournamentSlug phaseGroup st :
  collected (bracketPlayers st) ->
  collected (bracketPlayers
               (page_loop random_suffix phaseGroupSetsQuery tournamentSlug phaseGroup st)).
Proof.
  remember (turns_left st) as n eqn:Hn. revert st Hn.
  induction n as [n IH] using lt_wf_ind. intros st Hn Hc.
  rewrite page_loop_step.
  destruct (decide (hasMorePages st = true /\ page st <= 10)) as [[Hmore Hle] | _];
    [| exact Hc].
  apply (IH (turns_left
               (page_turn random_suffix phaseGroupSetsQuery tournamentSlug phaseGroup st)));
    [| reflexivity | apply page_turn_collected, Hc].
  subst n. apply page_turn_turns_left; assumption.
Qed.

Lemma has_player_id_spec ids p :
  has_player_id ids p = true <-> Player.id p ∈ ids.
Proof.
  unfold has_player_id. induction ids as [|x ids IH]; simpl.
  - split; [discriminate | intros H; inversion H].
  - rewrite orb_true_iff, IH, elem_of_cons.
    destruct (String.eqb_spec (Player.id p) x); split; intros [H | H]; auto;
      congruence.
Qed.

(** The players a phase group adds to an event. *)
Lemma new_players_fresh existing players :
  collected players ->
  let newPlayers :=
    List.filter (fun p => negb (has_player_id (map Player.id existing) p))
      (map_values players) in
  placeholder_free newPlayers
  /\ NoDup (map Player.id newPlayers)
  /\ forall p, p ∈ newPlayers -> Player.id p ∉ map Player.id existing.
Proof.
  intros [Hkeys Hall]. simpl. unfold map_values.
  induction players as [|[k v] players IH]; simpl.
  - repeat split; [constructor | constructor | intros p Hp; inversion Hp].
  - apply NoDup_cons in Hkeys as [Hk Hkeys].
    apply Forall_cons in Hall as [[Hid Htag] Hall]. simpl in Hid, Htag, Hk.
    destruct (IH Hkeys Hall) as (Hfree & Hnodup & Hfresh).
    destruct (has_player_id (map Player.id existing) v) eqn:Hhas; simpl.
    + repeat split; assumption.
    + split; [constructor; assumption |]. split.
      * constructor; [| exact Hnodup]. intros Hin. apply Hk.
        apply list_elem_of_fmap in Hin as (p & Hp & Hin).
        apply list_elem_of_In, filter_In in Hin as [Hin _].
        apply list_elem_of_In, list_elem_of_fmap in Hin as ([k' p'] & -> & Hin).
        rewrite Forall_forall in Hall. destruct (Hall _ Hin) as [Hk' _].
        simpl in *. apply list_elem_of_fmap. exists (k', p'). split; [| exact Hin].
        simpl. congruence.
      * intros p Hp. apply elem_of_cons in Hp as [-> | Hp]; [| apply Hfresh, Hp].
        intros Hin. apply has_player_id_spec in Hin. congruence.
Qed.

Lemma load_phase_group_participants tournamentSlug event allMatches0 allPlayers0 phaseGroup :
  distinct_ids (TournamentEvent.participants event) ->
  placeholder_free (TournamentEvent.participants event) ->
  let event' :=
    (load_phase_group random_suffix phaseGroupSetsQuery tournamentSlug
       (event, allMatches0, allPlayers0) phaseGroup).1.1 in
  distinct_ids (TournamentEvent.participants event')
  /\ placeholder_free (TournamentEvent.participants event').
Proof.
  intros Hdistinct Hfree. unfold load_phase_group. cbn [fst TournamentEvent.participants].
  set (st := page_loop _ _ _ _ _).
  assert (Hc : collected (bracketPlayers st)).
  { apply page_loop_collected. split; constructor. }
  destruct (new_players_fresh (TournamentEvent.participants event) _ Hc)
    as (Hnew_free & Hnew_nodup & Hnew_fresh).
  split.
  - unfold distinct_ids. rewrite map_app. apply NoDup_app.
    split; [exact Hdistinct |]. split; [| exact Hnew_nodup].
    intros id Hold Hnew. apply list_elem_of_fmap in Hnew as (p & -> & Hp).
    exact (Hnew_fresh p Hp Hold).
  - apply Forall_app. split; assumption.
Qed.

(** What the phase-group path keeps: an event whose participants have
    distinct ids and no placeholder before [loadEventDetails] has them so
    afterwards.  Placeholders can only come from the entrant sample. *)
Lemma loadEventDetails_participants phaseGroupsQuery event tournamentSlug event' :
  loadEventDetails random_suffix phaseGroupsQuery phaseGroupSetsQuery event tournamentSlug
  = Resolved event' ->
  distinct_ids (TournamentEvent.participants event) ->
  placeholder_free (TournamentEvent.participants event) ->
  distinct_ids (TournamentEvent.participants event')
  /\ placeholder_free (TournamentEvent.participants event').
Proof.
  unfold loadEventDetails. intros Hload Hdistinct Hfree.
  destruct (phaseGroupsQuery tournamentSlug (TournamentEvent.id event))
    as [[[[[|[eventDetails |] rest] |]] |] | e];
    try (injection Hload as <-; split; assumption); try discriminate Hload.
  cbn [data_events] in Hload.
  destruct (phaseGroups eventDetails) as [listed |];
    [| injection Hload as <-; split; assumption].
  destruct (mapM id listed) as [groups |]; [| discriminate Hload].
  set (event0 := TournamentEvent.mk _ _ _ _ _ _) in Hload.
  assert (Hfold : forall groups acc,
            distinct_ids (TournamentEvent.participants acc.1.1) ->
            placeholder_free (TournamentEvent.participants acc.1.1) ->
            let acc' := fold_left
                          (load_phase_group random_suffix phaseGroupSetsQuery tournamentSlug)
                          groups acc in
            distinct_ids (TournamentEvent.participants acc'.1.1)
            /\ placeholder_free (TournamentEvent.participants acc'.1.1)).
  { clear. induction groups as [|g groups IH]; intros [[ev am] ap] Hd Hf; simpl;
      [split; assumption |].
    apply IH; apply (load_phase_group_participants tournamentSlug ev am ap g Hd Hf). }
  specialize (Hfold groups (event0, [], []) Hdistinct Hfree).
  destruct (fold_left _ groups (event0, [], [])) as [[ev am] ap].
  injection Hload as <-. exact Hfold.
Qed.

End ParticipantFacts.

(** C9, at an input where the code breaks it.  The tournament query returns
    an event whose entrant sample holds an entrant with an id but without a
    name or a gamer tag; the assembled tournament lists it among the
    event's participants with the placeholder tag. *)
Theorem getTournamentBySlug_placeholder_participant :
  exists tournament event,
    StartGgApi.getTournamentBySlug "x"
      (fun _ => Resolved (Some fixtures.tournament_with_nameless_entrant))
      (fun _ _ => Resolved None)
      (fun _ _ => Resolved None)
      "demo"
    = Resolved tournament
    /\ Tournament.events tournament = [event]
    /\ TournamentEvent.participants event
       = [{| Player.id := "7"; Player.tag := "Unknown Player";
             Player.name := None; Player.startggId := Some "1" |}].
Proof. do 2 eexists. vm_compute. repeat split. Qed.

(** ** The router *)

Section RouterFacts.
Import tournamentRouter.
Context {C : Type} `{!ICacheService Tournament.t C}.
Context (startgg : string -> outcome Tournament.t).


Lemma effect_journal {A} now (a : action A) (w : world C) :
  journal (snd (effect startgg now a w)) = journal w.
Proof. destruct a; reflexivity. Qed.

Lemma perform_journal {A} request now (a : action A) (w : world C) :
  journal (snd (perform startgg request now a w))
  = (journal w ++ [(request, describe a)])%list.
Proof.
  unfold perform. pose proof (effect_journal now a w) as Hj.
  destruct (effect startgg now a w) as [r w']. simpl in *. rewrite Hj. reflexivity.
Qed.











End RouterFacts.








(** Two concurrent reads while the upstream fails: each makes its own call
    and each replies 500 with the message of the failure. *)
Example concurrent_reads_failed_fetch :
  let failing : string -> outcome Tournament.t :=
    fun _ => Rejected "Server Error: start.gg API is temporarily unavailable (503)" in
  let p := tournamentRouter.run_all failing
             [(0%nat, 1000); (1%nat, 1000); (0%nat, 1001); (1%nat, 1001);
              (0%nat, 1500); (1%nat, 1500)]
             (tournamentRouter.concurrent_reads "demo" 2 fixtures.cold) in
  tournamentRouter.requests p
  = replicate 2
      (tournamentRouter.Ret
         (tournamentRouter.status_json 500
            (tournamentRouter.error_body
               "Server Error: start.gg API is temporarily unavailable (503)" "backend")))
  /\ length (tournamentRouter.fetches_of 0 (tournamentRouter.state p)) = 1%nat
  /\ length (tournamentRouter.fetches_of 1 (tournamentRouter.state p)) = 1%nat.
Proof. vm_compute. repeat split. Qed.


(** ** The cache service the factory builds *)

Section WiredFacts.
Context {V C : Type} `{!JSON V} `{!Redis C}.
Implicit Types s : gmap string (CacheEntry.t V)
                   + FallbackCacheService.t
                       (RedisCacheService.t C + gmap string (CacheEntry.t V)).

Lemma createCacheService_wired redisUrl :
  factory.wired (factory.createCacheService (V := V) (C := C) redisUrl).
Proof.
  unfold factory.createCacheService.
  destruct redisUrl as [url |]; [| exact I].
  destruct (String.eqb url ""); [exact I |].
  destruct (RedisCacheService.new url) as [redisCache | e]; [| exact I].
  simpl. eauto.
Qed.

(** On such a service [set] always resolves: the in-memory cache takes the
    write whatever the Redis cache does. *)
Lemma wired_set now key value ttlSeconds s :
  factory.wired s ->
  exists s', ICacheService.set now key value ttlSeconds s = (Resolved tt, s')
             /\ factory.wired s'.
Proof.
  destruct s as [memoryCache | fallback]; intros Hwired.
  - eexists. split; [reflexivity | exact I].
  - destruct Hwired as (redisCache & memoryCache & Hcaches).
    destruct fallback as [caches]. simpl in Hcaches. subst caches.
    cbn [ICacheService.set sum_service on_right fst snd FallbackCacheService.service].
    unfold FallbackCacheService.set, FallbackCacheService.set_run.
    cbn [FallbackCacheService.caches FallbackCacheService.set_all].
    cbn [ICacheService.set sum_service on_left on_right fst snd
         InMemoryCacheService.service].
    destruct (ICacheService.set now key value ttlSeconds redisCache) as [[[] | e] redisCache'];
      cbn; eexists; (split; [reflexivity |]); do 2 eexists; reflexivity.
Qed.

Lemma wired_get now key s :
  factory.wired s ->
  exists r s', ICacheService.get now key s = (Resolved r, s') /\ factory.wired s'.
Proof.
  destruct s as [memoryCache | fallback]; intros Hwired.
  - cbn [ICacheService.get sum_service on_left InMemoryCacheService.service].
    destruct (InMemoryCacheService.get now key memoryCache) as [r memoryCache'].
    do 2 eexists. split; [reflexivity | exact I].
  - destruct Hwired as (redisCache & memoryCache & Hcaches).
    destruct fallback as [caches]. simpl in Hcaches. subst caches.
    cbn [ICacheService.get sum_service on_right fst snd FallbackCacheService.service].
    unfold FallbackCacheService.get, FallbackCacheService.get_read.
    cbn [FallbackCacheService.caches FallbackCacheService.get_from].
    cbn [ICacheService.get sum_service on_left on_right fst snd
         InMemoryCacheService.service].
    destruct (ICacheService.get now key redisCache) as [[[v |] | e] redisCache'];
      destruct (InMemoryCacheService.get now key memoryCache) as [[v' |] memoryCache'];
      cbn; do 2 eexists; (split; [reflexivity |]); do 2 eexists; reflexivity.
Qed.

Lemma wired_getMetadata now key s :
  factory.wired s ->
  exists r s', ICacheService.getMetadata now key s = (Resolved r, s') /\ factory.wired s'.
Proof.
  destruct s as [memoryCache | fallback]; intros Hwired.
  - cbn [ICacheService.getMetadata sum_service on_left InMemoryCacheService.service].
    destruct (InMemoryCacheService.getMetadata now key memoryCache) as [r memoryCache'].
    do 2 eexists. split; [reflexivity | exact I].
  - destruct Hwired as (redisCache & memoryCache & Hcaches).
    destruct fallback as [caches]. simpl in Hcaches. subst caches.
    cbn [ICacheService.getMetadata sum_service on_right fst snd FallbackCacheService.service].
    unfold FallbackCacheService.getMetadata.
    cbn [FallbackCacheService.caches FallbackCacheService.getMetadata_from].
    cbn [ICacheService.getMetadata sum_service on_left on_right fst snd
         InMemoryCacheService.service].
    destruct (ICacheService.getMetadata now key redisCache) as [[[v |] | e] redisCache'];
      destruct (InMemoryCacheService.getMetadata now key memoryCache)
        as [[v' |] memoryCache'];
      cbn; do 2 eexists; (split; [reflexivity |]); do 2 eexists; reflexivity.
Qed.

End WiredFacts.

(** ** Reads through the router *)

Section ReadFacts.
Import tournamentRouter.
Context {C : Type} `{!ICacheService Tournament.t C}.
Context (startgg : string -> outcome Tournament.t).

Lemma run_Await {R A} clock n (a : action A) (k : Z -> outcome A -> prog R) (w : world C) :
  run startgg clock n (Await a k) w
  = run startgg clock (S n) (k (clock n) (fst (perform startgg 0 (clock n) a w)))
      (snd (perform startgg 0 (clock n) a w)).
Proof. cbn [run]. destruct (perform startgg 0 (clock n) a w). reflexivity. Qed.

Lemma perform_cache {A} request now (a : action A) (w : world C) :
  cacheService (snd (perform startgg request now a w))
  = cacheService (snd (effect startgg now a w))
  /\ in_flight (snd (perform startgg request now a w))
     = in_flight (snd (effect startgg now a w))
  /\ fst (perform startgg request now a w) = fst (effect startgg now a w).
Proof. unfold perform. destruct (effect startgg now a w). auto. Qed.

(** The run of [fetch_and_cache] when the upstream fetch succeeds: the
    reply is decided by how the cache write settles. *)
Lemma run_fetch_and_cache slug tournament clock n (w : world C) :
  startgg slug = Resolved tournament ->
  let ttl := ttl_calculator.calculateDynamicTTL (clock (S n)) tournament in
  let written :=
    ICacheService.set (clock (S (S n))) (cacheKey slug) tournament ttl (cacheService w) in
  exists w',
    run startgg clock n
      (try_catch (fetch_and_cache slug)
         (fun message => Ret (status_json 500 (error_body message "backend")))) w
    = (Resolved
         match fst written with
         | Resolved _ =>
             json (tournament_body
                     {| data := tournament; cached := false;
                        cachedAt := Some (clock (S (S n)));
                        ttl := Some ttl;
                        matchState :=
                          ttl_calculator.getMatchStateMetadata (clock (S n)) tournament |})
         | Rejected message => status_json 500 (error_body message "backend")
         end, w')
    /\ cacheService w' = snd written.
Proof.
  intros Hup ttl written.
  unfold fetch_and_cache, getTournamentBySlug, await. cbn [try_catch].
  rewrite run_Await.
  destruct (perform_cache 0 (clock n) (startgg_call slug) w) as (Hc1 & _ & _).
  set (w1 := snd (perform startgg 0 (clock n) (startgg_call slug) w)) in *.
  rewrite run_Await.
  destruct (perform_cache 0 (clock (S n)) (startgg_settle slug) w1) as (Hc2 & _ & Hr2).
  set (w2 := snd (perform startgg 0 (clock (S n)) (startgg_settle slug) w1)) in *.
  rewrite Hr2. cbn [effect fst snd cacheService] in Hc1, Hc2 |- *.
  rewrite Hup. cbn [try_catch]. rewrite run_Await.
  destruct (perform_cache 0 (clock (S (S n)))
              (cache_set (cacheKey slug) tournament ttl) w2) as (Hc3 & _ & Hr3).
  fold ttl. rewrite Hr3. cbn [effect on_cache fst snd cacheService] in Hc3 |- *.
  rewrite Hc2, Hc1 in *. fold written.
  eexists. split; [| exact Hc3].
  destruct (fst written) as [[] | message]; reflexivity.
Qed.

(** The run of [GET /:slug] up to the upstream fetch: with [refresh=true]
    the cache is bypassed; otherwise the request goes upstream when the
    cache read returns null. *)
Lemma run_get_tournament_upstream slug refresh clock (w : world C) :
  refresh = Some "true"
  \/ fst (ICacheService.get (clock 0%nat) (cacheKey slug) (cacheService w)) = Resolved None ->
  exists n w1,
    run startgg clock 0 (get_tournament slug refresh) w
    = run startgg clock n
        (try_catch (fetch_and_cache slug)
           (fun message => Ret (status_json 500 (error_body message "backend")))) w1
    /\ (refresh = Some "true" -> n = 0%nat /\ w1 = w)
    /\ (refresh <> Some "true" ->
        n = 1%nat
        /\ cacheService w1
           = snd (ICacheService.get (clock 0%nat) (cacheKey slug) (cacheService w)))
    /\ List.filter is_set (journal w1) = List.filter is_set (journal w).
Proof.
  intros Hmiss. unfold get_tournament.
  destruct (bool_decide_reflect (refresh = Some "true")) as [Hrefresh | Hread].
  - exists 0%nat, w. cbn [negb]. repeat split; intros; congruence.
  - destruct Hmiss as [Hrefresh | Hnull]; [contradiction |].
    cbn [negb]. unfold await at 1. cbn [try_catch]. rewrite run_Await.
    destruct (perform_cache 0 (clock 0%nat) (cache_get (cacheKey slug)) w) as (Hc & _ & Hr).
    pose proof (perform_journal startgg 0 (clock 0%nat) (cache_get (cacheKey slug)) w) as Hj.
    rewrite Hr. cbn [effect on_cache fst snd cacheService] in Hc |- *.
    rewrite Hnull. do 2 eexists. split; [reflexivity |].
    split; [intros; contradiction |]. split; [intros _; split; [reflexivity | exact Hc] |].
    rewrite Hj, List.filter_app. cbn. apply app_nil_r.
Qed.

(** The run of [fetch_and_cache] when the upstream fetch fails: the failure
    is caught and sent as a 500, and the cache is not written. *)
Lemma run_fetch_and_cache_rejected slug message clock n (w : world C) :
  startgg slug = Rejected message ->
  exists w',
    run startgg clock n
      (try_catch (fetch_and_cache slug)
         (fun message => Ret (status_json 500 (error_body message "backend")))) w
    = (Resolved (status_json 500 (error_body message "backend")), w')
    /\ cacheService w' = cacheService w
    /\ List.filter is_set (journal w') = List.filter is_set (journal w).
Proof.
  intros Hup.
  unfold fetch_and_cache, getTournamentBySlug, await. cbn [try_catch].
  rewrite run_Await.
  destruct (perform_cache 0 (clock n) (startgg_call slug) w) as (Hc1 & _ & _).
  pose proof (perform_journal startgg 0 (clock n) (startgg_call slug) w) as Hj1.
  set (w1 := snd (perform startgg 0 (clock n) (startgg_call slug) w)) in *.
  rewrite run_Await.
  destruct (perform_cache 0 (clock (S n)) (startgg_settle slug) w1) as (Hc2 & _ & Hr2).
  pose proof (perform_journal startgg 0 (clock (S n)) (startgg_settle slug) w1) as Hj2.
  set (w2 := snd (perform startgg 0 (clock (S n)) (startgg_settle slug) w1)) in *.
  rewrite Hr2. cbn [effect fst snd cacheService] in Hc1, Hc2 |- *.
  rewrite Hup. cbn [try_catch run].
  eexists. split; [reflexivity |]. split; [congruence |].
  rewrite Hj2, Hj1, !List.filter_app. cbn. rewrite !app_nil_r. reflexivity.
Qed.

(** The router itself does not guard the cache write: were [cacheService.set]
    to reject, the reply would be a 500 carrying its message. *)
Lemma get_tournament_rejected_set slug tournament message clock (w : world C) :
  startgg slug = Resolved tournament ->
  fst (ICacheService.set (clock 2%nat) (cacheKey slug) tournament
         (ttl_calculator.calculateDynamicTTL (clock 1%nat) tournament) (cacheService w))
  = Rejected message ->
  fst (run startgg clock 0 (get_tournament slug (Some "true")) w)
  = Resolved (status_json 500 (error_body message "backend")).
Proof.
  intros Hup Hset.
  destruct (run_get_tournament_upstream slug (Some "true") clock w (or_introl eq_refl))
    as (n & w1 & Hrun & Hrefresh & _ & _).
  destruct (Hrefresh eq_refl) as [-> ->]. rewrite Hrun.
  destruct (run_fetch_and_cache slug tournament clock 0 w Hup) as (w' & Hfetch & _).
  rewrite Hfetch. cbn [fst]. rewrite Hset. reflexivity.
Qed.

(** The run of [GET /:slug] on a cache hit. *)
Lemma run_get_tournament_hit slug refresh cached clock (w : world C) s1 described s2 :
  refresh <> Some "true" ->
  ICacheService.get (clock 0%nat) (cacheKey slug) (cacheService w)
  = (Resolved (Some cached), s1) ->
  ICacheService.getMetadata (clock 1%nat) (cacheKey slug) s1 = (described, s2) ->
  exists w',
    run startgg clock 0 (get_tournament slug refresh) w
    = (Resolved
         match described with
         | Resolved metadata =>
             json (tournament_body
                     {| data := cached; cached := true;
                        cachedAt := CacheMetadata.createdAt <$> metadata;
                        ttl := CacheMetadata.ttl <$> metadata;
                        matchState :=
                          ttl_calculator.getMatchStateMetadata (clock 1%nat) cached |})
         | Rejected message => status_json 500 (error_body message "backend")
         end, w')
    /\ cacheService w' = s2
    /\ List.filter is_call (journal w') = List.filter is_call (journal w).
Proof.
  intros Hread Hhit Hdescribed. unfold get_tournament.
  destruct (bool_decide_reflect (refresh = Some "true")) as [Hrefresh | _];
    [contradiction |].
  cbn [negb]. unfold await at 1. cbn [try_catch]. rewrite run_Await.
  destruct (perform_cache 0 (clock 0%nat) (cache_get (cacheKey slug)) w) as (Hc & _ & Hr).
  pose proof (perform_journal startgg 0 (clock 0%nat) (cache_get (cacheKey slug)) w) as Hj.
  set (w1 := snd (perform startgg 0 (clock 0%nat) (cache_get (cacheKey slug)) w)) in *.
  rewrite Hr. cbn [effect on_cache fst snd cacheService] in Hc |- *.
  rewrite Hhit in Hc |- *. cbn [fst snd] in Hc |- *.
  unfold await. cbn [try_catch]. rewrite run_Await.
  destruct (perform_cache 0 (clock 1%nat) (cache_getMetadata (cacheKey slug)) w1)
    as (Hc' & _ & Hr').
  pose proof (perform_journal startgg 0 (clock 1%nat)
                (cache_getMetadata (cacheKey slug)) w1) as Hj'.
  rewrite Hr'. cbn [effect on_cache fst snd cacheService] in Hc' |- *.
  rewrite Hc, Hdescribed in Hc' |- *. cbn [fst snd] in Hc' |- *.
  eexists. split; [| split; [exact Hc' |]].
  - destruct described as [metadata | message]; reflexivity.
  - destruct described as [metadata | message]; cbn [try_catch run snd];
      rewrite Hj', Hj, !List.filter_app; cbn; rewrite !app_nil_r; reflexivity.
Qed.

(** The handler on any cache service.  When a read went upstream (the
    cache was bypassed or returned null) and the upstream fetch succeeded,
    the reply follows how [cacheService.set] settles: the fresh tournament
    with [cached: false] and the computed TTL when it resolves. *)
Lemma get_tournament_cache_write slug refresh tournament clock (w : world C) :
  startgg slug = Resolved tournament ->
  refresh = Some "true"
  \/ fst (ICacheService.get (clock 0%nat) (cacheKey slug) (cacheService w)) = Resolved None ->
  exists n s1 w',
    (refresh = Some "true" -> n = 0%nat /\ s1 = cacheService w)
    /\ (refresh <> Some "true" ->
        n = 1%nat
        /\ s1 = snd (ICacheService.get (clock 0%nat) (cacheKey slug) (cacheService w)))
    /\ let ttl := ttl_calculator.calculateDynamicTTL (clock (S n)) tournament in
       let written := ICacheService.set (clock (S (S n))) (cacheKey slug) tournament ttl s1 in
       run startgg clock 0 (get_tournament slug refresh) w
       = (Resolved
            match fst written with
            | Resolved _ =>
                json (tournament_body
                        {| data := tournament; cached := false;
                           cachedAt := Some (clock (S (S n)));
                           ttl := Some ttl;
                           matchState :=
                             ttl_calculator.getMatchStateMetadata (clock (S n)) tournament |})
            | Rejected message => status_json 500 (error_body message "backend")
            end, w')
       /\ cacheService w' = snd written.
Proof.
  intros Hup Hupstream.
  destruct (run_get_tournament_upstream slug refresh clock w Hupstream)
    as (n & w1 & Hrun & Hrefresh & Hread & _).
  destruct (run_fetch_and_cache slug tournament clock n w1 Hup) as (w' & Hfetch & Hcache).
  exists n, (cacheService w1), w'. split; [| split].
  - intros Hyes. destruct (Hrefresh Hyes) as [-> ->]. split; reflexivity.
  - intros Hno. destruct (Hread Hno) as [-> ->]. split; reflexivity.
  - cbv zeta. rewrite Hrun. split; [exact Hfetch | exact Hcache].
Qed.

End ReadFacts.

Section WiredReadFacts.
Import tournamentRouter.
Context {C : Type} `{!JSON Tournament.t} `{!Redis C}.
Context (startgg : string -> outcome Tournament.t).

Local Abbreviation service :=
  (gmap string (CacheEntry.t Tournament.t)
   + FallbackCacheService.t
       (RedisCacheService.t C + gmap string (CacheEntry.t Tournament.t)))%type.

(** C3.  The router's [cacheService] is the one [createCacheService]
    builds: the in-memory cache alone, or the chain of the Redis cache and
    the in-memory cache, in whatever state the requests so far have left
    it.  On it, whatever the Redis cache does (it may be disconnected, or
    reject any command, the write included), a read whose upstream fetch
    succeeds is answered with status 200; and when the read went upstream
    (the cache was bypassed or returned null) the reply carries the fresh
    tournament with [cached: false] and the computed TTL.  A fault of the
    cache write is recovered inside the cache service and never reaches the
    client. *)
Theorem get_tournament_cache_faults_recovered slug refresh tournament clock
    (w : world service) :
  factory.wired (cacheService w) ->
  startgg slug = Resolved tournament ->
  (exists r w',
     run startgg clock 0 (get_tournament slug refresh) w = (Resolved r, w')
     /\ status r = 200
     /\ factory.wired (cacheService w'))
  /\ (refresh = Some "true"
      \/ fst (ICacheService.get (clock 0%nat) (cacheKey slug) (cacheService w))
         = Resolved None ->
      let n := if bool_decide (refresh = Some "true") then 0%nat else 1%nat in
      exists w',
        run startgg clock 0 (get_tournament slug refresh) w
        = (Resolved
             (json (tournament_body
                      {| data := tournament; cached := false;
                         cachedAt := Some (clock (S (S n)));
                         ttl := Some (ttl_calculator.calculateDynamicTTL (clock (S n)) tournament);
                         matchState :=
                           ttl_calculator.getMatchStateMetadata (clock (S n)) tournament |})),
           w')
        /\ factory.wired (cacheService w')).
Proof.
  intros Hwired Hup.
  assert (Hfresh :
    refresh = Some "true"
    \/ fst (ICacheService.get (clock 0%nat) (cacheKey slug) (cacheService w))
       = Resolved None ->
    let n := if bool_decide (refresh = Some "true") then 0%nat else 1%nat in
    exists w',
      run startgg clock 0 (get_tournament slug refresh) w
      = (Resolved
           (json (tournament_body
                    {| data := tournament; cached := false;
                       cachedAt := Some (clock (S (S n)));
                       ttl := Some (ttl_calculator.calculateDynamicTTL (clock (S n)) tournament);
                       matchState :=
                         ttl_calculator.getMatchStateMetadata (clock (S n)) tournament |})),
         w')
      /\ factory.wired (cacheService w')).
  { intros Hmiss n.
    destruct (run_get_tournament_upstream startgg slug refresh clock w Hmiss)
      as (n' & w1 & Hrun & Hrefresh & Hread & _).
    assert (Hn : n' = n /\ factory.wired (cacheService w1)).
    { unfold n. destruct (bool_decide_reflect (refresh = Some "true")) as [Hyes | Hno].
      - destruct (Hrefresh Hyes) as [-> ->]. split; [reflexivity | exact Hwired].
      - destruct (Hread Hno) as [-> ->]. split; [reflexivity |].
        destruct (wired_get (clock 0%nat) (cacheKey slug) (cacheService w) Hwired)
          as (r & s' & Hget & Hs'). rewrite Hget. exact Hs'. }
    destruct Hn as [-> Hwired1].
    destruct (run_fetch_and_cache startgg slug tournament clock n w1 Hup)
      as (w' & Hfetch & Hcache).
    destruct (wired_set (clock (S (S n))) (cacheKey slug) tournament
                (ttl_calculator.calculateDynamicTTL (clock (S n)) tournament)
                (cacheService w1) Hwired1) as (s' & Hset & Hs').
    rewrite Hset in Hfetch, Hcache. cbn [fst snd] in Hfetch, Hcache.
    exists w'. rewrite Hrun, Hfetch, Hcache. split; [reflexivity | exact Hs']. }
  split; [| exact Hfresh].
  destruct (wired_get (clock 0%nat) (cacheKey slug) (cacheService w) Hwired)
    as (r & s' & Hget & Hs').
  destruct (decide (refresh = Some "true")) as [Hyes | Hno].
  - destruct (Hfresh (or_introl Hyes)) as (w' & Hrun & Hw').
    do 2 eexists. split; [exact Hrun |]. split; [reflexivity | exact Hw'].
  - destruct r as [cached |].
    + destruct (wired_getMetadata (clock 1%nat) (cacheKey slug) s' Hs')
        as (metadata & s'' & Hmeta & Hs'').
      destruct (run_get_tournament_hit startgg slug refresh cached clock w
                  s' (Resolved metadata) s'' Hno Hget Hmeta)
        as (w' & Hrun & Hcache & _).
      do 2 eexists. split; [exact Hrun |]. split; [reflexivity |].
      rewrite Hcache. exact Hs''.
    + assert (Hnull : fst (ICacheService.get (clock 0%nat) (cacheKey slug) (cacheService w))
                      = Resolved None) by (rewrite Hget; reflexivity).
      destruct (Hfresh (or_intror Hnull)) as (w' & Hrun & Hw').
      do 2 eexists. split; [exact Hrun |]. split; [reflexivity | exact Hw'].
Qed.

End WiredReadFacts.

(** The factory's chain with a Redis cache that is connected but rejects
    every command: the Redis write is rejected, the in-memory write
    succeeds, the reply is fresh. *)
Lemma get_tournament_cache_faults_recovered_witness :
  fst (RedisCacheService.set (JSON0 := fixtures.json_tournament)
         (Redis0 := fixtures.unreachable)
         1002 "tournament:demo" fixtures.demo 600 fixtures.redis_failing)
  = Rejected "Connection is closed."
  /\ exists w',
       tournamentRouter.run
         (ICacheService0 := fixtures.tournament_service)
         fixtures.startgg_demo fixtures.milliseconds 0
         (tournamentRouter.get_tournament "demo" (Some "true")) fixtures.degraded
       = (Resolved
            (tournamentRouter.json
               (tournamentRouter.tournament_body
                  {| tournamentRouter.data := fixtures.demo;
                     tournamentRouter.cached := false;
                     tournamentRouter.cachedAt := Some 1002;
                     tournamentRouter.ttl := Some 600;
                     tournamentRouter.matchState :=
                       ttl_calculator.getMatchStateMetadata 1001 fixtures.demo |})),
          w').
Proof.
  split; [reflexivity |].
  assert (Hwired : factory.wired
                     (tournamentRouter.cacheService fixtures.degraded))
    by (do 2 eexists; reflexivity).
  destruct (proj2 (@get_tournament_cache_faults_recovered unit fixtures.json_tournament
                     fixtures.unreachable fixtures.startgg_demo "demo" (Some "true")
                     fixtures.demo fixtures.milliseconds fixtures.degraded
                     Hwired eq_refl)
              (or_introl eq_refl)) as (w' & Hrun & _).
  exists w'. exact Hrun.
Defined.

Section NotFoundFacts.
Import tournamentRouter.
Context {C : Type} `{!ICacheService Tournament.t C}.
Context (random_suffix : string).
Context (tournamentQuery : string -> outcome (option StartGgApi.rawTournament)).
Context (phaseGroupsQuery :
           string -> string -> outcome (option StartGgApi.phaseGroupData)).
Context (phaseGroupSetsQuery : Z -> Z -> outcome (option (list StartGgApi.rawSet))).

Local Abbreviation startgg :=
  (StartGgApi.getTournamentBySlug random_suffix tournamentQuery phaseGroupsQuery
     phaseGroupSetsQuery).

(** C4, as the code has it.  When the upstream reports that the tournament
    does not exist, [getTournamentBySlug] throws the not-found error; a
    read that went upstream (the cache was bypassed or returned null)
    answers with status 500 and that error's message, and writes nothing
    to the cache. *)
Theorem get_tournament_not_found slug refresh clock (w : world C) :
  tournamentQuery slug = Resolved None ->
  refresh = Some "true"
  \/ fst (ICacheService.get (clock 0%nat) (cacheKey slug) (cacheService w)) = Resolved None ->
  exists w',
    run startgg clock 0 (get_tournament slug refresh) w
    = (Resolved (status_json 500
                   (error_body (StartGgApi.not_found_message slug) "backend")), w')
    /\ List.filter is_set (journal w') = List.filter is_set (journal w)
    /\ (refresh = Some "true" -> cacheService w' = cacheService w)
    /\ (refresh <> Some "true" ->
        cacheService w'
        = snd (ICacheService.get (clock 0%nat) (cacheKey slug) (cacheService w))).
Proof.
  intros Hmissing Hupstream.
  assert (Hthrown : startgg slug = Rejected (StartGgApi.not_found_message slug)).
  { unfold StartGgApi.getTournamentBySlug. rewrite Hmissing. reflexivity. }
  destruct (run_get_tournament_upstream startgg slug refresh clock w Hupstream)
    as (n & w1 & Hrun & Hrefresh & Hread & Hsets).
  destruct (run_fetch_and_cache_rejected startgg slug _ clock n w1 Hthrown)
    as (w' & Hfetch & Hcache & Hsets').
  exists w'. rewrite Hrun, Hfetch. split; [reflexivity |].
  split; [congruence |]. split.
  - intros Hyes. destruct (Hrefresh Hyes) as [_ ->]. exact Hcache.
  - intros Hno. destruct (Hread Hno) as [_ <-]. exact Hcache.
Qed.

End NotFoundFacts.

Lemma get_tournament_not_found_witness :
  exists w',
    tournamentRouter.run
      (StartGgApi.getTournamentBySlug "x" (fun _ => Resolved None)
         (fun _ _ => Resolved None) (fun _ _ => Resolved None))
      fixtures.milliseconds 0
      (tournamentRouter.get_tournament "nope" None) fixtures.cold
    = (Resolved (tournamentRouter.status_json 500
                   (tournamentRouter.error_body
                      (StartGgApi.not_found_message "nope") "backend")), w').
Proof.
  assert (Hnull : fst (ICacheService.get (fixtures.milliseconds 0)
                         (tournamentRouter.cacheKey "nope")
                         (tournamentRouter.cacheService fixtures.cold))
                  = Resolved None) by (vm_compute; reflexivity).
  destruct (get_tournament_not_found "x" (fun _ => Resolved None)
              (fun _ _ => Resolved None) (fun _ _ => Resolved None)
              "nope" None fixtures.milliseconds fixtures.cold eq_refl
              (or_intror Hnull))
    as (w' & Hrun & _).
  exists w'. exact Hrun.
Defined.

(** A read of a tournament the upstream does not know is answered with
    status 500, not 404. *)
Lemma get_tournament_not_found_is_500 :
  let r :=
    fst (tournamentRouter.run
           (StartGgApi.getTournamentBySlug "x" (fun _ => Resolved None)
              (fun _ _ => Resolved None) (fun _ _ => Resolved None))
           fixtures.milliseconds 0
           (tournamentRouter.get_tournament "nope" None) fixtures.cold) in
  tournamentRouter.status <$> (match r with Resolved r => Some r | Rejected _ => None end)
  = Some 500
  /\ tournamentRouter.status <$> (match r with Resolved r => Some r | Rejected _ => None end)
     <> Some 404.
Proof. vm_compute. split; [reflexivity | discriminate]. Qed.

(** * Further properties of the cache backends *)

Section InMemoryMore.
Context {V : Type}.
Implicit Types (cache : gmap string (CacheEntry.t V)) (key : string) (value : V).

(** X1.  TTL round trip.  After [set] with a TTL, as long as the clock has
    not reached [now + ttlSeconds * 1000], [get] returns the value and
    leaves the cache as it is, [exists] answers true, and [getMetadata]
    reports the creation and expiry instants together with the whole
    seconds that remain, a number between 0 and [ttlSeconds]. *)
Theorem InMemory_set_get_round_trip cache now key value ttlSeconds now' :
  now <= now' < now + ttlSeconds * 1000 ->
  let cache' := InMemoryCacheService.set now key value ttlSeconds cache in
  InMemoryCacheService.get now' key cache' = (Some value, cache')
  /\ InMemoryCacheService.exists_ now' key cache' = (true, cache')
  /\ exists metadata,
       InMemoryCacheService.getMetadata now' key cache' = (Some metadata, cache')
       /\ CacheMetadata.key metadata = key
       /\ CacheMetadata.createdAt metadata = now
       /\ CacheMetadata.expiresAt metadata = now + ttlSeconds * 1000
       /\ CacheMetadata.ttl metadata = (now + ttlSeconds * 1000 - now') / 1000
       /\ 0 <= CacheMetadata.ttl metadata <= ttlSeconds.
Proof.
  intros Hlive cache'.
  pose proof (InMemory_set_lookup cache now key value ttlSeconds) as Hlookup.
  fold cache' in Hlookup.
  unfold InMemoryCacheService.get, InMemoryCacheService.exists_,
    InMemoryCacheService.getMetadata.
  rewrite Hlookup. cbn [CacheEntry.expiresAt CacheEntry.data CacheEntry.createdAt].
  destruct (Z.leb_spec (now + ttlSeconds * 1000) now') as [Hdead | _]; [lia |].
  split; [reflexivity |]. split; [reflexivity |].
  eexists. split; [reflexivity |]. cbn.
  repeat split; try reflexivity.
  - apply Z.div_pos; lia.
  - apply Z.div_le_upper_bound; lia.
Qed.

(** X2.  [set] replaces, it never merges: writing a key twice leaves the
    cache that the second write alone would leave on the same cache; and a
    write does not change what a read of any other key returns. *)
Theorem InMemory_set_overwrites cache now1 now2 key value1 value2 ttl1 ttl2 :
  InMemoryCacheService.set now2 key value2 ttl2
    (InMemoryCacheService.set now1 key value1 ttl1 cache)
  = InMemoryCacheService.set now2 key value2 ttl2 cache
  /\ forall other now',
       other <> key ->
       fst (InMemoryCacheService.get now' other
              (InMemoryCacheService.set now1 key value1 ttl1 cache))
       = fst (InMemoryCacheService.get now' other cache).
Proof.
  split.
  - unfold InMemoryCacheService.set. apply insert_insert_eq.
  - intros other now' Hne. unfold InMemoryCacheService.get, InMemoryCacheService.set.
    rewrite lookup_insert_ne by congruence.
    destruct (cache !! other) as [entry |]; [| reflexivity].
    destruct (CacheEntry.expiresAt entry <=? now'); reflexivity.
Qed.

(** X3.  [del] removes the key for all three readers, succeeds silently on
    an absent key (the cache is unchanged), and leaves every other key's
    entry in place. *)
Theorem InMemory_del_removes cache key :
  let cache' := InMemoryCacheService.del key cache in
  (forall now,
     InMemoryCacheService.get now key cache' = (None, cache')
     /\ InMemoryCacheService.exists_ now key cache' = (false, cache')
     /\ InMemoryCacheService.getMetadata now key cache' = (None, cache'))
  /\ (cache !! key = None -> cache' = cache)
  /\ (forall other, other <> key -> cache' !! other = cache !! other).
Proof.
  intros cache'. unfold cache', InMemoryCacheService.del. split; [| split].
  - intros now. unfold InMemoryCacheService.get, InMemoryCacheService.exists_,
      InMemoryCacheService.getMetadata.
    rewrite lookup_delete_eq. auto.
  - apply delete_id.
  - intros other Hne. apply lookup_delete_ne. congruence.
Qed.

(** X4.  No resurrection.  A value returned by [get] comes from an entry
    that is stored under the key and has not expired; when [get] returns
    null the key is absent afterwards, so a later [get] returns null too,
    whatever the clock reads; and a read never touches another key. *)
Theorem InMemory_get_never_resurrects cache now key :
  let r := fst (InMemoryCacheService.get now key cache) in
  let cache' := snd (InMemoryCacheService.get now key cache) in
  (forall value,
     r = Some value ->
     exists entry,
       cache !! key = Some entry /\ CacheEntry.data entry = value
       /\ now < CacheEntry.expiresAt entry /\ cache' = cache)
  /\ (r = None ->
      cache' !! key = None
      /\ forall now', InMemoryCacheService.get now' key cache' = (None, cache'))
  /\ (forall other, other <> key -> cache' !! other = cache !! other).
Proof.
  unfold InMemoryCacheService.get.
  destruct (cache !! key) as [entry |] eqn:Hlookup; cbn zeta.
  - destruct (Z.leb_spec (CacheEntry.expiresAt entry) now) as [Hdead | Hlive]; cbn.
    + split; [discriminate |]. split.
      * intros _. split; [apply lookup_delete_eq |].
        intros now'. rewrite lookup_delete_eq. reflexivity.
      * intros other Hne. apply lookup_delete_ne. congruence.
    + split; [| split; [discriminate | reflexivity]].
      intros value Hvalue. injection Hvalue as <-. exists entry. auto.
  - cbn. split; [discriminate |]. split; [| reflexivity].
    intros _. split; [exact Hlookup |]. intros now'. rewrite Hlookup. reflexivity.
Qed.

(** X5.  The periodic sweep keeps exactly the entries that have not
    expired, and a reader cannot tell whether it ran: at any clock reading
    from the sweep on, [get] returns the same with or without it. *)
Theorem InMemory_cleanExpired_invisible cache now :
  let swept := InMemoryCacheService.cleanExpired now cache in
  (forall key entry,
     swept !! key = Some entry
     <-> cache !! key = Some entry /\ now < CacheEntry.expiresAt entry)
  /\ (forall key now',
        now <= now' ->
        fst (InMemoryCacheService.get now' key swept)
        = fst (InMemoryCacheService.get now' key cache)).
Proof.
  intros swept.
  assert (Hswept : forall key entry,
            swept !! key = Some entry
            <-> cache !! key = Some entry /\ now < CacheEntry.expiresAt entry).
  { intros key entry. unfold swept, InMemoryCacheService.cleanExpired.
    rewrite map_lookup_filter_Some. cbn.
    destruct (Z.leb_spec (CacheEntry.expiresAt entry) now); cbn; intuition (try lia; try discriminate). }
  split; [exact Hswept |].
  intros key now' Hlater. unfold InMemoryCacheService.get.
  destruct (swept !! key) as [entry |] eqn:Hs.
  - apply Hswept in Hs as [-> Hlive].
    destruct (CacheEntry.expiresAt entry <=? now'); reflexivity.
  - destruct (cache !! key) as [entry |] eqn:Hc; [| reflexivity].
    destruct (Z.leb_spec (CacheEntry.expiresAt entry) now') as [_ | Hlive]; [reflexivity |].
    exfalso. assert (Hkept : swept !! key = Some entry) by (apply Hswept; split; [exact Hc | lia]).
    congruence.
Qed.

(** X6.  The three readers agree: [exists] answers true exactly when [get]
    returns a value, [getMetadata] returns metadata exactly then, and all
    three leave the same cache behind (the expired entry evicted). *)
Theorem InMemory_readers_agree cache now key :
  fst (InMemoryCacheService.exists_ now key cache)
  = bool_decide (is_Some (fst (InMemoryCacheService.get now key cache)))
  /\ (is_Some (fst (InMemoryCacheService.getMetadata now key cache))
      <-> is_Some (fst (InMemoryCacheService.get now key cache)))
  /\ snd (InMemoryCacheService.exists_ now key cache)
     = snd (InMemoryCacheService.get now key cache)
  /\ snd (InMemoryCacheService.getMetadata now key cache)
     = snd (InMemoryCacheService.get now key cache).
Proof.
  unfold InMemoryCacheService.exists_, InMemoryCacheService.getMetadata,
    InMemoryCacheService.get.
  destruct (cache !! key) as [entry |].
  - destruct (CacheEntry.expiresAt entry <=? now); cbn;
      repeat split; try reflexivity; intros [? H]; try discriminate H; eauto.
  - cbn. repeat split; try reflexivity; intros [? H]; discriminate H.
Qed.

End InMemoryMore.

Lemma InMemory_set_get_round_trip_witness :
  InMemoryCacheService.get 1500 "k" (InMemoryCacheService.set 1000 "k" "v" 2 ∅)
  = (Some "v", InMemoryCacheService.set 1000 "k" "v" 2 ∅).
Proof.
  exact (proj1 (InMemory_set_get_round_trip (V := string) ∅ 1000 "k" "v" 2 1500
                  ltac:(lia))).
Defined.

Section RedisMore.
Context {V C : Type} `{!JSON V} `{!Redis C}.

(** X7.  Fail fast.  While the service is not connected, [get], [set],
    [del], [exists], [getMetadata] and [clear] are rejected with
    [Redis not connected] without a command being sent (the handle is
    untouched); [close] is never rejected, whatever [quit] does. *)
Theorem RedisCacheService_disconnected_fails_fast (s : RedisCacheService.t C) now key
    (value : V) ttlSeconds :
  RedisCacheService.connected s = false ->
  RedisCacheService.get (V := V) now key s = (Rejected "Redis not connected", s)
  /\ RedisCacheService.set now key value ttlSeconds s = (Rejected "Redis not connected", s)
  /\ RedisCacheService.del now key s = (Rejected "Redis not connected", s)
  /\ RedisCacheService.exists_ now key s = (Rejected "Redis not connected", s)
  /\ RedisCacheService.getMetadata now key s = (Rejected "Redis not connected", s)
  /\ RedisCacheService.clear now s = (Rejected "Redis not connected", s)
  /\ fst (RedisCacheService.close now s) = Resolved tt.
Proof.
  intros Hdown.
  unfold RedisCacheService.get, RedisCacheService.set, RedisCacheService.del,
    RedisCacheService.exists_, RedisCacheService.getMetadata,
    RedisCacheService.clear, RedisCacheService.close.
  rewrite Hdown. cbn [negb]. repeat split.
  destruct (Redis.quit now (RedisCacheService.redis s)) as [[[] | e] c]; reflexivity.
Qed.

(** X8.  [getMetadata] reports a key only when Redis reports a positive
    TTL: a missing key (-2), a key without expiry (-1) and a TTL of 0 all
    give null.  When it reports metadata, [ttl] is the TTL Redis gave and
    the creation and expiry instants are placed [ttl] seconds before and
    after the clock reading. *)
Theorem RedisCacheService_getMetadata_ttl (s : RedisCacheService.t C) now key ttl c :
  RedisCacheService.connected s = true ->
  Redis.ttl now key (RedisCacheService.redis s) = (Resolved ttl, c) ->
  fst (RedisCacheService.getMetadata now key s)
  = Resolved
      (if ttl <=? 0 then None
       else Some {| CacheMetadata.key := key;
                    CacheMetadata.ttl := ttl;
                    CacheMetadata.createdAt := now - ttl * 1000;
                    CacheMetadata.expiresAt := now + ttl * 1000 |})
  /\ (forall metadata,
        fst (RedisCacheService.getMetadata now key s) = Resolved (Some metadata) ->
        0 < CacheMetadata.ttl metadata
        /\ CacheMetadata.createdAt metadata < now < CacheMetadata.expiresAt metadata).
Proof.
  intros Hup Httl. unfold RedisCacheService.getMetadata. rewrite Hup, Httl. cbn [negb].
  destruct (Z.leb_spec ttl 0) as [Hle | Hpos]; cbn [fst].
  - split; [reflexivity |]. intros metadata H. discriminate H.
  - split; [reflexivity |]. intros metadata H. injection H as <-. cbn. lia.
Qed.

End RedisMore.

(** X9.  The reconnection policy gives up from the fourth attempt on, and
    before that waits [times * 100] ms: at most 300 ms, so the 2000 ms cap
    never applies. *)
Theorem RedisCacheService_retryStrategy_delays (times : Z) :
  (RedisCacheService.retryStrategy times = None <-> 3 < times)
  /\ (forall delay,
        RedisCacheService.retryStrategy times = Some delay ->
        delay = times * 100 /\ delay <= 300).
Proof.
  unfold RedisCacheService.retryStrategy.
  destruct (Z.ltb_spec 3 times) as [Hstop | Hretry].
  - split; [split; [intros _; exact Hstop | reflexivity] |].
    intros delay H. discriminate H.
  - split; [split; [discriminate | lia] |].
    intros delay H. injection H as <-. lia.
Qed.

Lemma RedisCacheService_disconnected_fails_fast_witness :
  RedisCacheService.get (JSON0 := fixtures.json_string) (Redis0 := fixtures.unreachable)
    0 "k" fixtures.redis_down
  = (Rejected "Redis not connected", fixtures.redis_down).
Proof.
  exact (proj1 (@RedisCacheService_disconnected_fails_fast string unit
                  fixtures.json_string fixtures.unreachable
                  fixtures.redis_down 0 "k" "v" 60 eq_refl)).
Defined.

Lemma RedisCacheService_getMetadata_ttl_witness :
  let s := {| RedisCacheService.redis := <["k" := ("v", 61000)]> ∅;
              RedisCacheService.connected := true |} in
  fst (RedisCacheService.getMetadata (Redis0 := fixtures.local_redis) 1000 "k" s)
  = Resolved (Some {| CacheMetadata.key := "k"; CacheMetadata.ttl := 60;
                      CacheMetadata.createdAt := -59000;
                      CacheMetadata.expiresAt := 61000 |}).
Proof.
  intros s.
  exact (proj1 (@RedisCacheService_getMetadata_ttl _ fixtures.local_redis
                  s 1000 "k" 60 (<["k" := ("v", 61000)]> ∅) eq_refl eq_refl)).
Defined.

Section FallbackMore.
Context {V B : Type} `{!ICacheService V B}.
Implicit Types (cs : list B) (key : string).
Import FallbackCacheService.

Lemma exists_from_spec now key cs :
  fst (exists_from now key cs) = true
  <-> Exists (fun cache => fst (ICacheService.exists_ now key cache) = Resolved true) cs.
Proof.
  induction cs as [|cache rest IH]; cbn [exists_from].
  - split; [discriminate | intros H; inversion H].
  - rewrite Exists_cons.
    destruct (ICacheService.exists_ now key cache) as [[[|] | e] cache']; cbn [fst].
    + split; [left; reflexivity | reflexivity].
    + destruct (exists_from now key rest) as [b rest']. cbn [fst] in *.
      rewrite IH. split; [right; assumption | intros [H | H]; [discriminate H | exact H]].
    + destruct (exists_from now key rest) as [b rest']. cbn [fst] in *.
      rewrite IH. split; [right; assumption | intros [H | H]; [discriminate H | exact H]].
Qed.

Lemma getMetadata_from_spec now key cs metadata :
  fst (getMetadata_from now key cs) = Some metadata
  <-> exists n cache,
        cs !! n = Some cache
        /\ fst (ICacheService.getMetadata now key cache) = Resolved (Some metadata)
        /\ Forall (fun earlier =>
                     forall m, fst (ICacheService.getMetadata now key earlier)
                               <> Resolved (Some m))
             (take n cs).
Proof.
  induction cs as [|cache rest IH]; cbn [getMetadata_from].
  - split; [discriminate | intros (n & c & H & _); destruct n; discriminate H].
  - destruct (ICacheService.getMetadata now key cache) as [o cache'] eqn:Hmeta.
    assert (Hstep : (forall m, o <> Resolved (Some m)) ->
              fst (let (m, rest') := getMetadata_from now key rest in (m, cache' :: rest'))
              = Some metadata
              <-> exists n c,
                    (cache :: rest) !! n = Some c
                    /\ fst (ICacheService.getMetadata now key c) = Resolved (Some metadata)
                    /\ Forall (fun earlier =>
                                 forall m, fst (ICacheService.getMetadata now key earlier)
                                           <> Resolved (Some m))
                         (take n (cache :: rest))).
    { intros Hnone. destruct (getMetadata_from now key rest) as [m rest']. cbn [fst] in *.
      rewrite IH. split.
      - intros (n & c & Hl & Hh & Hs). exists (S n), c. cbn [take]. repeat split; try assumption.
        constructor; [rewrite Hmeta; exact Hnone | exact Hs].
      - intros ([|n] & c & Hl & Hh & Hs); cbn in Hl.
        + injection Hl as <-. rewrite Hmeta in Hh. exfalso. exact (Hnone _ Hh).
        + cbn [take] in Hs. apply Forall_cons in Hs as [_ Hs]. exists n, c. auto. }
    destruct o as [[m |] | e]; [| apply Hstep; discriminate | apply Hstep; discriminate].
    cbn [fst]. split.
    + intros H. injection H as ->. exists 0%nat, cache. rewrite Hmeta.
      repeat split. constructor.
    + intros ([|n] & c & Hl & Hh & Hs); cbn in Hl.
      * injection Hl as <-. rewrite Hmeta in Hh. cbn in Hh. congruence.
      * cbn [take] in Hs. apply Forall_cons in Hs as [Hc _]. rewrite Hmeta in Hc.
        exfalso. exact (Hc m eq_refl).
Qed.

(** X10.  [exists] and [getMetadata] of the composite never reject.
    [exists] answers true exactly when some backend answers true (a
    backend that answers false or faults is passed over); [getMetadata]
    returns the metadata of the first backend that has any. *)
Theorem FallbackCacheService_other_readers now key (s : FallbackCacheService.t B) :
  let cs := FallbackCacheService.caches s in
  (exists b s', ICacheService.exists_ now key s = (Resolved b, s')
     /\ (b = true
         <-> Exists (fun cache => fst (ICacheService.exists_ now key cache) = Resolved true) cs))
  /\ (exists m s', ICacheService.getMetadata now key s = (Resolved m, s')
       /\ forall metadata,
            m = Some metadata
            <-> exists n cache,
                  cs !! n = Some cache
                  /\ fst (ICacheService.getMetadata now key cache) = Resolved (Some metadata)
                  /\ Forall (fun earlier =>
                               forall m', fst (ICacheService.getMetadata now key earlier)
                                          <> Resolved (Some m'))
                       (take n cs)).
Proof.
  intros cs. split.
  - cbn [ICacheService.exists_ service]. unfold FallbackCacheService.exists_.
    pose proof (exists_from_spec now key cs) as Hspec. fold cs.
    destruct (exists_from now key cs) as [b cs']. do 2 eexists.
    split; [reflexivity | exact Hspec].
  - cbn [ICacheService.getMetadata service]. unfold FallbackCacheService.getMetadata.
    pose proof (getMetadata_from_spec now key cs) as Hspec. fold cs.
    destruct (getMetadata_from now key cs) as [m cs']. do 2 eexists.
    split; [reflexivity | exact Hspec].
Qed.

End FallbackMore.

Section MemoryChain.
Context {V : Type}.
Implicit Types (cs : list (gmap string (CacheEntry.t V))) (key : string) (value : V).
Import FallbackCacheService.

Lemma memory_chain_get_absent now key i cs :
  Forall (fun cache => cache !! key = None) cs ->
  get_from now key i cs = mk_read None None cs [].
Proof.
  revert i. induction cs as [|cache rest IH]; intros i Habsent; [reflexivity |].
  apply Forall_cons in Habsent as [Hcache Hrest].
  cbn [get_from ICacheService.get InMemoryCacheService.service].
  unfold InMemoryCacheService.get. rewrite Hcache, (IH _ Hrest). reflexivity.
Qed.

Lemma memory_chain_exists_absent now key cs :
  Forall (fun cache => cache !! key = None) cs ->
  exists_from now key cs = (false, cs).
Proof.
  induction cs as [|cache rest IH]; intros Habsent; [reflexivity |].
  apply Forall_cons in Habsent as [Hcache Hrest].
  cbn [exists_from ICacheService.exists_ InMemoryCacheService.service].
  unfold InMemoryCacheService.exists_. rewrite Hcache, (IH Hrest). reflexivity.
Qed.

Lemma memory_chain_getMetadata_absent now key cs :
  Forall (fun cache => cache !! key = None) cs ->
  getMetadata_from now key cs = (None, cs).
Proof.
  induction cs as [|cache rest IH]; intros Habsent; [reflexivity |].
  apply Forall_cons in Habsent as [Hcache Hrest].
  cbn [getMetadata_from ICacheService.getMetadata InMemoryCacheService.service].
  unfold InMemoryCacheService.getMetadata. rewrite Hcache, (IH Hrest). reflexivity.
Qed.

(** X11.  Delete through a chain of in-memory caches (the write-through
    example of example.ts).  The composite [del] resolves, removes the key
    from every cache and nothing else, and afterwards the composite
    readers find nothing, at any clock reading and without logging:
    [get] returns null, [exists] false, [getMetadata] null. *)
Theorem FallbackCacheService_del_memory_chain now key cs :
  let s := {| caches := cs |} in
  let s' := {| caches := map (InMemoryCacheService.del key) cs |} in
  ICacheService.del now key s = (Resolved tt, s')
  /\ (forall other, other <> key ->
        map (fun cache => cache !! other) (caches s') = map (fun cache => cache !! other) cs)
  /\ forall now',
       get_read now' key s' = mk_read None None (caches s') []
       /\ ICacheService.get now' key s' = (Resolved None, s')
       /\ ICacheService.exists_ now' key s' = (Resolved false, s')
       /\ ICacheService.getMetadata now' key s' = (Resolved None, s').
Proof.
  intros s s'.
  assert (Habsent : Forall (fun cache => cache !! key = None) (caches s')).
  { unfold s'. cbn [caches]. apply Forall_map, Forall_forall. intros cache _.
    apply lookup_delete_eq. }
  split; [reflexivity |]. split.
  - intros other Hne. unfold s'. cbn [caches]. rewrite map_map.
    apply map_ext. intros cache. apply lookup_delete_ne. congruence.
  - intros now'.
    cbn [ICacheService.get ICacheService.exists_ ICacheService.getMetadata service].
    unfold FallbackCacheService.get, FallbackCacheService.exists_,
      FallbackCacheService.getMetadata, get_read.
    rewrite (memory_chain_get_absent now' key 0 _ Habsent),
      (memory_chain_exists_absent now' key _ Habsent),
      (memory_chain_getMetadata_absent now' key _ Habsent).
    repeat split.
Qed.

(** X12.  Write-through visibility.  After a composite [set] over a
    non-empty chain of in-memory caches, until the TTL runs out every cache
    of the chain holds the value under the key, and the composite [get]
    returns it from the first cache (level 0), silently and leaving the
    chain as it is. *)
Theorem FallbackCacheService_set_memory_chain now key value ttlSeconds now' cs :
  cs <> [] ->
  now <= now' < now + ttlSeconds * 1000 ->
  let s := {| caches := cs |} in
  let s' := {| caches := map (InMemoryCacheService.set now key value ttlSeconds) cs |} in
  set_run now key value ttlSeconds s = (Resolved tt, s', [])
  /\ ICacheService.set now key value ttlSeconds s = (Resolved tt, s')
  /\ Forall (fun cache => InMemoryCacheService.get now' key cache = (Some value, cache))
       (caches s')
  /\ get_read now' key s' = mk_read (Some value) (Some 0%nat) (caches s') []
  /\ ICacheService.get now' key s' = (Resolved (Some value), s').
Proof.
  intros Hne Hlive s s'.
  assert (Hall : set_all now key value ttlSeconds cs
                 = mk_written (map (InMemoryCacheService.set now key value ttlSeconds) cs)
                     [] []).
  { clear Hne. induction cs as [|cache rest IH]; [reflexivity |].
    cbn [set_all ICacheService.set InMemoryCacheService.service]. rewrite IH. reflexivity. }
  assert (Hrun : set_run now key value ttlSeconds s = (Resolved tt, s', [])).
  { unfold set_run, s. cbn [caches]. rewrite Hall.
    cbn [errors written_caches written_console length].
    destruct cs as [|cache rest]; [congruence | reflexivity]. }
  assert (Hget : forall cache,
            InMemoryCacheService.get now' key
              (InMemoryCacheService.set now key value ttlSeconds cache)
            = (Some value, InMemoryCacheService.set now key value ttlSeconds cache)).
  { intros cache. unfold InMemoryCacheService.get.
    rewrite InMemory_set_lookup. cbn [CacheEntry.expiresAt CacheEntry.data].
    destruct (Z.leb_spec (now + ttlSeconds * 1000) now'); [lia | reflexivity]. }
  assert (Hread : get_read now' key s' = mk_read (Some value) (Some 0%nat) (caches s') []).
  { unfold get_read, s'. cbn [caches].
    destruct cs as [|cache rest]; [congruence |].
    cbn [map get_from ICacheService.get InMemoryCacheService.service].
    rewrite Hget. reflexivity. }
  split; [exact Hrun |]. split.
  { cbn [ICacheService.set service]. unfold FallbackCacheService.set.
    rewrite Hrun. reflexivity. }
  split.
  { unfold s'. cbn [caches]. apply Forall_map, Forall_forall. intros cache _. apply Hget. }
  split; [exact Hread |].
  cbn [ICacheService.get service]. unfold FallbackCacheService.get.
  rewrite Hread. reflexivity.
Qed.

End MemoryChain.

Lemma FallbackCacheService_set_memory_chain_witness :
  let s' := {| FallbackCacheService.caches :=
                 map (InMemoryCacheService.set 1000 "shared:key" "shared data" 60)
                   [∅; ∅] |} in
  ICacheService.get 2000 "shared:key" s' = (Resolved (Some "shared data"), s').
Proof.
  intros s'.
  refine (proj2 (proj2 (proj2 (proj2
    (FallbackCacheService_set_memory_chain (V := string) 1000 "shared:key" "shared data"
       60 2000 [∅; ∅] _ _))))).
  - discriminate.
  - lia.
Defined.

Section WiredChain.
Context {V C : Type} `{!JSON V} `{!Redis C}.
Import FallbackCacheService.

(** X13.  The factory's chain while Redis is down.  With the Redis cache
    disconnected, a [set] on the chain [Redis, in-memory] resolves; it
    reports the failure with one [console.error] that is passed the text
    [[FallbackCache] RedisCache SET failed:] and the error
    [Redis not connected], and with one warning that names RedisCache.
    Until the TTL runs out [get] then returns the written value from the
    in-memory cache at fallback level 1, after warning that the Redis read
    failed (that warning prints the error's message); the Redis client is
    never given a command. *)
Theorem FallbackCacheService_redis_down_round_trip now key (value : V) ttlSeconds now'
    (redisCache : RedisCacheService.t C) (memoryCache : gmap string (CacheEntry.t V)) :
  RedisCacheService.connected redisCache = false ->
  now <= now' < now + ttlSeconds * 1000 ->
  let s : FallbackCacheService.t (RedisCacheService.t C + gmap string (CacheEntry.t V)) :=
    {| caches := [inl redisCache; inr memoryCache] |} in
  let s' : FallbackCacheService.t (RedisCacheService.t C + gmap string (CacheEntry.t V)) :=
    {| caches := [inl redisCache;
                  inr (InMemoryCacheService.set now key value ttlSeconds memoryCache)] |} in
  set_run now key value ttlSeconds s
  = (Resolved tt, s',
     [console_error "[FallbackCache] RedisCache SET failed:" "Redis not connected";
      console_warn ("[FallbackCache] Some caches failed to SET key " +:+ key
                    +:+ ": RedisCache")])
  /\ ICacheService.set now key value ttlSeconds s = (Resolved tt, s')
  /\ get_read now' key s'
     = mk_read (Some value) (Some 1%nat) (caches s')
         [console_warn
            "[FallbackCache] RedisCache GET failed, trying fallback: Redis not connected";
          console_log "[FallbackCache] Cache hit in InMemoryCache (fallback level 1)"]
  /\ ICacheService.get now' key s' = (Resolved (Some value), s').
Proof.
  intros Hdown Hlive s s'.
  assert (Hrun : set_run now key value ttlSeconds s
    = (Resolved tt, s',
       [console_error "[FallbackCache] RedisCache SET failed:" "Redis not connected";
        console_warn ("[FallbackCache] Some caches failed to SET key " +:+ key
                      +:+ ": RedisCache")])).
  { unfold set_run, s, s'.
    cbn [caches set_all ICacheService.set sum_service on_left on_right fst snd
         RedisCacheService.service InMemoryCacheService.service
         ICacheService.getName].
    unfold RedisCacheService.set. rewrite Hdown. reflexivity. }
  assert (Hread : get_read now' key s'
    = mk_read (Some value) (Some 1%nat) (caches s')
        [console_warn
           "[FallbackCache] RedisCache GET failed, trying fallback: Redis not connected";
         console_log "[FallbackCache] Cache hit in InMemoryCache (fallback level 1)"]).
  { unfold get_read, s'.
    cbn [caches get_from ICacheService.get sum_service on_left on_right fst snd
         RedisCacheService.service InMemoryCacheService.service
         ICacheService.getName].
    unfold RedisCacheService.get. rewrite Hdown. cbn [negb fst snd].
    unfold InMemoryCacheService.get. rewrite InMemory_set_lookup.
    cbn [CacheEntry.expiresAt CacheEntry.data].
    destruct (Z.leb_spec (now + ttlSeconds * 1000) now'); [lia | reflexivity]. }
  split; [exact Hrun |]. split.
  { cbn [ICacheService.set service]. unfold FallbackCacheService.set.
    rewrite Hrun. reflexivity. }
  split; [exact Hread |].
  cbn [ICacheService.get service]. unfold FallbackCacheService.get.
  rewrite Hread. reflexivity.
Qed.

End WiredChain.

Lemma FallbackCacheService_redis_down_round_trip_witness :
  let s' := fixtures.string_chain fixtures.redis_down
              (InMemoryCacheService.set 1000 "tournament:789" "Test Tournament" 60 ∅) in
  @ICacheService.get _ _ (@FallbackCacheService.service _ _ fixtures.string_service)
    2000 "tournament:789" s'
  = (Resolved (Some "Test Tournament"), s').
Proof.
  intros s'.
  refine (proj2 (proj2 (proj2
    (@FallbackCacheService_redis_down_round_trip string unit fixtures.json_string
       fixtures.unreachable 1000 "tournament:789" "Test Tournament" 60 2000
       fixtures.redis_down ∅ _ _)))).
  - reflexivity.
  - lia.
Defined.

(** * Further properties of the TTL policy *)

Section TtlMore.
Import ttl_calculator.

Lemma count_match_tally now c m :
  count_match now c m
  = mk_counts (ongoing c + tally is_ongoing [m])
              (recentlyCompleted c + tally (is_recently_completed now) [m])
              (pendingCount c + tally is_pending [m])
              (oldCompleted c + tally (is_old_completed now) [m]).
Proof.
  unfold count_match, tally, is_ongoing, is_recently_completed, is_pending,
    is_old_completed.
  destruct c as [o r p d].
  cbn [ongoing recentlyCompleted pendingCount oldCompleted List.filter].
  destruct (Match.status m); cbn [MatchStatus_eqb andb];
    destruct (truthy_number (Match.completedAt m)); cbn [andb];
    try destruct (Z.ltb _ _); cbn [negb List.filter length];
    f_equal; lia.
Qed.

Lemma tally_app p ms ms' : tally p (ms ++ ms') = tally p ms + tally p ms'.
Proof. unfold tally. rewrite List.filter_app, length_app. lia. Qed.

Lemma tally_cons p m ms : tally p (m :: ms) = tally p [m] + tally p ms.
Proof. exact (tally_app p [m] ms). Qed.

Lemma count_matches_tally now ms c :
  fold_left (count_match now) ms c
  = mk_counts (ongoing c + tally is_ongoing ms)
              (recentlyCompleted c + tally (is_recently_completed now) ms)
              (pendingCount c + tally is_pending ms)
              (oldCompleted c + tally (is_old_completed now) ms).
Proof.
  revert c. induction ms as [|m ms IH]; intros c.
  - destruct c. unfold tally. cbn. f_equal; lia.
  - cbn [fold_left]. rewrite IH, count_match_tally.
    cbn [ongoing recentlyCompleted pendingCount oldCompleted].
    rewrite (tally_cons is_ongoing m ms), (tally_cons (is_recently_completed now) m ms),
      (tally_cons is_pending m ms), (tally_cons (is_old_completed now) m ms).
    f_equal; lia.
Qed.

Lemma count_events_tally now events c :
  fold_left
    (fun c event => fold_left (count_match now) (TournamentEvent.currentMatches event) c)
    events c
  = let ms := flat_map TournamentEvent.currentMatches events in
    mk_counts (ongoing c + tally is_ongoing ms)
              (recentlyCompleted c + tally (is_recently_completed now) ms)
              (pendingCount c + tally is_pending ms)
              (oldCompleted c + tally (is_old_completed now) ms).
Proof.
  revert c. induction events as [|event events IH]; intros c.
  - destruct c. unfold tally. cbn. f_equal; lia.
  - cbn [fold_left flat_map]. rewrite IH, count_matches_tally. cbn zeta.
    cbn [ongoing recentlyCompleted pendingCount oldCompleted].
    rewrite !tally_app. f_equal; lia.
Qed.

Lemma tally_positive p ms : (0 <? tally p ms) = existsb p ms.
Proof.
  unfold tally. induction ms as [|m ms IH]; [reflexivity |].
  cbn [List.filter existsb]. destruct (p m); cbn [orb length]; [| exact IH].
  apply Z.ltb_lt. lia.
Qed.

Lemma tally_partition now ms :
  tally is_ongoing ms + tally (is_recently_completed now) ms
  + tally is_pending ms + tally (is_old_completed now) ms
  <= Z.of_nat (length ms).
Proof.
  induction ms as [|m ms IH]; [unfold tally; cbn; lia |].
  rewrite (tally_cons is_ongoing m ms), (tally_cons (is_recently_completed now) m ms),
    (tally_cons is_pending m ms), (tally_cons (is_old_completed now) m ms).
  assert (tally is_ongoing [m] + tally (is_recently_completed now) [m]
          + tally is_pending [m] + tally (is_old_completed now) [m] <= 1).
  { unfold tally, is_ongoing, is_recently_completed, is_pending, is_old_completed.
    cbn [List.filter].
    destruct (Match.status m); cbn [MatchStatus_eqb andb];
      destruct (truthy_number (Match.completedAt m)); cbn [andb];
      try destruct (Z.ltb _ _); cbn; lia. }
  cbn [length]. lia.
Qed.

(** X14.  The match-state metadata sent with a response explains the TTL
    computed for it.  The four counters count the current matches that are
    in progress, completed within the window, pending, and completed
    outside the window; every match is counted at most once; and the TTL is
    15 when [ongoing] is positive, else 120 when [recentlyCompleted] is
    positive, else 600 when [pending] is positive, else 1800. *)
Theorem getMatchStateMetadata_explains_ttl now tournament :
  let ms := all_current_matches tournament in
  let metadata := getMatchStateMetadata now tournament in
  let c := metadata_counts metadata in
  ongoing c = tally is_ongoing ms
  /\ recentlyCompleted c = tally (is_recently_completed now) ms
  /\ pendingCount c = tally is_pending ms
  /\ oldCompleted c = tally (is_old_completed now) ms
  /\ ongoing c + recentlyCompleted c + pendingCount c + oldCompleted c
     <= Z.of_nat (length ms)
  /\ calculateDynamicTTL now tournament
     = (if metadata_hasOngoingMatches metadata then 15
        else if hasRecentMatches metadata then 120
        else if 0 <? pendingCount c then 600
        else 1800).
Proof.
  intros ms metadata c.
  assert (Hc : c = mk_counts (tally is_ongoing ms) (tally (is_recently_completed now) ms)
                     (tally is_pending ms) (tally (is_old_completed now) ms)).
  { unfold c, metadata, getMatchStateMetadata. cbn [metadata_counts].
    rewrite count_events_tally. reflexivity. }
  assert (Hm : metadata = mk_metadata (0 <? ongoing c) (0 <? recentlyCompleted c) c)
    by reflexivity.
  rewrite Hm. cbn [metadata_hasOngoingMatches hasRecentMatches].
  rewrite Hc. cbn [ongoing recentlyCompleted pendingCount oldCompleted].
  repeat split; try reflexivity.
  - apply tally_partition.
  - rewrite calculateDynamicTTL_rows, !tally_positive. reflexivity.
Qed.

Lemma recent_stays_recent now now' ms :
  now <= now' ->
  existsb (is_recently_completed now') ms = true ->
  existsb (is_recently_completed now) ms = true.
Proof.
  intros Hle. rewrite !existsb_exists. intros (m & Hin & Hm). exists m.
  split; [exact Hin |]. unfold is_recently_completed in *.
  apply andb_true_iff in Hm as [Hm Hlt]. rewrite Hm. cbn [andb].
  apply Z.ltb_lt in Hlt. apply Z.ltb_lt. lia.
Qed.

Lemma existsb_Permutation {A} (p : A -> bool) (l l' : list A) :
  Permutation l l' -> existsb p l = existsb p l'.
Proof.
  induction 1 as [| x l l' _ IH | x y l | l l' l'' _ IH1 _ IH2]; cbn.
  - reflexivity.
  - rewrite IH. reflexivity.
  - destruct (p x), (p y); reflexivity.
  - congruence.
Qed.

(** X15.  The TTL is one of 15, 120, 600 and 1800; on the same tournament
    it never gets shorter as the clock advances (a completion can only
    leave the five-minute window); and it depends on the current matches
    only as a collection: neither their order nor the event that lists
    them matters. *)
Theorem calculateDynamicTTL_monotone now now' tournament :
  now <= now' ->
  In (calculateDynamicTTL now tournament) [15; 120; 600; 1800]
  /\ calculateDynamicTTL now tournament <= calculateDynamicTTL now' tournament
  /\ forall tournament',
       Permutation (all_current_matches tournament) (all_current_matches tournament') ->
       calculateDynamicTTL now tournament' = calculateDynamicTTL now tournament.
Proof.
  intros Hle. rewrite !calculateDynamicTTL_rows. cbn zeta.
  pose proof (recent_stays_recent now now' (all_current_matches tournament) Hle) as Hrecent.
  split; [| split].
  - destruct (existsb is_ongoing _); [cbn; auto |].
    destruct (existsb (is_recently_completed now) _); [cbn; auto |].
    destruct (existsb is_pending _); cbn; auto.
  - destruct (existsb is_ongoing _); [lia |].
    destruct (existsb (is_recently_completed now') _).
    + rewrite (Hrecent eq_refl). lia.
    + destruct (existsb (is_recently_completed now) _);
        destruct (existsb is_pending _); lia.
  - intros tournament' Hperm. rewrite calculateDynamicTTL_rows. cbn zeta.
    rewrite !(existsb_Permutation _ _ _ Hperm). reflexivity.
Qed.

End TtlMore.

Lemma calculateDynamicTTL_monotone_witness :
  let tournament :=
    fixtures.a_tournament [fixtures.a_match "1" completed (Some 1700000000000);
                           fixtures.a_match "2" pending None] in
  ttl_calculator.calculateDynamicTTL 1700000100000 tournament
  <= ttl_calculator.calculateDynamicTTL 1700000400000 tournament.
Proof.
  intros tournament.
  exact (proj1 (proj2 (calculateDynamicTTL_monotone 1700000100000 1700000400000
                         tournament ltac:(lia)))).
Defined.

(** * Further properties of the start.gg client *)

Section RetryMore.
Import StartGgApi.
Context {D : Type} (upstream : nat -> posted D) (latency : nat -> Z) (cfg : config).

Local Abbreviation execute := (executeQueryWithRetry upstream latency cfg).
Local Abbreviation sent c := (snd (post upstream latency (respect_rate_limit cfg c))).

(** X16.  Only HTTP 429 is retried.  When the POST settles in any other
    way (data, GraphQL errors, another HTTP status, a network failure) or
    the retries are used up, the request is settled by that one POST: one
    POST is sent and no back-off sleep is taken; the request resolves
    exactly when the POST brought data, which is returned as it came; a 401
    is reported as an authentication error and a status of 500 or more as
    a server error. *)
Theorem executeQueryWithRetry_settles_without_retry retryCount c :
  (forall message, upstream (posts c) = post_axios_error (Some 429) message ->
                   ~ (retryCount < MAX_RETRIES cfg)%nat) ->
  exists r,
    execute retryCount c = (r, sent c)
    /\ posts (sent c) = S (posts c)
    /\ backoffs (trace (sent c)) = backoffs (trace c)
    /\ (forall data, r = Resolved data <-> upstream (posts c) = post_data data)
    /\ (forall message,
          upstream (posts c) = post_axios_error (Some 401) message ->
          r = Rejected "Authentication Error: Invalid or expired start.gg API token")
    /\ (forall status message,
          upstream (posts c) = post_axios_error (Some status) message ->
          500 <= status ->
          r = Rejected ("Server Error: start.gg API is temporarily unavailable ("
                        +:+ pretty status +:+ ")")).
Proof.
  intros Hfinal. rewrite executeQueryWithRetry_step.
  destruct (upstream (posts c)) as [data | messages | status message | message] eqn:Hup.
  - eexists. split; [reflexivity |]. split; [apply sent_posts |].
    split; [apply sent_backoffs |]. split; [| split; intros; discriminate].
    intros data'. split; congruence.
  - eexists. split; [reflexivity |]. split; [apply sent_posts |].
    split; [apply sent_backoffs |]. split; [| split; intros; discriminate].
    intros data'. split; discriminate.
  - destruct (decide (status = Some 429 /\ (retryCount < MAX_RETRIES cfg)%nat))
      as [[-> Hlt] | _]; [exfalso; exact (Hfinal message eq_refl Hlt) |].
    destruct (decide (status = Some 401)) as [-> | Hne].
    { eexists. split; [reflexivity |]. split; [apply sent_posts |].
      split; [apply sent_backoffs |]. split; [intros data'; split; discriminate |].
      split; [reflexivity |].
      intros status message' Heq Hge. exfalso. injection Heq as Hs _. lia. }
    destruct (Z.leb_spec 500 (default 0 status)) as [Hserver | Hclient].
    + eexists. split; [reflexivity |]. split; [apply sent_posts |].
      split; [apply sent_backoffs |]. split; [intros data'; split; discriminate |].
      split; [intros message' Heq; congruence |].
      intros status' message' Heq Hge. injection Heq as -> _.
      unfold status_text. destruct (Z.eqb_spec status' 0); [lia | reflexivity].
    + eexists. split; [reflexivity |]. split; [apply sent_posts |].
      split; [apply sent_backoffs |]. split; [intros data'; split; discriminate |].
      split; [intros message' Heq; congruence |].
      intros status' message' Heq Hge. injection Heq as -> _. cbn in Hclient. lia.
  - eexists. split; [reflexivity |]. split; [apply sent_posts |].
    split; [apply sent_backoffs |]. split; [| split; intros; discriminate].
    intros data'. split; discriminate.
Qed.

Lemma executeQueryWithRetry_recovers_from k retryCount c data message :
  (retryCount + k <= MAX_RETRIES cfg)%nat ->
  (forall i, (i < k)%nat -> upstream (posts c + i)%nat = post_axios_error (Some 429) message) ->
  upstream (posts c + k)%nat = post_data data ->
  exists c' new,
    execute retryCount c = (Resolved data, c')
    /\ trace c' = (trace c ++ new)%list
    /\ without_rate_limit_waits new = posts_and_backoffs cfg k retryCount
    /\ posts c' = (posts c + k + 1)%nat.
Proof.
  revert retryCount c. induction k as [|k IH]; intros retryCount c Hle Hlimited Hdata.
  - rewrite Nat.add_0_r in Hdata. rewrite executeQueryWithRetry_step, Hdata.
    destruct (respect_rate_limit_trace cfg c) as [_ (waits & Htrace & Hwaits)].
    eexists. exists (waits ++ [ev_post])%list. split; [reflexivity |].
    split; [unfold post; cbn [snd trace]; rewrite Htrace, <- app_assoc; reflexivity |].
    split; [| rewrite sent_posts; lia].
    unfold without_rate_limit_waits in *. rewrite List.filter_app, Hwaits. reflexivity.
  - pose proof (Hlimited 0%nat ltac:(lia)) as Hfirst. rewrite Nat.add_0_r in Hfirst.
    rewrite executeQueryWithRetry_step, Hfirst.
    destruct (decide (Some 429 = Some 429 /\ (retryCount < MAX_RETRIES cfg)%nat))
      as [_ | Hno]; [| exfalso; apply Hno; split; [reflexivity | lia]].
    destruct (respect_rate_limit_trace cfg c) as [_ (waits & Htrace & Hwaits)].
    set (c1 := sleep backoff (backoffDelay cfg retryCount) (sent c)).
    assert (Hposts : posts c1 = S (posts c)) by (unfold c1, sleep; cbn [posts]; apply sent_posts).
    destruct (IH (S retryCount) c1) as (c' & new & Hrun & Htr & Hnew & Hcount).
    + lia.
    + intros i Hi. rewrite Hposts.
      replace (S (posts c) + i)%nat with (posts c + S i)%nat by lia.
      apply Hlimited. lia.
    + rewrite Hposts. replace (S (posts c) + k)%nat with (posts c + S k)%nat by lia.
      exact Hdata.
    + exists c',
        (waits ++ [ev_post; ev_sleep backoff (backoffDelay cfg retryCount)] ++ new)%list.
      split; [exact Hrun |]. split; [| split; [| lia]].
      * rewrite Htr. unfold c1, sleep, post. cbn [snd trace].
        rewrite Htrace, <- !app_assoc. reflexivity.
      * unfold without_rate_limit_waits in *.
        rewrite !List.filter_app, Hwaits, Hnew. reflexivity.
Qed.

(** X17.  Recovery from rate limiting.  When the upstream answers the
    next [k] POSTs with HTTP 429, [k] being at most [MAX_RETRIES], and the
    POST after them with data, the request resolves with that data after
    [k + 1] POSTs.  Between the POSTs the client backs off: rejected
    attempt [i] is followed by a sleep of [RETRY_DELAY * 2^i] ms and then
    by the next POST, which starts from a clock reading that much later
    than the one at which the 429 came.  The last POST is sent at least
    [RETRY_DELAY * (2^k - 1)] ms after the call. *)
Theorem query_recovers_after_429 k c data message :
  (k <= MAX_RETRIES cfg)%nat ->
  (forall i, (i < k)%nat -> upstream (posts c + i)%nat = post_axios_error (Some 429) message) ->
  upstream (posts c + k)%nat = post_data data ->
  exists c' new,
    query upstream latency cfg c = (Resolved data, c')
    /\ trace c' = (trace c ++ new)%list
    /\ without_rate_limit_waits new = posts_and_backoffs cfg k 0
    /\ posts c' = (posts c + k + 1)%nat
    /\ backoffs (trace c')
       = (backoffs (trace c)
          ++ map (fun i => RETRY_DELAY cfg * 2 ^ Z.of_nat i) (seq 0 k))%list
    /\ (forall i, (i < k)%nat ->
          exists a b answered,
            trace a = (trace c ++ answered)%list
            /\ without_rate_limit_waits answered = posts_and_backoffs cfg i 0
            /\ posts a = (posts c + S i)%nat
            /\ clock c <= lastRequestTime a
            /\ clock a = lastRequestTime a + Z.max 0 (latency (posts c + i)%nat)
            /\ clock b = clock a + Z.max 0 (RETRY_DELAY cfg * 2 ^ Z.of_nat i)
            /\ lastRequestTime b = lastRequestTime a
            /\ posts b = posts a
            /\ trace b
               = (trace a ++ [ev_sleep backoff (RETRY_DELAY cfg * 2 ^ Z.of_nat i)])%list
            /\ query upstream latency cfg c = execute (S i) b
            /\ clock b <= lastRequestTime (sent b))
    /\ (0 <= RETRY_DELAY cfg ->
        clock c + RETRY_DELAY cfg * (2 ^ Z.of_nat k - 1) <= lastRequestTime c'
        /\ lastRequestTime c' <= clock c').
Proof.
  intros Hle Hlimited Hdata.
  destruct (executeQueryWithRetry_recovers_from k 0 c data message Hle Hlimited Hdata)
    as (c' & new & Hrun & Htrace & Hnew & Hposts).
  exists c', new. split; [exact Hrun |]. split; [exact Htrace |].
  split; [exact Hnew |]. split; [exact Hposts |]. split; [| split].
  - rewrite Htrace. unfold backoffs at 1. rewrite flat_map_app.
    fold (backoffs (trace c)). fold (backoffs new).
    rewrite <- (backoffs_without_rate_limit_waits new), Hnew.
    rewrite posts_and_backoffs_backoffs. reflexivity.
  - intros i Hi.
    destruct (executeQueryWithRetry_backs_off upstream latency cfg k 0 c message
                Hle Hlimited i Hi) as (a & b & answered & Hconj).
    exists a, b, answered. exact Hconj.
  - intros Hdelay.
    pose proof (executeQueryWithRetry_waits upstream latency cfg k 0 c message
                  Hle Hlimited Hdelay) as Hsum.
    pose proof (executeQueryWithRetry_spacing upstream latency cfg 0 c)
      as (_ & _ & _ & Hlast).
    cbn zeta in Hlast. unfold query in Hrun. rewrite Hrun in Hsum, Hlast.
    cbn [snd] in Hsum, Hlast. split; [| exact Hlast].
    replace (2 ^ Z.of_nat k - 1)
      with (2 ^ Z.of_nat (0 + k) - 2 ^ Z.of_nat 0); [exact Hsum | reflexivity].
Qed.

(** X18.  Requests are spaced by the rate limit, whatever the upstream
    does and however often the request is retried.  A call sends at least
    one POST, never before the clock reading at the call; each POST is sent
    at least [RATE_LIMIT_DELAY] ms after the one before it, so that the time
    of the last POST is at least [RATE_LIMIT_DELAY] times the number of
    POSTs sent after the time of the last POST before the call; and two
    calls in a row keep that distance between them. *)
Theorem query_respects_rate_limit c :
  let c' := snd (query upstream latency cfg c) in
  let c'' := snd (query upstream latency cfg c') in
  (posts c < posts c')%nat
  /\ clock c <= lastRequestTime c'
  /\ lastRequestTime c
     + RATE_LIMIT_DELAY cfg * (Z.of_nat (posts c') - Z.of_nat (posts c))
     <= lastRequestTime c'
  /\ lastRequestTime c
     + RATE_LIMIT_DELAY cfg * (Z.of_nat (posts c'') - Z.of_nat (posts c))
     <= lastRequestTime c''.
Proof.
  intros c' c''.
  pose proof (executeQueryWithRetry_spacing upstream latency cfg 0 c) as Hfirst.
  pose proof (executeQueryWithRetry_spacing upstream latency cfg 0 c') as Hsecond.
  change (snd (execute 0 c)) with c' in Hfirst.
  change (snd (execute 0 c')) with c'' in Hsecond.
  cbn zeta in Hfirst, Hsecond.
  destruct Hfirst as (Hmore & Hgap & Hnow & _).
  destruct Hsecond as (_ & Hgap' & _).
  generalize dependent c''. generalize dependent c'. intros c' Hmore Hgap Hnow c'' Hgap'.
  split; [exact Hmore |]. split; [exact Hnow |]. split; [exact Hgap |].
  replace (Z.of_nat (posts c'') - Z.of_nat (posts c))
    with ((Z.of_nat (posts c'') - Z.of_nat (posts c'))
          + (Z.of_nat (posts c') - Z.of_nat (posts c))) by lia.
  rewrite Z.mul_add_distr_l. lia.
Qed.

End RetryMore.

Lemma executeQueryWithRetry_settles_without_retry_witness :
  fst (StartGgApi.executeQueryWithRetry
         (fun _ : nat =>
            StartGgApi.post_axios_error (D := unit) (Some 401)
              "Request failed with status code 401")
         (fun _ => 100) StartGgApi.constants 0 (StartGgApi.mk_client 0 0 0 []))
  = Rejected "Authentication Error: Invalid or expired start.gg API token".
Proof.
  destruct (executeQueryWithRetry_settles_without_retry
              (fun _ : nat =>
                 StartGgApi.post_axios_error (D := unit) (Some 401)
                   "Request failed with status code 401")
              (fun _ => 100) StartGgApi.constants 0 (StartGgApi.mk_client 0 0 0 []))
    as (r & Hrun & _ & _ & _ & Hauth & _).
  - intros message Hup. discriminate Hup.
  - rewrite Hrun. exact (Hauth _ eq_refl).
Defined.

Lemma query_recovers_after_429_witness :
  let upstream := fun n : nat =>
    if Nat.ltb n 2
    then StartGgApi.post_axios_error (Some 429) "Request failed with status code 429"
    else StartGgApi.post_data "tournament" in
  exists c',
    StartGgApi.query upstream (fun _ => 100) StartGgApi.constants
      (StartGgApi.mk_client 0 0 0 [])
    = (Resolved "tournament", c')
    /\ StartGgApi.posts c' = 3%nat
    /\ StartGgApi.backoffs (StartGgApi.trace c') = [2000; 4000]
    /\ 6000 <= StartGgApi.lastRequestTime c'.
Proof.
  intros upstream.
  destruct (query_recovers_after_429 upstream (fun _ => 100) StartGgApi.constants 2
              (StartGgApi.mk_client 0 0 0 []) "tournament"
              "Request failed with status code 429")
    as (c' & new & Hrun & _ & _ & Hposts & Hbackoffs & _ & Hclock).
  - vm_compute. lia.
  - intros [|[|i]] Hi; [reflexivity | reflexivity | lia].
  - reflexivity.
  - exists c'. split; [exact Hrun |]. split; [exact Hposts |].
    split; [exact Hbackoffs |].
    exact (proj1 (Hclock ltac:(vm_compute; discriminate))).
Defined.

(** * Further properties of tournament loading *)

Section FindIndex.
Context {A : Type}.

Lemma findIndex_Some (p : A -> bool) l i :
  StartGgApi.findIndex p l = Some i ->
  exists x, l !! i = Some x /\ p x = true.
Proof.
  revert i. induction l as [|y l IH]; intros i; cbn [StartGgApi.findIndex].
  - discriminate.
  - destruct (p y) eqn:Hy.
    + intros Hi. injection Hi as <-. exists y. split; [reflexivity | exact Hy].
    + destruct (StartGgApi.findIndex p l) as [j |]; [| discriminate].
      intros Hi. injection Hi as <-. exact (IH j eq_refl).
Qed.

Lemma findIndex_found (p : A -> bool) l x :
  x ∈ l -> p x = true -> exists i, StartGgApi.findIndex p l = Some i.
Proof.
  induction l as [|y l IH]; intros Hin Hx; [inversion Hin |].
  cbn [StartGgApi.findIndex]. destruct (p y) eqn:Hy; [eauto |].
  apply elem_of_cons in Hin as [-> | Hin]; [congruence |].
  destruct (IH Hin Hx) as [i ->]. eauto.
Qed.

Lemma NoDup_List_filter (p : A -> bool) l : NoDup l -> NoDup (List.filter p l).
Proof.
  induction 1 as [|x l Hx _ IH]; cbn [List.filter]; [constructor |].
  destruct (p x); [| exact IH]. constructor; [| exact IH].
  intros Hin. apply Hx. apply list_elem_of_In, filter_In in Hin as [Hin _].
  apply list_elem_of_In. exact Hin.
Qed.

End FindIndex.

Section LoadingMore.
Import StartGgApi.
Context (random_suffix : string).
Context (tournamentQuery : string -> outcome (option rawTournament)).
Context (phaseGroupsQuery : string -> string -> outcome (option phaseGroupData)).
Context (phaseGroupSetsQuery : Z -> Z -> outcome (option (list rawSet))).

Local Abbreviation load_group :=
  (load_phase_group random_suffix phaseGroupSetsQuery).
Local Abbreviation load_event :=
  (loadEventDetails random_suffix phaseGroupsQuery phaseGroupSetsQuery).
Local Abbreviation assemble :=
  (getTournamentBySlug random_suffix tournamentQuery phaseGroupsQuery phaseGroupSetsQuery).

Lemma remove_duplicates_elem self m :
  m ∈ remove_duplicates self
  <-> exists i, self !! i = Some m
                /\ findIndex (fun m' => String.eqb (Match.id m') (Match.id m)) self = Some i.
Proof.
  unfold remove_duplicates. rewrite list_elem_of_fmap. split.
  - intros ([i m'] & -> & Hin). apply list_elem_of_In, filter_In in Hin as [Hin Hkeep].
    apply list_elem_of_In, elem_of_lookup_imap in Hin as (j & y & Heq & Hlookup).
    injection Heq as -> ->. apply bool_decide_eq_true in Hkeep. cbn [fst snd] in *.
    exists j. split; assumption.
  - intros (i & Hlookup & Hfirst). exists (i, m). split; [reflexivity |].
    apply list_elem_of_In, filter_In. split.
    + apply list_elem_of_In, elem_of_lookup_imap. exists i, m. split; [reflexivity | exact Hlookup].
    + apply bool_decide_eq_true. exact Hfirst.
Qed.

Lemma remove_duplicates_NoDup self : NoDup (map Match.id (remove_duplicates self)).
Proof.
  unfold remove_duplicates. rewrite map_map.
  apply (NoDup_fmap_2_strong (fun im : nat * Match.t => Match.id im.2)).
  - intros [i m] [j m'] Hx Hy Hid. cbn [snd] in Hid.
    apply list_elem_of_In, filter_In in Hx as [Hx Hkx].
    apply list_elem_of_In, filter_In in Hy as [Hy Hky].
    apply list_elem_of_In, elem_of_lookup_imap in Hx as (i0 & m0 & Heq & Hlx).
    injection Heq as -> ->.
    apply list_elem_of_In, elem_of_lookup_imap in Hy as (j0 & m1 & Heq & Hly).
    injection Heq as -> ->.
    apply bool_decide_eq_true in Hkx, Hky. cbn [fst snd] in *.
    rewrite Hid in Hkx. assert (i0 = j0) as -> by congruence.
    f_equal. congruence.
  - apply NoDup_List_filter. apply NoDup_alt. intros i j [i' m] Hi Hj.
    rewrite list_lookup_imap in Hi, Hj.
    destruct (self !! i) as [x |]; [| discriminate].
    destruct (self !! j) as [y |]; [| discriminate].
    cbn in Hi, Hj. congruence.
Qed.

Lemma remove_duplicates_ids self id :
  id ∈ map Match.id (remove_duplicates self) <-> id ∈ map Match.id self.
Proof.
  rewrite !list_elem_of_fmap. split.
  - intros (m & -> & Hin). apply remove_duplicates_elem in Hin as (i & Hlookup & _).
    exists m. split; [reflexivity |]. eapply list_elem_of_lookup_2, Hlookup.
  - intros (m & -> & Hin).
    destruct (findIndex_found (fun m' => String.eqb (Match.id m') (Match.id m)) self m Hin)
      as [i Hfirst]; [apply String.eqb_refl |].
    destruct (findIndex_Some _ _ _ Hfirst) as (x & Hlookup & Hsame).
    apply String.eqb_eq in Hsame. exists x. split; [congruence |].
    apply remove_duplicates_elem. exists i. split; [exact Hlookup |].
    rewrite Hsame. exact Hfirst.
Qed.


Lemma set_bracket_matches_labels brackets phaseGroupId matches :
  bracket_labels (set_bracket_matches brackets phaseGroupId matches)
  = bracket_labels brackets.
Proof.
  unfold set_bracket_matches, bracket_labels.
  destruct (findIndex _ brackets) as [bracketIndex |]; [| reflexivity].
  revert bracketIndex. induction brackets as [|b brackets IH]; intros [|n];
    cbn; try reflexivity. f_equal. apply IH.
Qed.

Lemma load_phase_group_keeps tournamentSlug event allMatches0 allPlayers0 phaseGroup :
  let event' := (load_group tournamentSlug (event, allMatches0, allPlayers0) phaseGroup).1.1 in
  same_event event event'
  /\ bracket_labels (TournamentEvent.brackets event')
     = bracket_labels (TournamentEvent.brackets event)
  /\ (Forall (fun m => is_current m = true) (TournamentEvent.currentMatches event) ->
      Forall (fun m => is_current m = true) (TournamentEvent.currentMatches event')).
Proof.
  unfold load_phase_group. cbn [fst]. split; [| split].
  - unfold same_event. cbn. repeat split. eexists. reflexivity.
  - cbn [TournamentEvent.brackets]. apply set_bracket_matches_labels.
  - intros Hcurrent. cbn [TournamentEvent.currentMatches]. apply Forall_app.
    split; [exact Hcurrent |]. apply Forall_forall. intros m Hin.
    apply list_elem_of_In, filter_In in Hin as [_ Hm]. exact Hm.
Qed.

Lemma same_event_refl event : same_event event event.
Proof. unfold same_event. repeat split. exists []. rewrite app_nil_r. reflexivity. Qed.

Lemma same_event_trans a b c : same_event a b -> same_event b c -> same_event a c.
Proof.
  unfold same_event. intros (Hi & Hn & Hs & more & Hp) (Hi' & Hn' & Hs' & more' & Hp').
  repeat split; try congruence. exists (more ++ more')%list.
  rewrite Hp', Hp, <- app_assoc. reflexivity.
Qed.

Lemma load_phase_groups_keep tournamentSlug groups acc :
  let event := acc.1.1 in
  let event' := (fold_left (load_group tournamentSlug) groups acc).1.1 in
  same_event event event'
  /\ bracket_labels (TournamentEvent.brackets event')
     = bracket_labels (TournamentEvent.brackets event)
  /\ (Forall (fun m => is_current m = true) (TournamentEvent.currentMatches event) ->
      Forall (fun m => is_current m = true) (TournamentEvent.currentMatches event')).
Proof.
  revert acc. induction groups as [|g groups IH]; intros [[event am] ap]; cbn [fold_left fst].
  - split; [apply same_event_refl | split; [reflexivity | auto]].
  - destruct (load_phase_group_keeps tournamentSlug event am ap g) as (Hsame & Hlabels & Hcur).
    specialize (IH (load_group tournamentSlug (event, am, ap) g)). cbn zeta in IH.
    destruct IH as (Hsame' & Hlabels' & Hcur').
    split; [eapply same_event_trans; eassumption |].
    split; [congruence | auto].
Qed.

Lemma loadEventDetails_kept event tournamentSlug :
  let answer := phaseGroupsQuery tournamentSlug (TournamentEvent.id event) in
  (is_rejected (load_event event tournamentSlug) = true
   <-> is_rejected answer = true
       \/ answer = Resolved None
       \/ first_event answer = Some None
       \/ exists eventDetails listed,
            first_event answer = Some (Some eventDetails)
            /\ phaseGroups eventDetails = Some listed
            /\ None ∈ listed)
  /\ forall event',
       load_event event tournamentSlug = Resolved event' ->
       same_event event event'
       /\ (current_only event -> current_only event')
       /\ forall eventDetails groups,
            first_event answer = Some (Some eventDetails) ->
            phaseGroups eventDetails = Some (Some <$> groups) ->
            current_only event'
            /\ bracket_labels (TournamentEvent.brackets event')
               = map (fun g => (phaseGroup_id g, getBracketName g)) groups.
Proof.
  intros answer. unfold loadEventDetails. fold answer.
  destruct answer as [[[[[|[eventDetails |] rest] |]] |] | e] eqn:Hanswer;
    cbn [data_events first_event mbind option_bind head is_rejected is_resolved negb].
  (* no event listed *)
  1: { split.
       - split; [discriminate |].
         intros [H | [H | [H | (d & l & H & _)]]]; discriminate H.
       - intros event' Hload. injection Hload as <-.
         split; [apply same_event_refl |]. split; [auto |].
         intros d groups H. discriminate H. }
  (* a first event with phase groups, maybe *)
  1: { destruct (phaseGroups eventDetails) as [listed |] eqn:Hlisted.
       2: { split.
            - split; [discriminate |].
              intros [H | [H | [H | (d & l & H & Hl & _)]]]; try discriminate H.
              injection H as <-. congruence.
            - intros event' Hload. injection Hload as <-.
              split; [apply same_event_refl |]. split; [auto |].
              intros d groups H Hg. injection H as <-. congruence. }
       destruct (mapM id listed) as [groups |] eqn:Hgroups.
       2: { split.
            - split; [| reflexivity]. intros _. right. right. right.
              exists eventDetails, listed. split; [reflexivity |]. split; [exact Hlisted |].
              apply mapM_None_1, Exists_exists in Hgroups as (x & Hx & Hnone).
              cbn in Hnone. subst x. exact Hx.
            - intros event' Hload. discriminate Hload. }
       set (event0 := TournamentEvent.mk _ _ _ _ _ _).
       pose proof (load_phase_groups_keep tournamentSlug groups (event0, [], [])) as Hkeep.
       cbn zeta in Hkeep. cbn [fst] in Hkeep.
       destruct (fold_left _ groups (event0, [], [])) as [[ev am] ap]. cbn [fst] in Hkeep.
       destruct Hkeep as (Hsame & Hlabels & Hcurrent).
       assert (Hcur : current_only
                        {| TournamentEvent.id := TournamentEvent.id ev;
                           TournamentEvent.name := TournamentEvent.name ev;
                           TournamentEvent.slug := TournamentEvent.slug ev;
                           TournamentEvent.brackets := TournamentEvent.brackets ev;
                           TournamentEvent.participants := TournamentEvent.participants ev;
                           TournamentEvent.currentMatches :=
                             remove_duplicates (TournamentEvent.currentMatches ev) |}).
       { unfold current_only. cbn [TournamentEvent.currentMatches]. split.
         - apply Forall_forall. intros m Hin.
           apply remove_duplicates_elem in Hin as (i & Hlookup & _).
           assert (Hall : Forall (fun m => is_current m = true)
                            (TournamentEvent.currentMatches ev))
             by (apply Hcurrent; constructor).
           rewrite Forall_forall in Hall. apply Hall.
           eapply list_elem_of_lookup_2, Hlookup.
         - apply remove_duplicates_NoDup. }
       split.
       - split; [discriminate |].
         intros [H | [H | [H | (d & l & H & Hl & Hnull)]]]; try discriminate H.
         injection H as <-. rewrite Hlisted in Hl. injection Hl as <-.
         apply mapM_Some_1 in Hgroups.
         apply list_elem_of_lookup_1 in Hnull as [n Hn].
         destruct (Forall2_lookup_l _ _ _ _ _ Hgroups Hn) as (g & _ & Hg).
         discriminate Hg.
       - intros event' Hload. injection Hload as <-.
         split; [| split; [intros _; exact Hcur |]].
         + destruct Hsame as (Hi & Hn & Hs & more & Hp). unfold same_event.
           cbn [TournamentEvent.id TournamentEvent.name TournamentEvent.slug
                TournamentEvent.participants].
           repeat split; try assumption. exists more. exact Hp.
         + intros d groups' H Hg. injection H as <-.
           rewrite Hlisted in Hg. injection Hg as ->.
           rewrite (mapM_fmap_Some id Some groups') in Hgroups by reflexivity.
           injection Hgroups as <-.
           split; [exact Hcur |].
           cbn [TournamentEvent.brackets]. rewrite Hlabels. unfold event0, bracket_labels.
           cbn [TournamentEvent.brackets]. rewrite map_map. reflexivity. }
  (* a null first event *)
  1: { split.
       - split; [| reflexivity]. intros _. right. right. left. reflexivity.
       - intros event' Hload. discriminate Hload. }
  (* no events field *)
  1: { split.
       - split; [discriminate |].
         intros [H | [H | [H | (d & l & H & _)]]]; discriminate H.
       - intros event' Hload. injection Hload as <-.
         split; [apply same_event_refl |]. split; [auto |].
         intros d groups H. discriminate H. }
  (* no data *)
  1: { split.
       - split; [| reflexivity]. intros _. right. left. reflexivity.
       - intros event' Hload. discriminate Hload. }
  (* the query is rejected *)
  split.
  - split; [| reflexivity]. intros _. left. reflexivity.
  - intros event' Hload. discriminate Hload.
Qed.

(** X19.  What [loadEventDetails] does to an event.  It is rejected
    exactly when the phase-group query is rejected, or resolves without
    data, or lists [null] as its first event, or lists a [null] phase group
    for it (the last three throw a [TypeError]).  When it resolves, the
    event keeps its id, name and slug and the participants it had, in their
    places, and its current matches are all pending or in progress, no
    match id twice, if those it came with were so (the early returns leave
    the event as it is).  When the query lists phase groups, none of them
    [null], the current matches are so whatever the event came with, and
    the event has one bracket per phase group, in order, with the phase
    group's id and the name [getBracketName] gives it. *)
Theorem loadEventDetails_keeps_event event tournamentSlug :
  let answer := phaseGroupsQuery tournamentSlug (TournamentEvent.id event) in
  (is_rejected (load_event event tournamentSlug) = true
   <-> is_rejected answer = true
       \/ answer = Resolved None
       \/ first_event answer = Some None
       \/ exists eventDetails listed,
            first_event answer = Some (Some eventDetails)
            /\ phaseGroups eventDetails = Some listed
            /\ None ∈ listed)
  /\ forall event',
       load_event event tournamentSlug = Resolved event' ->
       same_event event event'
       /\ (current_only event -> current_only event')
       /\ forall eventDetails groups,
            first_event answer = Some (Some eventDetails) ->
            phaseGroups eventDetails = Some (Some <$> groups) ->
            current_only event'
            /\ bracket_labels (TournamentEvent.brackets event')
               = map (fun g => (phaseGroup_id g, getBracketName g)) groups.
Proof. exact (loadEventDetails_kept event tournamentSlug). Qed.

End LoadingMore.

Section AssembleMore.
Import StartGgApi ttl_calculator.
Context (random_suffix : string).
Context (tournamentQuery : string -> outcome (option rawTournament)).
Context (phaseGroupsQuery : string -> string -> outcome (option phaseGroupData)).
Context (phaseGroupSetsQuery : Z -> Z -> outcome (option (list rawSet))).

Local Abbreviation load_event :=
  (loadEventDetails random_suffix phaseGroupsQuery phaseGroupSetsQuery).
Local Abbreviation assemble :=
  (getTournamentBySlug random_suffix tournamentQuery phaseGroupsQuery phaseGroupSetsQuery).
Local Abbreviation basic := (transformBasicTournamentData random_suffix).

Lemma transformBasicEventData_no_matches rawEvent :
  TournamentEvent.currentMatches (transformBasicEventData random_suffix rawEvent) = []
  /\ TournamentEvent.brackets (transformBasicEventData random_suffix rawEvent) = [].
Proof.
  unfold transformBasicEventData.
  destruct rawEvent as [ev |]; [destruct (truthy_number (event_id ev)) |];
    split; reflexivity.
Qed.

Lemma basic_events_current_only rawTournament :
  Forall current_only (Tournament.events (basic rawTournament)).
Proof.
  unfold transformBasicTournamentData. cbn [Tournament.events].
  destruct (tournament_events rawTournament) as [events |]; [| constructor].
  apply Forall_map, Forall_forall. intros rawEvent _.
  unfold current_only.
  destruct (transformBasicEventData_no_matches rawEvent) as [-> _].
  split; constructor.
Qed.

Lemma loaded_event_current_only tournamentSlug event :
  current_only event ->
  current_only match load_event event tournamentSlug with
               | Resolved event' => event'
               | Rejected _ => event
               end.
Proof.
  intros Hcurrent.
  destruct (loadEventDetails_kept random_suffix phaseGroupsQuery
              phaseGroupSetsQuery event tournamentSlug) as [_ Hkeeps].
  destruct (load_event event tournamentSlug) as [event' | e]; [| exact Hcurrent].
  destruct (Hkeeps event' eq_refl) as (_ & Hcur & _). exact (Hcur Hcurrent).
Qed.

Lemma current_only_no_completed events :
  Forall current_only events ->
  existsb (fun m => MatchStatus_eqb (Match.status m) completed)
    (flat_map TournamentEvent.currentMatches events) = false.
Proof.
  induction 1 as [|event events [Hcurrent _] _ IH]; [reflexivity |].
  cbn [flat_map]. rewrite existsb_app, IH, orb_false_r.
  induction Hcurrent as [|m ms Hm _ IHms]; [reflexivity |].
  cbn [existsb]. rewrite IHms, orb_false_r.
  unfold is_current in Hm. destruct (Match.status m); [reflexivity | reflexivity | discriminate Hm].
Qed.

(** X20.  The current matches of an assembled tournament.  In every
    tournament [getTournamentBySlug] returns, each event's current matches
    are pending or in progress, with no match id twice.  Hence, at any
    clock reading, the TTL computed for a freshly assembled tournament is
    15, 600 or 1800 (never 120), it agrees with the policy table, and the
    metadata reports no recently completed match. *)
Theorem getTournamentBySlug_current_matches slug tournament :
  assemble slug = Resolved tournament ->
  Forall current_only (Tournament.events tournament)
  /\ forall now,
       calculateDynamicTTL now tournament = ttl_policy_table now tournament
       /\ In (calculateDynamicTTL now tournament) [15; 600; 1800]
       /\ hasRecentMatches (getMatchStateMetadata now tournament) = false
       /\ recentlyCompleted (metadata_counts (getMatchStateMetadata now tournament)) = 0.
Proof.
  unfold getTournamentBySlug. intros Hload.
  destruct (tournamentQuery slug) as [[rawTournament |] | e]; try discriminate Hload.
  injection Hload as <-.
  assert (Hcurrent :
    Forall current_only
      (map (fun event => match load_event event slug with
                         | Resolved event' => event'
                         | Rejected _ => event
                         end) (Tournament.events (basic rawTournament)))).
  { apply Forall_map. eapply Forall_impl; [apply basic_events_current_only |].
    intros event. apply loaded_event_current_only. }
  split; [exact Hcurrent |]. intros now.
  set (tournament := Tournament.mk _ _ _ _ _).
  pose proof (current_only_no_completed _ Hcurrent) as Hnone.
  change (existsb (fun m => MatchStatus_eqb (Match.status m) completed)
            (all_current_matches tournament) = false) in Hnone.
  destruct (no_completed_no_recent now _ Hnone) as [Hrecent _].
  split; [apply calculateDynamicTTL_without_completed; exact Hnone |].
  split; [| split].
  - rewrite calculateDynamicTTL_rows. cbn zeta. rewrite Hrecent.
    destruct (existsb is_ongoing _); [cbn; auto |].
    destruct (existsb is_pending _); cbn; auto.
  - unfold getMatchStateMetadata. cbn [hasRecentMatches].
    rewrite count_events_tally. cbn zeta. cbn [recentlyCompleted].
    rewrite Z.add_0_l, tally_positive. exact Hrecent.
  - unfold getMatchStateMetadata. cbn [metadata_counts].
    rewrite count_events_tally. cbn zeta. cbn [recentlyCompleted].
    rewrite Z.add_0_l.
    pose proof (tally_positive (is_recently_completed now)
                  (flat_map TournamentEvent.currentMatches (Tournament.events tournament)))
      as Hpos.
    fold (all_current_matches tournament) in Hpos. rewrite Hrecent in Hpos.
    apply Z.ltb_ge in Hpos. unfold tally in *. 
    fold (all_current_matches tournament). lia.
Qed.

(** X21.  A failure to load an event does not fail the tournament.  When
    the tournament query returns a tournament, [getTournamentBySlug]
    resolves whatever the later queries do.  The result carries the id,
    name, slug and url of the basic transformation and one event per
    event of it, in order, each with its id, name and slug and with the
    participants of the entrant sample in front; an event whose phase-group
    query is rejected is returned as the basic transformation made it. *)
Theorem getTournamentBySlug_survives_event_failures slug rawTournament :
  tournamentQuery slug = Resolved (Some rawTournament) ->
  exists tournament,
    assemble slug = Resolved tournament
    /\ Tournament.id tournament = Tournament.id (basic rawTournament)
    /\ Tournament.name tournament = Tournament.name (basic rawTournament)
    /\ Tournament.slug tournament = Tournament.slug (basic rawTournament)
    /\ Tournament.url tournament = Tournament.url (basic rawTournament)
    /\ Forall2 same_event (Tournament.events (basic rawTournament))
         (Tournament.events tournament)
    /\ forall i event,
         Tournament.events (basic rawTournament) !! i = Some event ->
         is_rejected (phaseGroupsQuery slug (TournamentEvent.id event)) = true ->
         Tournament.events tournament !! i = Some event.
Proof.
  intros Hquery. unfold getTournamentBySlug. rewrite Hquery.
  eexists. split; [reflexivity |]. cbn [Tournament.id Tournament.name Tournament.slug
    Tournament.url Tournament.events].
  repeat split.
  - apply Forall2_fmap_r, Forall_Forall2_diag, Forall_forall. intros event _.
    destruct (loadEventDetails_kept random_suffix phaseGroupsQuery
                phaseGroupSetsQuery event slug) as [_ Hkeeps].
    unfold compose. destruct (load_event event slug) as [event' | e]; [| apply same_event_refl].
    destruct (Hkeeps event' eq_refl) as (Hsame & _). exact Hsame.
  - intros i event Hlookup Hrejected. rewrite list_lookup_fmap, Hlookup. cbn.
    destruct (loadEventDetails_kept random_suffix phaseGroupsQuery
                phaseGroupSetsQuery event slug) as [Hrej _].
    cbn zeta in Hrej. apply proj2 in Hrej. specialize (Hrej (or_introl Hrejected)).
    destruct (load_event event slug) as [event' | e]; [discriminate Hrej | reflexivity].
Qed.

End AssembleMore.

Lemma getTournamentBySlug_current_matches_witness :
  exists tournament,
    StartGgApi.getTournamentBySlug "x" fixtures.one_tournament fixtures.one_phase_group
      (fixtures.paged_sets fixtures.three_sets) "demo"
    = Resolved tournament
    /\ map (fun event => map Match.id (TournamentEvent.currentMatches event))
         (Tournament.events tournament) = [["1"; "2"]]
    /\ ttl_calculator.calculateDynamicTTL 1700000100000 tournament
       = ttl_calculator.ttl_policy_table 1700000100000 tournament.
Proof.
  eexists. split; [vm_compute; reflexivity |]. split; [vm_compute; reflexivity |].
  refine (proj1 (proj2 (getTournamentBySlug_current_matches "x" fixtures.one_tournament
                          fixtures.one_phase_group (fixtures.paged_sets fixtures.three_sets)
                          "demo" _ _) 1700000100000)).
  vm_compute. reflexivity.
Defined.

Lemma getTournamentBySlug_survives_event_failures_witness :
  exists tournament,
    StartGgApi.getTournamentBySlug "x" fixtures.one_tournament
      (fun _ _ => Rejected "API Error: timeout (Status: Unknown)")
      (fun _ _ => Resolved None) "demo"
    = Resolved tournament
    /\ map TournamentEvent.name (Tournament.events tournament) = ["Singles"].
Proof.
  destruct (getTournamentBySlug_survives_event_failures "x" fixtures.one_tournament
              (fun _ _ => Rejected "API Error: timeout (Status: Unknown)")
              (fun _ _ => Resolved None) "demo" fixtures.tournament_with_nameless_entrant
              eq_refl) as (tournament & Hload & _).
  exists tournament. split; [exact Hload |].
  unfold StartGgApi.getTournamentBySlug in Hload. cbn in Hload.
  injection Hload as <-. reflexivity.
Defined.

Section PagedMore.
Import StartGgApi.
Context (random_suffix : string).
Context (phaseGroupSetsQuery : Z -> Z -> outcome (option (list rawSet))).
Context (tournamentSlug : string) (phaseGroup : rawPhaseGroup).
Context (sets : list rawSet).
Hypothesis paged :
  forall page,
    phaseGroupSetsQuery (phaseGroup_id phaseGroup) page
    = Resolved (Some (serve_page sets page)).

Local Abbreviation turn :=
  (page_turn random_suffix phaseGroupSetsQuery tournamentSlug phaseGroup).
Local Abbreviation loop :=
  (page_loop random_suffix phaseGroupSetsQuery tournamentSlug phaseGroup).
Local Abbreviation transformed l :=
  (map (fun set => transformMatchData random_suffix set (getBracketName phaseGroup)) l).

Local Abbreviation gathered := (StartGgApi.gathered random_suffix phaseGroup sets).

Lemma page_turn_gathered st (i : nat) allMatches0 :
  page st = Z.of_nat i + 1 ->
  gathered (30 * i) allMatches0 st ->
  gathered (30 * S i) allMatches0 (turn st).
Proof.
  intros Hpage [Hbracket Hall].
  assert (Hserved : serve_page sets (page st) = take 30 (drop (30 * i) sets)).
  { unfold serve_page. rewrite Hpage. do 2 f_equal. lia. }
  assert (Htake : take (30 * S i) sets
                  = (take (30 * i) sets ++ take 30 (drop (30 * i) sets))%list).
  { rewrite take_take_drop. f_equal. lia. }
  unfold StartGgApi.gathered, page_turn, loadPhaseGroupSets. rewrite paged, Hserved.
  destruct (Nat.ltb_spec 0 (length (take 30 (drop (30 * i) sets)))) as [_ | Hempty];
    cbn [bracketMatches allMatches].
  - rewrite Hbracket, Hall, Htake, map_app, <- app_assoc. split; reflexivity.
  - assert (Hnil : take 30 (drop (30 * i) sets) = [])
      by (apply length_zero_iff_nil; lia).
    rewrite Htake, Hnil, app_nil_r. split; assumption.
Qed.

Lemma page_loop_gathered_from (d i : nat) st allMatches0 :
  (i + d = 10)%nat ->
  page st = Z.of_nat i + 1 -> hasMorePages st = true ->
  gathered (30 * i) allMatches0 st ->
  (30 * i <= length sets)%nat ->
  gathered 300 allMatches0 (loop st).
Proof.
  revert i st. induction d as [|d IH]; intros i st Hsum Hpage Hmore Hgathered Hfull.
  - assert (i = 10)%nat as -> by lia.
    rewrite page_loop_step.
    destruct (decide (hasMorePages st = true /\ page st <= 10)) as [[_ Hle] | _]; [lia |].
    exact Hgathered.
  - rewrite page_loop_step.
    destruct (decide (hasMorePages st = true /\ page st <= 10)) as [_ | Hno];
      [| exfalso; apply Hno; split; [exact Hmore | lia]].
    pose proof (page_turn_gathered st i allMatches0 Hpage Hgathered) as Hnext.
    destruct (page_turn_paged random_suffix phaseGroupSetsQuery tournamentSlug phaseGroup
                sets paged st i Hpage Hmore) as [_ Hturn].
    destruct (Nat.ltb_spec (length sets - 30 * i) 30) as [Hshort | Hlong].
    + rewrite page_loop_step.
      destruct (decide (hasMorePages (turn st) = true /\ page (turn st) <= 10))
        as [[Hmore' _] | _]; [congruence |].
      unfold StartGgApi.gathered in *. rewrite !(take_ge sets) in * by lia. exact Hnext.
    + destruct Hturn as [Hmore' Hpage'].
      apply (IH (S i)); try assumption; lia.
Qed.

Lemma page_loop_gathered allMatches0 allPlayers0 :
  gathered 300 allMatches0 (loop (first_page allMatches0 allPlayers0)).
Proof.
  apply (page_loop_gathered_from 10 0); try reflexivity; [| lia].
  unfold StartGgApi.gathered. cbn. rewrite app_nil_r. split; reflexivity.
Qed.

End PagedMore.

(** X22.  What the page loop loads.  When the upstream serves a phase
    group's sets thirty to a page, the loop gathers the transformations of
    the first 300 sets, in the upstream's order, as the bracket's matches
    and behind the matches gathered before; sets beyond the 300th are left
    out without a warning, and a phase group of at most 300 sets is loaded
    whole. *)
Theorem page_loop_loads_first_300 random_suffix phaseGroupSetsQuery tournamentSlug
    phaseGroup sets allMatches0 allPlayers0 :
  (forall page,
     phaseGroupSetsQuery (StartGgApi.phaseGroup_id phaseGroup) page
     = Resolved (Some (StartGgApi.serve_page sets page))) ->
  let st :=
    StartGgApi.page_loop random_suffix phaseGroupSetsQuery tournamentSlug phaseGroup
      (StartGgApi.first_page allMatches0 allPlayers0) in
  let transform := fun set =>
    StartGgApi.transformMatchData random_suffix set (StartGgApi.getBracketName phaseGroup) in
  StartGgApi.bracketMatches st = map transform (take 300 sets)
  /\ StartGgApi.allMatches st = (allMatches0 ++ map transform (take 300 sets))%list
  /\ length (StartGgApi.bracketMatches st) = Nat.min 300 (length sets)
  /\ ((length sets <= 300)%nat -> StartGgApi.bracketMatches st = map transform sets).
Proof.
  intros Hpaged st transform.
  destruct (page_loop_gathered random_suffix phaseGroupSetsQuery tournamentSlug phaseGroup
              sets Hpaged allMatches0 allPlayers0) as [Hbracket Hall].
  fold st in Hbracket, Hall. cbn zeta in Hbracket, Hall. fold transform in Hbracket, Hall.
  split; [exact Hbracket |]. split; [exact Hall |]. split.
  - rewrite Hbracket, length_map, length_take. reflexivity.
  - intros Hle. rewrite Hbracket, take_ge by exact Hle. reflexivity.
Qed.

Lemma page_loop_loads_first_300_witness :
  map Match.id
    (StartGgApi.bracketMatches
       (StartGgApi.page_loop "x" (fixtures.paged_sets fixtures.three_sets) "demo"
          fixtures.a_phase_group (StartGgApi.first_page [] [])))
  = ["1"; "2"; "3"].
Proof.
  rewrite (proj1 (page_loop_loads_first_300 "x" (fixtures.paged_sets fixtures.three_sets)
                    "demo" fixtures.a_phase_group fixtures.three_sets [] []
                    (fun _ => eq_refl))).
  vm_compute. reflexivity.
Defined.

(** * Further properties of the router *)

Section RouterMore.
Import tournamentRouter.
Context {C : Type} `{!ICacheService Tournament.t C}.
Context (startgg : string -> outcome Tournament.t).

Local Abbreviation handler :=
  (fun message : string => Ret (status_json 500 (error_body message "backend"))).

Ltac run_step :=
  cbn [run try_catch perform effect on_cache fst snd cacheService in_flight journal
       describe await fetch_and_cache getTournamentBySlug].

(** The run of [fetch_and_cache], with the journal it leaves. *)
Lemma run_fetch_and_cache_journal slug clock n (w : world C) :
  exists r w' rest,
    run startgg clock n (try_catch (fetch_and_cache slug) handler) w = (Resolved r, w')
    /\ (status r = 200 \/ status r = 500)
    /\ (forall response,
          sent r = tournament_body response ->
          status r = 200 /\ cached response = false
          /\ startgg slug = Resolved (data response))
    /\ (is_rejected (startgg slug) = true -> status r = 500)
    /\ journal w' = (journal w ++ (0%nat, did_call slug) :: (0%nat, did_settle slug) :: rest)%list
    /\ List.filter is_call rest = []
    /\ List.filter is_read rest = []
    /\ List.filter is_del rest = [].
Proof.
  unfold fetch_and_cache, getTournamentBySlug, await. run_step.
  destruct (startgg slug) as [tournament | message] eqn:Hup; run_step.
  - destruct (ICacheService.set (clock (S (S n))) (cacheKey slug) tournament
                (ttl_calculator.calculateDynamicTTL (clock (S n)) tournament)
                (cacheService w)) as [[[] | message] s']; run_step.
    + do 3 eexists. split; [reflexivity |]. split; [left; reflexivity |].
      split; [intros response Hsent; injection Hsent as <-; auto |].
      split; [discriminate |].
      split; [rewrite <- !app_assoc; reflexivity |]. repeat split.
    + do 3 eexists. split; [reflexivity |]. split; [right; reflexivity |].
      split; [intros response Hsent; discriminate Hsent |].
      split; [reflexivity |].
      split; [rewrite <- !app_assoc; reflexivity |]. repeat split.
  - do 3 eexists. split; [reflexivity |]. split; [right; reflexivity |].
    split; [intros response Hsent; discriminate Hsent |].
    split; [reflexivity |].
    split; [rewrite <- !app_assoc; reflexivity |]. repeat split.
Qed.

(** X23.  [POST /:slug/refresh] never answers from the cache.  Whatever
    the cache service and the upstream do, the handler replies, with status
    200 or 500.  It first deletes the key; if the delete is rejected it
    answers 500 without going upstream; otherwise it goes upstream exactly
    once and never reads the cache.  A reply that carries a tournament has
    status 200 and [cached: false], and the tournament is the one the
    upstream returned. *)
Theorem post_refresh_fetches_fresh slug clock (w : world C) :
  let deleted := ICacheService.del (clock 0%nat) (cacheKey slug) (cacheService w) in
  exists r w' rest,
    run startgg clock 0 (post_refresh slug) w = (Resolved r, w')
    /\ (status r = 200 \/ status r = 500)
    /\ (forall response,
          sent r = tournament_body response ->
          status r = 200 /\ cached response = false
          /\ startgg slug = Resolved (data response))
    /\ journal w' = (journal w ++ (0%nat, did_del (cacheKey slug)) :: rest)%list
    /\ List.filter is_read rest = []
    /\ List.filter is_del rest = []
    /\ length (List.filter is_call rest) = (if is_resolved (fst deleted) then 1 else 0)%nat
    /\ (is_rejected (fst deleted) = true \/ is_rejected (startgg slug) = true ->
        status r = 500).
Proof.
  intros deleted. unfold post_refresh, await at 1. run_step.
  fold deleted. destruct deleted as [[[] | message] s1]; run_step.
  - set (w1 := {| cacheService := s1; in_flight := in_flight w;
                  journal := (journal w ++ [(0%nat, did_del (cacheKey slug))])%list |}).
    destruct (run_fetch_and_cache_journal slug clock 1 w1)
      as (r & w' & rest & Hrun & Hstatus & Hbody & Hfailed & Hjournal & Hcalls & Hreads
          & Hdels).
    exists r, w'. eexists. split; [exact Hrun |]. split; [exact Hstatus |].
    split; [exact Hbody |].
    split; [rewrite Hjournal; unfold w1; cbn [journal]; rewrite <- app_assoc; reflexivity |].
    cbn [List.filter is_read is_del is_call snd]. rewrite Hreads, Hdels, Hcalls.
    repeat split. intros [Hdel | Hup]; [discriminate Hdel | exact (Hfailed Hup)].
  - do 3 eexists. split; [reflexivity |]. split; [right; reflexivity |].
    split; [intros response Hsent; discriminate Hsent |].
    split; [reflexivity |]. repeat split.
Qed.

(** X24.  [GET /:slug/cache-status] only looks.  Whatever the cache
    service does, the handler replies; it never goes upstream, writes or
    deletes; it asks [exists] first and [getMetadata] only when the key
    exists.  When [exists] is rejected, or the key exists and
    [getMetadata] is rejected, the reply is a 500 with the fixed message
    (the error's own message is not sent); when the key does not exist the
    reply is a 200 with [cached: false] and no metadata; when it exists and
    [getMetadata] resolves, the reply is a 200 with [cached: true] and the
    metadata [getMetadata] gave. *)
Theorem get_cache_status_only_reads slug clock (w : world C) :
  let probed := ICacheService.exists_ (clock 0%nat) (cacheKey slug) (cacheService w) in
  let described := ICacheService.getMetadata (clock 1%nat) (cacheKey slug) (snd probed) in
  let failed := status_json 500 (error_body "Failed to check cache status" "backend") in
  exists r w' rest,
    run startgg clock 0 (get_cache_status slug) w = (Resolved r, w')
    /\ journal w' = (journal w ++ (0%nat, did_exists (cacheKey slug)) :: rest)%list
    /\ in_flight w' = in_flight w
    /\ (forall message,
          fst probed = Rejected message ->
          r = failed /\ rest = [] /\ cacheService w' = snd probed)
    /\ (fst probed = Resolved false ->
        r = json (cache_status_body false None) /\ rest = []
        /\ cacheService w' = snd probed)
    /\ (fst probed = Resolved true ->
        rest = [(0%nat, did_getMetadata (cacheKey slug))]
        /\ cacheService w' = snd described
        /\ (forall metadata,
              fst described = Resolved metadata ->
              r = json (cache_status_body true metadata))
        /\ (forall message, fst described = Rejected message -> r = failed))
    /\ (status r = 200 \/ r = failed)
    /\ (r = failed
        <-> is_rejected (fst probed) = true
            \/ (fst probed = Resolved true /\ is_rejected (fst described) = true)).
Proof.
  intros probed described failed. unfold get_cache_status, await at 1. run_step.
  unfold described. clear described. fold probed.
  destruct probed as [[[|] | message] s1]; run_step.
  - unfold await. run_step.
    destruct (ICacheService.getMetadata (clock 1%nat) (cacheKey slug) s1)
      as [[metadata | message] s2]; run_step.
    + do 3 eexists. split; [reflexivity |].
      split; [rewrite <- app_assoc; reflexivity |].
      split; [reflexivity |]. split; [discriminate |]. split; [discriminate |].
      split; [| split; [left; reflexivity |]].
      * intros _. split; [reflexivity |]. split; [reflexivity |].
        split; [intros metadata' Hm; congruence | discriminate].
      * split; [discriminate |]. intros [H | [_ H]]; discriminate H.
    + do 3 eexists. split; [reflexivity |].
      split; [rewrite <- app_assoc; reflexivity |].
      split; [reflexivity |]. split; [discriminate |]. split; [discriminate |].
      split; [| split; [right; reflexivity |]].
      * intros _. split; [reflexivity |]. split; [reflexivity |].
        split; [discriminate | reflexivity].
      * split; [intros _; right; split; reflexivity | reflexivity].
  - do 3 eexists. split; [reflexivity |]. split; [reflexivity |].
    split; [reflexivity |]. split; [discriminate |].
    split; [intros _; repeat split |]. split; [discriminate |].
    split; [left; reflexivity |].
    split; [discriminate |]. intros [H | [H _]]; discriminate H.
  - do 3 eexists. split; [reflexivity |]. split; [reflexivity |].
    split; [reflexivity |]. split; [intros message' _; repeat split |].
    split; [discriminate |]. split; [discriminate |].
    split; [right; reflexivity |].
    split; [intros _; left; reflexivity | reflexivity].
Qed.

End RouterMore.

Section WarmReads.
Import tournamentRouter.
Context (startgg : string -> outcome Tournament.t).

Local Abbreviation memory := (gmap string (CacheEntry.t Tournament.t)).

Lemma run_post_refresh_memory slug tournament clock (w : world memory) :
  startgg slug = Resolved tournament ->
  cacheService (snd (run startgg clock 0 (post_refresh slug) w))
  = InMemoryCacheService.set (clock 3%nat) (cacheKey slug) tournament
      (ttl_calculator.calculateDynamicTTL (clock 2%nat) tournament)
      (InMemoryCacheService.del (cacheKey slug) (cacheService w))
  /\ fst (run startgg clock 0 (post_refresh slug) w)
     = Resolved
         (json (tournament_body
                  {| data := tournament; cached := false;
                     cachedAt := Some (clock 3%nat);
                     ttl := Some (ttl_calculator.calculateDynamicTTL (clock 2%nat) tournament);
                     matchState :=
                       ttl_calculator.getMatchStateMetadata (clock 2%nat) tournament |})).
Proof.
  intros Hup. unfold post_refresh, fetch_and_cache, getTournamentBySlug, await.
  cbn [run try_catch perform effect on_cache fst snd cacheService in_flight journal
       describe ICacheService.del InMemoryCacheService.service].
  rewrite Hup.
  cbn [run try_catch perform effect on_cache fst snd cacheService in_flight journal
       describe ICacheService.set InMemoryCacheService.service].
  split; reflexivity.
Qed.

(** X25.  The router honours the TTL.  On the in-memory cache, after a
    refresh that the upstream answered, a read whose two cache look-ups
    happen before the entry expires is answered from the cache: status 200,
    [cached: true], the tournament the refresh stored, [cachedAt] the
    instant of the write and [ttl] the whole seconds that remain; no
    upstream call is made and the cache is left as it is.  A read that
    comes when the entry has expired goes upstream again and is answered
    with [cached: false]. *)
Theorem refresh_then_read slug tournament clock clock' (w : world memory) :
  startgg slug = Resolved tournament ->
  let ttl := ttl_calculator.calculateDynamicTTL (clock 2%nat) tournament in
  let expiry := clock 3%nat + ttl * 1000 in
  let w1 := snd (run startgg clock 0 (post_refresh slug) w) in
  (clock' 0%nat < expiry -> clock' 1%nat < expiry ->
   exists w2,
     run startgg clock' 0 (get_tournament slug None) w1
     = (Resolved
          (json (tournament_body
                   {| data := tournament; cached := true;
                      cachedAt := Some (clock 3%nat);
                      ttl := Some ((expiry - clock' 1%nat) / 1000);
                      matchState :=
                        ttl_calculator.getMatchStateMetadata (clock' 1%nat) tournament |})),
        w2)
     /\ cacheService w2 = cacheService w1
     /\ fetches w2 = fetches w1)
  /\ (expiry <= clock' 0%nat ->
      exists response w2,
        run startgg clock' 0 (get_tournament slug None) w1
        = (Resolved (json (tournament_body response)), w2)
        /\ data response = tournament
        /\ cached response = false
        /\ cachedAt response = Some (clock' 3%nat)).
Proof.
  intros Hup ttl expiry w1.
  destruct (run_post_refresh_memory slug tournament clock w Hup) as [Hcache _].
  fold w1 in Hcache. fold ttl in Hcache.
  assert (Hlookup : cacheService w1 !! cacheKey slug
                    = Some (CacheEntry.mk tournament expiry (clock 3%nat))).
  { rewrite Hcache. apply InMemory_set_lookup. }
  split.
  - intros Hget Hmeta.
    destruct (run_get_tournament_hit startgg slug None tournament clock' w1
                (cacheService w1)
                (Resolved (Some {| CacheMetadata.key := cacheKey slug;
                                   CacheMetadata.ttl := (expiry - clock' 1%nat) / 1000;
                                   CacheMetadata.createdAt := clock 3%nat;
                                   CacheMetadata.expiresAt := expiry |}))
                (cacheService w1)) as (w2 & Hrun & Hsame & Hcalls).
    + discriminate.
    + cbn [ICacheService.get InMemoryCacheService.service].
      unfold InMemoryCacheService.get. rewrite Hlookup.
      cbn [CacheEntry.expiresAt CacheEntry.data].
      destruct (Z.leb_spec expiry (clock' 0%nat)); [lia | reflexivity].
    + cbn [ICacheService.getMetadata InMemoryCacheService.service].
      unfold InMemoryCacheService.getMetadata. rewrite Hlookup.
      cbn [CacheEntry.expiresAt CacheEntry.createdAt].
      destruct (Z.leb_spec expiry (clock' 1%nat)); [lia | reflexivity].
    + exists w2. split; [exact Hrun |]. split; [exact Hsame | exact Hcalls].
  - intros Hexpired.
    assert (Hmiss : fst (ICacheService.get (clock' 0%nat) (cacheKey slug) (cacheService w1))
                    = Resolved None).
    { cbn [ICacheService.get InMemoryCacheService.service].
      unfold InMemoryCacheService.get. rewrite Hlookup. cbn [CacheEntry.expiresAt].
      destruct (Z.leb_spec expiry (clock' 0%nat)); [reflexivity | lia]. }
    destruct (run_get_tournament_upstream startgg slug None clock' w1 (or_intror Hmiss))
      as (n & w1' & Hrun & _ & Hread & _).
    destruct (Hread ltac:(discriminate)) as [-> _].
    destruct (run_fetch_and_cache startgg slug tournament clock' 1 w1' Hup)
      as (w2 & Hfetch & _).
    rewrite Hrun, Hfetch. cbn [ICacheService.set InMemoryCacheService.service fst].
    do 2 eexists. split; [reflexivity |]. repeat split.
Qed.

End WarmReads.

Lemma refresh_then_read_witness :
  exists response w2,
    tournamentRouter.run fixtures.startgg_demo (fun n => 1000 + 500 * Z.of_nat n) 0
      (tournamentRouter.get_tournament "demo" None)
      (snd (tournamentRouter.run fixtures.startgg_demo fixtures.milliseconds 0
              (tournamentRouter.post_refresh "demo") fixtures.cold))
    = (Resolved (tournamentRouter.json (tournamentRouter.tournament_body response)), w2)
    /\ tournamentRouter.cached response = true
    /\ tournamentRouter.ttl response = Some 599.
Proof.
  destruct (proj1 (refresh_then_read fixtures.startgg_demo "demo" fixtures.demo
                     fixtures.milliseconds (fun n => 1000 + 500 * Z.of_nat n)
                     fixtures.cold eq_refl))
    as (w2 & Hrun & _).
  - vm_compute. reflexivity.
  - vm_compute. reflexivity.
  - do 2 eexists. split; [exact Hrun |]. split; reflexivity.
Defined.

(** * Further properties of the transformations *)

Section TransformMore.
Import StartGgApi.
Context (random_suffix : string).

Lemma string_or_nonempty x d : d <> "" -> string_or x d <> "".
Proof.
  intros Hd. unfold string_or. destruct x as [s |]; [| exact Hd].
  destruct (String.eqb_spec s ""); [exact Hd | assumption].
Qed.

Lemma getBracketName_nonempty phaseGroup : getBracketName phaseGroup <> "".
Proof.
  unfold getBracketName.
  assert (Hid : string_or (displayIdentifier phaseGroup)
                  ("Pool " +:+ pretty (phaseGroup_id phaseGroup)) <> "")
    by (apply string_or_nonempty; discriminate).
  destruct (String.eqb_spec (string_or (phase_name phaseGroup) "") "") as [_ | Hphase];
    [exact Hid |].
  destruct (string_or (phase_name phaseGroup) ""); [contradiction | discriminate].
Qed.

Lemma is_winner_entrant playerData winnerId :
  is_winner playerData winnerId = true ->
  exists e, playerData = Some e /\ entrant_id e = winnerId.
Proof.
  unfold is_winner. destruct playerData as [e |]; cbn; [| discriminate].
  destruct (entrant_id e) as [a |] eqn:Ha; [| discriminate].
  destruct winnerId as [b |]; [| discriminate].
  intros Heq. apply Z.eqb_eq in Heq as ->. exists e. split; [reflexivity | exact Ha].
Qed.

(** X26.  The shape of a transformed match.  The winner, when there is
    one, is the match's first or second player, and the set named a winner;
    the status is [completed] exactly for a set with an id in state 3 and
    [in_progress] exactly for one in state 2, every other set being
    pending; a bracket name that is not empty is carried over as it is, and
    the names [getBracketName] gives never are empty; and a timestamp of 0
    is dropped. *)
Theorem transformMatchData_shape set bracketName :
  let m := transformMatchData random_suffix set bracketName in
  (forall winner,
     Match.winner m = Some winner ->
     truthy_number (winnerId set) = true
     /\ (Match.player1 m = Some winner \/ Match.player2 m = Some winner))
  /\ (Match.status m = completed
      <-> truthy_number (set_id set) = true /\ state set = Some 3)
  /\ (Match.status m = in_progress
      <-> truthy_number (set_id set) = true /\ state set = Some 2)
  /\ (bracketName <> "" -> Match.bracketName m = bracketName)
  /\ (forall phaseGroup,
        Match.bracketName
          (transformMatchData random_suffix set (getBracketName phaseGroup))
        = getBracketName phaseGroup)
  /\ Match.completedAt m <> Some 0
  /\ (truthy_number (set_id set) = false ->
      Match.id m = "invalid-" +:+ random_suffix
      /\ Match.player1 m = None /\ Match.player2 m = None /\ Match.winner m = None).
Proof.
  assert (Hname : forall name, name <> "" -> string_or (Some name) "Unknown Bracket" = name).
  { intros name Hne. cbn [string_or]. destruct (String.eqb_spec name ""); congruence. }
  intros m. unfold m, transformMatchData.
  destruct (truthy_number (set_id set)) eqn:Hid; cbn [negb].
  - cbn [Match.winner Match.player1 Match.player2 Match.status Match.completedAt
         Match.bracketName Match.id].
    split; [| split; [| split; [| split; [| split; [| split]]]]].
    + intros winner. destruct (truthy_number (winnerId set)); [| discriminate].
      destruct (is_winner (default [] (slots set) !! 0%nat ≫= entrant) (winnerId set))
        eqn:Hfirst.
      { apply is_winner_entrant in Hfirst as (e & -> & _).
        intros Heq. split; [reflexivity | left; exact Heq]. }
      destruct (is_winner (default [] (slots set) !! 1%nat ≫= entrant) (winnerId set))
        eqn:Hsecond; [| discriminate].
      apply is_winner_entrant in Hsecond as (e & -> & _).
      intros Heq. split; [reflexivity | right; exact Heq].
    + unfold getMatchStatus. split.
      * intros Hstatus. split; [reflexivity |].
        destruct (state set) as [[|[p|p|]|p] |]; try discriminate Hstatus;
          destruct p; try discriminate Hstatus; reflexivity.
      * intros [_ ->]. reflexivity.
    + unfold getMatchStatus. split.
      * intros Hstatus. split; [reflexivity |].
        destruct (state set) as [[|[p|p|]|p] |]; try discriminate Hstatus;
          destruct p; try discriminate Hstatus; reflexivity.
      * intros [_ ->]. reflexivity.
    + exact (Hname bracketName).
    + intros phaseGroup. apply Hname, getBracketName_nonempty.
    + unfold number_or_undefined, truthy_number.
      destruct (set_completedAt set) as [n |]; [| discriminate].
      destruct (Z.eqb_spec n 0); cbn [negb]; congruence.
    + discriminate.
  - cbn [Match.winner Match.player1 Match.player2 Match.status Match.completedAt
         Match.bracketName Match.id].
    split; [discriminate |]. split; [split; [discriminate | intros [H _]; discriminate H] |].
    split; [split; [discriminate | intros [H _]; discriminate H] |].
    split; [| split; [| split; [discriminate | auto]]].
    + exact (Hname bracketName).
    + intros phaseGroup. apply Hname, getBracketName_nonempty.
Qed.

End TransformMore.

(** * Slugs from URLs *)

Section UrlFacts.
Import StartGgApi.

Lemma until_slash_split s :
  exists post,
    s = until_slash s +:+ post
    /\ slash_free (until_slash s)
    /\ (post = "" \/ exists post', post = "/" +:+ post').
Proof.
  induction s as [|c s (post & Hs & Hfree & Hpost)]; cbn [until_slash].
  - exists "". repeat split; [constructor | left; reflexivity].
  - destruct (Ascii.eqb_spec c "/"%char) as [-> | Hc].
    + exists (String "/"%char s). repeat split; [constructor | right; exists s; reflexivity].
    + exists post. split; [rewrite Hs at 1; reflexivity |]. split; [| exact Hpost].
      constructor; assumption.
Qed.

Lemma until_slash_free slug post :
  slash_free slug -> (post = "" \/ exists post', post = "/" +:+ post') ->
  until_slash (slug +:+ post) = slug.
Proof.
  unfold slash_free. induction slug as [|c slug IH]; intros Hfree Hpost.
  - destruct Hpost as [-> | [post' ->]]; reflexivity.
  - cbn [list_ascii_of_string] in Hfree. apply Forall_cons in Hfree as [Hc Hfree].
    change (String c slug +:+ post) with (String c (slug +:+ post)).
    cbn [until_slash].
    destruct (Ascii.eqb_spec c "/"%char); [contradiction |]. f_equal. exact (IH Hfree Hpost).
Qed.

Lemma strip_prefix_Some prefix s rest :
  strip_prefix prefix s = Some rest -> s = prefix +:+ rest.
Proof.
  revert s. induction prefix as [|a prefix IH]; intros s; cbn [strip_prefix].
  - intros Hrest. injection Hrest as ->. reflexivity.
  - destruct s as [|b s]; [discriminate |].
    destruct (Ascii.eqb_spec a b) as [-> |]; [| discriminate].
    intros Hrest. rewrite (IH s Hrest). reflexivity.
Qed.

Lemma match_here_Some s slug :
  match_here s = Some slug ->
  exists post,
    s = "/tournament/" +:+ slug +:+ post
    /\ slug <> "" /\ slash_free slug
    /\ (post = "" \/ exists post', post = "/" +:+ post').
Proof.
  unfold match_here.
  destruct (strip_prefix "/tournament/" s) as [rest |] eqn:Hstrip; [| discriminate].
  apply strip_prefix_Some in Hstrip.
  destruct (until_slash_split rest) as (post & Hrest & Hfree & Hpost).
  destruct (until_slash rest) as [|c slug'] eqn:Huntil; [discriminate |].
  intros Hslug. injection Hslug as <-. exists post.
  split; [rewrite Hstrip, Hrest; reflexivity |]. split; [discriminate |].
  split; assumption.
Qed.

Lemma match_here_slash_free s : slash_free s -> match_here s = None.
Proof.
  unfold match_here, slash_free. destruct s as [|c s]; [reflexivity |].
  cbn [list_ascii_of_string]. intros Hfree. apply Forall_cons in Hfree as [Hc _].
  cbn [strip_prefix]. destruct (Ascii.eqb_spec "/"%char c) as [<- |]; [contradiction | reflexivity].
Qed.

Lemma match_tournament_Some url slug :
  match_tournament url = Some slug ->
  exists pre post,
    url = pre +:+ "/tournament/" +:+ slug +:+ post
    /\ slug <> "" /\ slash_free slug
    /\ (post = "" \/ exists post', post = "/" +:+ post').
Proof.
  induction url as [|c url IH]; cbn [match_tournament].
  - destruct (match_here "") as [slug' |] eqn:Hhere; [| discriminate].
    intros Heq. injection Heq as ->.
    destruct (match_here_Some _ _ Hhere) as (post & Hurl & Hrest). exists "", post.
    split; [exact Hurl | exact Hrest].
  - destruct (match_here (String c url)) as [slug' |] eqn:Hhere.
    + intros Heq. injection Heq as ->.
      destruct (match_here_Some _ _ Hhere) as (post & Hurl & Hrest). exists "", post.
      split; [exact Hurl | exact Hrest].
    + intros Hlater. destruct (IH Hlater) as (pre & post & Hurl & Hrest).
      exists (String c pre), post. split; [rewrite Hurl; reflexivity | exact Hrest].
Qed.

Lemma match_tournament_slash_free url : slash_free url -> match_tournament url = None.
Proof.
  unfold slash_free. induction url as [|c url IH]; intros Hfree; cbn [match_tournament].
  - reflexivity.
  - rewrite (match_here_slash_free (String c url) Hfree).
    cbn [list_ascii_of_string] in Hfree. apply Forall_cons in Hfree as [_ Hfree].
    exact (IH Hfree).
Qed.

Lemma strip_prefix_app prefix rest : strip_prefix prefix (prefix +:+ rest) = Some rest.
Proof.
  induction prefix as [|a prefix IH]; [destruct rest; reflexivity |].
  change (String a prefix +:+ rest) with (String a (prefix +:+ rest)).
  cbn [strip_prefix]. rewrite Ascii.eqb_refl. exact IH.
Qed.

Lemma match_tournament_here s slug :
  match_here s = Some slug -> match_tournament s = Some slug.
Proof. intros Hhere. destruct s; cbn [match_tournament]; rewrite Hhere; reflexivity. Qed.

Lemma match_tournament_skip c s :
  match_here (String c s) = None -> match_tournament (String c s) = match_tournament s.
Proof. intros Hhere. cbn [match_tournament]. rewrite Hhere. reflexivity. Qed.

Lemma match_tournament_startgg slug post :
  slug <> "" -> slash_free slug ->
  (post = "" \/ exists post', post = "/" +:+ post') ->
  match_tournament ("https://www.start.gg/tournament/" +:+ slug +:+ post) = Some slug.
Proof.
  intros Hne Hfree Hpost.
  assert (Hhere : match_here ("/tournament/" +:+ slug +:+ post) = Some slug).
  { unfold match_here. rewrite strip_prefix_app, (until_slash_free slug post Hfree Hpost).
    destruct slug; [contradiction | reflexivity]. }
  apply match_tournament_here in Hhere.
  set (rest := "/tournament/" +:+ slug +:+ post) in *.
  change ("https://www.start.gg/tournament/" +:+ slug +:+ post)
    with ("https://www.start.gg" +:+ rest).
  lazy beta iota delta [String.append].
  repeat (rewrite match_tournament_skip by reflexivity).
  exact Hhere.
Qed.

(** X27.  Slugs from URLs.  [extractSlugFromUrl] returns the path segment
    that follows the first [/tournament/] that has one: a slug it returns
    is never empty, holds no slash, and stands in the URL between
    [/tournament/] and a slash or the end.  A start.gg tournament URL, with
    or without a path behind the slug, gives its slug, so that
    [getTournamentByUrl] on it is [getTournamentBySlug] on the slug; a
    string without a slash, such as a bare slug, is rejected as an invalid
    URL before any query is sent. *)
Theorem extractSlugFromUrl_spec random_suffix tournamentQuery phaseGroupsQuery
    phaseGroupSetsQuery :
  let byUrl :=
    getTournamentByUrl random_suffix tournamentQuery phaseGroupsQuery phaseGroupSetsQuery in
  let bySlug :=
    getTournamentBySlug random_suffix tournamentQuery phaseGroupsQuery phaseGroupSetsQuery in
  (forall url slug,
     extractSlugFromUrl url = Resolved slug ->
     slug <> "" /\ slash_free slug
     /\ exists pre post,
          url = pre +:+ "/tournament/" +:+ slug +:+ post
          /\ (post = "" \/ exists post', post = "/" +:+ post'))
  /\ (forall slug post,
        slug <> "" -> slash_free slug ->
        post = "" \/ (exists post', post = "/" +:+ post') ->
        let url := "https://www.start.gg/tournament/" +:+ slug +:+ post in
        extractSlugFromUrl url = Resolved slug /\ byUrl url = bySlug slug)
  /\ (forall url,
        slash_free url ->
        extractSlugFromUrl url = Rejected "Invalid start.gg URL format"
        /\ byUrl url = Rejected "Invalid start.gg URL format").
Proof.
  intros byUrl bySlug. unfold byUrl, getTournamentByUrl, extractSlugFromUrl.
  split; [| split].
  - intros url slug Hslug.
    destruct (match_tournament url) as [slug' |] eqn:Hmatch; [| discriminate Hslug].
    injection Hslug as ->.
    destruct (match_tournament_Some url slug Hmatch) as (pre & post & Hurl & Hne & Hfree & Hpost).
    split; [exact Hne |]. split; [exact Hfree |]. exists pre, post. split; assumption.
  - intros slug post Hne Hfree Hpost.
    rewrite (match_tournament_startgg slug post Hne Hfree Hpost). split; reflexivity.
  - intros url Hfree. rewrite (match_tournament_slash_free url Hfree). split; reflexivity.
Qed.

End UrlFacts.

Example extractSlugFromUrl_details :
  StartGgApi.extractSlugFromUrl "https://www.start.gg/tournament/manila-madness-4/details"
  = Resolved "manila-madness-4".
Proof. reflexivity. Qed.

Example extractSlugFromUrl_event :
  StartGgApi.extractSlugFromUrl
    "https://www.start.gg/tournament/manila-madness-4/event/tekken-8-twt-challenger-event"
  = Resolved "manila-madness-4".
Proof. reflexivity. Qed.

Example extractSlugFromUrl_empty_segment :
  StartGgApi.extractSlugFromUrl "https://www.start.gg/tournament//tournament/x"
  = Resolved "x".
Proof. reflexivity. Qed.

(** * The factory *)

Section FactoryMore.
Context {V C : Type} `{!JSON V} `{!Redis C}.
Import FallbackCacheService.

Local Abbreviation memory := (gmap string (CacheEntry.t V)).
Local Abbreviation chain := (FallbackCacheService.t (RedisCacheService.t C + memory)).

Lemma fresh_chain_round_trip now key (value : V) ttlSeconds now' (c : C) :
  now <= now' < now + ttlSeconds * 1000 ->
  let s : chain :=
    {| caches := [inl {| RedisCacheService.redis := c;
                         RedisCacheService.connected := false |};
                  inr InMemoryCacheService.new] |} in
  exists s' : chain,
    ICacheService.set now key value ttlSeconds s = (Resolved tt, s')
    /\ ICacheService.get now' key s' = (Resolved (Some value), s')
    /\ exists redisCache memoryCache, caches s' = [inl redisCache; inr memoryCache].
Proof.
  intros Hlive s.
  exists {| caches := [inl {| RedisCacheService.redis := c;
                              RedisCacheService.connected := false |};
                       inr (InMemoryCacheService.set now key value ttlSeconds
                              InMemoryCacheService.new)] |}.
  split; [reflexivity |]. split; [| do 2 eexists; reflexivity].
  cbn [ICacheService.get service]. unfold FallbackCacheService.get, get_read.
  cbn [caches get_from ICacheService.get sum_service on_left on_right fst snd
       RedisCacheService.service InMemoryCacheService.service
       RedisCacheService.get RedisCacheService.connected negb].
  unfold InMemoryCacheService.get. rewrite InMemory_set_lookup.
  cbn [CacheEntry.expiresAt CacheEntry.data].
  destruct (Z.leb_spec (now + ttlSeconds * 1000) now'); [lia | reflexivity].
Qed.

(** X28.  What the factory builds.  Without [REDIS_URL], or with an empty
    one, or when the Redis client cannot be constructed, the cache service
    is a fresh in-memory cache; otherwise it is the chain of a Redis cache,
    not yet connected, and a fresh in-memory cache, named
    [FallbackCache(RedisCache → InMemoryCache)].  On the service as built,
    in either shape, [set] resolves and, until the TTL runs out, [get]
    returns the written value.  A chain cannot be built from no caches. *)
Theorem createCacheService_builds redisUrl :
  let s := factory.createCacheService (V := V) (C := C) redisUrl in
  (redisUrl = None \/ redisUrl = Some "" -> s = inl InMemoryCacheService.new)
  /\ (forall url e,
        redisUrl = Some url -> Redis.connect (C := C) url = Rejected e ->
        s = inl InMemoryCacheService.new)
  /\ (forall url c,
        redisUrl = Some url -> url <> "" -> Redis.connect url = Resolved c ->
        s = inr {| caches := [inl {| RedisCacheService.redis := c;
                                     RedisCacheService.connected := false |};
                              inr InMemoryCacheService.new] |}
        /\ ICacheService.getName s = "FallbackCache(RedisCache → InMemoryCache)")
  /\ (forall now key value ttlSeconds now',
        now <= now' < now + ttlSeconds * 1000 ->
        exists s',
          ICacheService.set now key value ttlSeconds s = (Resolved tt, s')
          /\ ICacheService.get now' key s' = (Resolved (Some value), s')
          /\ factory.wired s')
  /\ is_rejected (factory.createFallbackCache (B := RedisCacheService.t C + memory) []) = true.
Proof.
  intros s.
  assert (Hshape :
    s = inl InMemoryCacheService.new
    \/ exists c, s = inr {| caches := [inl {| RedisCacheService.redis := c;
                                             RedisCacheService.connected := false |};
                                      inr InMemoryCacheService.new] |}).
  { unfold s, factory.createCacheService, RedisCacheService.new.
    destruct redisUrl as [url |]; [| left; reflexivity].
    destruct (String.eqb url ""); [left; reflexivity |].
    destruct (Redis.connect url) as [c | e]; [right; exists c; reflexivity | left; reflexivity]. }
  split; [| split; [| split; [| split]]].
  - unfold s, factory.createCacheService. intros [-> | ->]; reflexivity.
  - intros url e -> Hconnect. unfold s, factory.createCacheService, RedisCacheService.new.
    rewrite Hconnect. destruct (String.eqb url ""); reflexivity.
  - intros url c -> Hne Hconnect.
    unfold s, factory.createCacheService, RedisCacheService.new. rewrite Hconnect.
    destruct (String.eqb_spec url ""); [contradiction |]. split; reflexivity.
  - intros now key value ttlSeconds now' Hlive.
    destruct Hshape as [-> | [c ->]].
    + eexists. split; [reflexivity |]. split; [| exact I].
      cbn [ICacheService.get ICacheService.set sum_service on_left fst snd
           InMemoryCacheService.service].
      unfold InMemoryCacheService.get. rewrite InMemory_set_lookup.
      cbn [CacheEntry.expiresAt CacheEntry.data].
      destruct (Z.leb_spec (now + ttlSeconds * 1000) now'); [lia | reflexivity].
    + destruct (fresh_chain_round_trip now key value ttlSeconds now' c Hlive)
        as (s' & Hset & Hget & Hwired).
      exists (inr s').
      cbn [ICacheService.get ICacheService.set sum_service on_right].
      rewrite Hset, Hget. repeat split. exact Hwired.
  - reflexivity.
Qed.

End FactoryMore.
